(** * s3copier: bulk copy of S3 objects under a prefix

    A shallow embedding of [s3copier/s3copier.go] together with the
    properties of the copy engine that its specification states.

    Layout:
    - Go base types: [int64] arithmetic with wrap-around, byte strings with
      slice expressions, [fmt.Sprintf], [float64] through the IEEE-754
      specification of the Standard Library;
    - the S3 client as an oracle answering from the history of requests,
      and the monad the sequential code runs in (request log + panics);
    - [CopyTo], [copyToSinglePart], [copyToMultiPart] and their helpers;
    - the goroutines of [CopyWithPrefix] as a labelled transition system;
    - the theorems. *)

From Stdlib Require Import ZArith Zpower String Ascii List Lia Bool DecimalString.
From Stdlib Require Import Floats.SpecFloat.
From stdpp Require Import base list.
Import ListNotations.

Local Open Scope string_scope.
Local Open Scope Z_scope.
Local Open Scope list_scope.

(** ** Go base types *)

(** *** int64 *)

Module Int64.

Definition min : Z := - 2 ^ 63.
Definition max : Z := 2 ^ 63 - 1.

Definition InRange (z : Z) : Prop := min <= z <= max.

(** Two's complement wrap-around of a mathematical result. *)
Definition wrap (z : Z) : Z := (z + 2 ^ 63) mod 2 ^ 64 - 2 ^ 63.

Definition add (a b : Z) : Z := wrap (a + b).
Definition sub (a b : Z) : Z := wrap (a - b).

End Int64.

(** *** strings *)

(** [len(s)] *)
Definition len (s : string) : Z := Z.of_nat (String.length s).

(** The slice expression [s[lo:hi]] on a string: Go panics unless
    [0 <= lo <= hi <= len(s)]; [None] stands for that panic. *)
Definition slice (s : string) (lo hi : Z) : option string :=
  if (0 <=? lo) && (lo <=? hi) && (hi <=? len s)
  then Some (substring (Z.to_nat lo) (Z.to_nat (hi - lo)) s)
  else None.

(** [strings.HasSuffix]:
    [len(s) >= len(suffix) && s[len(s)-len(suffix):] == suffix]. *)
Definition HasSuffix (s suffix : string) : bool :=
  (len suffix <=? len s)
  && String.eqb
       (substring (String.length s - String.length suffix)
                  (String.length suffix) s)
       suffix.

(** *** fmt.Sprintf

    The fragment the program uses: literal bytes, [%s] with a string
    operand, [%d] with an integer operand, [%%].  [None] marks a call
    outside this fragment (another verb, a missing, extra or ill-typed
    operand), which the program never makes. *)

Inductive fmtArg : Type :=
| ArgString (s : string)
| ArgInt (z : Z).

Definition formatInt (z : Z) : string := NilZero.string_of_int (Z.to_int z).

Fixpoint Sprintf (format : string) (args : list fmtArg) : option string :=
  match format with
  | EmptyString =>
      match args with
      | [] => Some EmptyString
      | _ :: _ => None
      end
  | String "%" EmptyString => None
  | String "%" (String verb rest) =>
      if Ascii.eqb verb "%" then
        option_map (String "%") (Sprintf rest args)
      else if Ascii.eqb verb "s" then
        match args with
        | ArgString s :: args' => option_map (String.append s) (Sprintf rest args')
        | _ => None
        end
      else if Ascii.eqb verb "d" then
        match args with
        | ArgInt z :: args' =>
            option_map (String.append (formatInt z)) (Sprintf rest args')
        | _ => None
        end
      else None
  | String c rest => option_map (String c) (Sprintf rest args)
  end.

(** *** float64

    Go's [float64] is IEEE-754 binary64; the Standard Library's
    [spec_float] with [prec = 53] and [emax = 1024] is its exact
    specification (round to nearest, ties to even). *)

Module Float64.

Definition prec : Z := 53.
Definition emax : Z := 1024.

Definition t : Type := spec_float.

(** The conversion [float64(z)] of an integer. *)
Definition of_int (z : Z) : t := binary_normalize prec emax z 0 false.

Definition div (x y : t) : t := SFdiv prec emax x y.

(** The signed integer mantissa of a finite float. *)
Definition mantissa (s : bool) (m : positive) : Z :=
  if s then Z.neg m else Z.pos m.

(** [math.Ceil]: the least integer value not below [x]; zeros,
    infinities and NaN are returned as they are, and a negative
    argument above [-1] gives [-0]. *)
Definition Ceil (x : t) : t :=
  match x with
  | S754_finite s m e =>
      let n := mantissa s m in
      let c := if 0 <=? e then n * 2 ^ e else - ((- n) / 2 ^ (- e)) in
      if c =? 0 then S754_zero s else of_int c
  | _ => x
  end.

(** The conversion [int(x)] (64-bit [int]): the fraction is discarded.
    When the value does not fit, or [x] is an infinity or NaN, the Go
    specification leaves the result to the implementation; [None]. *)
Definition to_int (x : t) : option Z :=
  match x with
  | S754_zero _ => Some 0
  | S754_finite s m e =>
      let n := mantissa s m in
      let v := if 0 <=? e then n * 2 ^ e else Z.quot n (2 ^ (- e)) in
      if (Int64.min <=? v) && (v <=? Int64.max) then Some v else None
  | _ => None
  end.

End Float64.

(** ** The package *)

Definition FIVE_MB : Z := 5 * 1024 * 1024.
Definition WORKER_COUNT : Z := 50.

Record S3Object : Type := { bucket : string; key : string }.

Definition bucketKeyPath (s : S3Object) : string :=
  default EmptyString
    (Sprintf "%s/%s" [ArgString (bucket s); ArgString (key s)]).


(** ** The S3 client

    The request and reply structures of the AWS SDK, restricted to the
    fields the package sets or reads.  A field the SDK declares as a
    pointer and the package reads is an [option] ([None] is [nil]); an
    input field the package always sets through [aws.String] or
    [aws.Int64] is the plain value. *)

(** A non-nil Go [error] value; the Go type [error] is [option error],
    with [None] for [nil]. *)
Definition error : Type := string.

(** The pair [(output, err)] an SDK call returns. *)
Inductive result (A : Type) : Type :=
| Ok (a : A)
| Err (e : error).
Arguments Ok {A} a.
Arguments Err {A} e.

Module s3.

Definition MetadataDirectiveReplace : string := "REPLACE".

Module HeadObjectInput.
Record t : Type := mk { Bucket : string; Key : string }.
End HeadObjectInput.

Module HeadObjectOutput.
Record t : Type := mk {
  ContentLength : option Z;
  ContentType : option string;
  Metadata : list (string * string)
}.
End HeadObjectOutput.

Module CopyObjectInput.
Record t : Type := mk {
  Bucket : string;
  Key : string;
  ContentType : option string;
  CopySource : string;
  MetadataDirective : option string
}.
End CopyObjectInput.

Module CreateMultipartUploadInput.
Record t : Type := mk {
  Bucket : string;
  Key : string;
  ContentType : option string;
  Metadata : list (string * string)
}.
End CreateMultipartUploadInput.

Module CreateMultipartUploadOutput.
Record t : Type := mk { UploadId : option string }.
End CreateMultipartUploadOutput.

Module UploadPartCopyInput.
Record t : Type := mk {
  Bucket : string;
  CopySource : string;
  CopySourceRange : string;
  Key : string;
  PartNumber : Z;
  UploadId : option string
}.
End UploadPartCopyInput.

Module CopyPartResult.
Record t : Type := mk { ETag : option string }.
End CopyPartResult.

Module UploadPartCopyOutput.
Record t : Type := mk { CopyPartResult : option CopyPartResult.t }.
End UploadPartCopyOutput.

Module CompletedPart.
Record t : Type := mk { ETag : string; PartNumber : Z }.
End CompletedPart.

Module CompletedMultipartUpload.
(** [Parts] is a slice of pointers: a slot never assigned is [nil]. *)
Record t : Type := mk { Parts : list (option CompletedPart.t) }.
End CompletedMultipartUpload.

Module CompleteMultipartUploadInput.
Record t : Type := mk {
  Bucket : string;
  Key : string;
  MultipartUpload : CompletedMultipartUpload.t;
  UploadId : option string
}.
End CompleteMultipartUploadInput.

(** A request sent to the service. *)
Inductive Request : Type :=
| ReqHeadObject (input : HeadObjectInput.t)
| ReqCopyObject (input : CopyObjectInput.t)
| ReqCreateMultipartUpload (input : CreateMultipartUploadInput.t)
| ReqUploadPartCopy (input : UploadPartCopyInput.t)
| ReqCompleteMultipartUpload (input : CompleteMultipartUploadInput.t).

(** The client [*s3.S3].  The service is remote and stateful: each
    operation answers from the requests made on this client so far
    (oldest first) and the new input.  Nothing else is assumed of it.
    The outputs of [CopyObject] and [CompleteMultipartUpload] are
    discarded by the package, so only their error is kept. *)
Record S3 : Type := {
  HeadObject :
    list Request -> HeadObjectInput.t -> result HeadObjectOutput.t;
  CopyObject :
    list Request -> CopyObjectInput.t -> option error;
  CreateMultipartUpload :
    list Request -> CreateMultipartUploadInput.t ->
    result CreateMultipartUploadOutput.t;
  UploadPartCopy :
    list Request -> UploadPartCopyInput.t -> result UploadPartCopyOutput.t;
  CompleteMultipartUpload :
    list Request -> CompleteMultipartUploadInput.t -> option error
}.

End s3.

(** ** The monad of the sequential code

    A computation runs from the log of the requests made so far and ends
    with a value or a run-time panic, and the extended log. *)

Inductive PanicKind : Type :=
| NilDereference
| IndexOutOfRange
| SliceBoundsOutOfRange
| MakesliceLenOutOfRange.

Inductive Outcome (A : Type) : Type :=
| Ret (a : A)
| Panic (p : PanicKind)
| Timeout.
Arguments Ret {A} a.
Arguments Panic {A} p.
Arguments Timeout {A}.

Definition M (A : Type) : Type :=
  list s3.Request -> Outcome A * list s3.Request.

Definition ret {A : Type} (a : A) : M A := fun log => (Ret a, log).

Definition panic {A : Type} (p : PanicKind) : M A := fun log => (Panic p, log).

Definition timeout {A : Type} : M A := fun log => (Timeout, log).

Definition bind {A B : Type} (m : M A) (k : A -> M B) : M B :=
  fun log =>
    match m log with
    | (Ret a, log') => k a log'
    | (Panic p, log') => (Panic p, log')
    | (Timeout, log') => (Timeout, log')
    end.

Notation "x <- m ;; k" := (bind m (fun x => k))
  (at level 100, m at next level, right associativity).

(** Dereference of a pointer. *)
Definition deref {A : Type} (p : option A) : M A :=
  match p with
  | Some a => ret a
  | None => panic NilDereference
  end.

(** One SDK call: the client answers from the log, the request is logged. *)
Definition call {A : Type} (answer : list s3.Request -> A)
    (req : s3.Request) : M A :=
  fun log => (Ret (answer log), log ++ [req]).

(** ** The copier *)

Record S3Copier : Type := { partSize : Z; s3client : s3.S3 }.

(** [NewS3Copier]: the session only determines the client. *)
Definition NewS3Copier (client : s3.S3) : S3Copier :=
  {| s3client := client; partSize := FIVE_MB * 2 |}.

Definition headObject (c : S3Copier) (obj : S3Object)
  : M (result s3.HeadObjectOutput.t) :=
  let input := s3.HeadObjectInput.mk (bucket obj) (key obj) in
  r <- call (fun log => s3.HeadObject (s3client c) log input)
            (s3.ReqHeadObject input) ;;
  match r with
  | Err err => ret (Err err)
  | Ok head => ret (Ok head)
  end.

Definition createMultiPartUpload (c : S3Copier) (dest : S3Object)
    (srcHead : s3.HeadObjectOutput.t)
  : M (result s3.CreateMultipartUploadOutput.t) :=
  let input :=
    s3.CreateMultipartUploadInput.mk (bucket dest) (key dest)
      (s3.HeadObjectOutput.ContentType srcHead)
      (s3.HeadObjectOutput.Metadata srcHead) in
  r <- call (fun log => s3.CreateMultipartUpload (s3client c) log input)
            (s3.ReqCreateMultipartUpload input) ;;
  match r with
  | Err err => ret (Err err)
  | Ok multiUploadInit => ret (Ok multiUploadInit)
  end.

(** The [CopySourceRange] header value, ["bytes=%d-%d"]. *)
Definition copySourceRange (bytePosition lastByte : Z) : string :=
  default EmptyString
    (Sprintf "bytes=%d-%d" [ArgInt bytePosition; ArgInt lastByte]).

Definition uploadPartCopyInput (partNum : Z) (src dest : S3Object)
    (bytePosition lastByte : Z) (uploadId : option string)
  : s3.UploadPartCopyInput.t :=
  s3.UploadPartCopyInput.mk (bucket dest) (bucketKeyPath src)
    (copySourceRange bytePosition lastByte) (key dest) partNum uploadId.

Definition uploadPartCopy (c : S3Copier) (partNum : Z) (src dest : S3Object)
    (bytePosition lastByte : Z) (uploadId : option string)
  : M (result s3.UploadPartCopyOutput.t) :=
  let input :=
    uploadPartCopyInput partNum src dest bytePosition lastByte uploadId in
  call (fun log => s3.UploadPartCopy (s3client c) log input)
       (s3.ReqUploadPartCopy input).

Definition ensureContentTypeM3u8Input (src : S3Object) : s3.CopyObjectInput.t :=
  s3.CopyObjectInput.mk (bucket src) (key src)
    (Some "application/vnd.apple.mpegurl") (bucketKeyPath src)
    (Some s3.MetadataDirectiveReplace).

Definition ensureContentTypeM3u8 (c : S3Copier) (src : S3Object)
  : M (option error) :=
  let input := ensureContentTypeM3u8Input src in
  call (fun log => s3.CopyObject (s3client c) log input)
       (s3.ReqCopyObject input).

Definition copyToSinglePartInput (src dest : S3Object) : s3.CopyObjectInput.t :=
  s3.CopyObjectInput.mk (bucket dest) (key dest) None (bucketKeyPath src) None.

Definition copyToSinglePart (c : S3Copier) (src dest : S3Object)
  : M (option error) :=
  let input := copyToSinglePartInput src dest in
  call (fun log => s3.CopyObject (s3client c) log input)
       (s3.ReqCopyObject input).

(** *** copyToMultiPart *)

(** [int(math.Ceil(float64(objectSize) / float64(partSize)))] *)
Definition partsSize (objectSize partSize : Z) : option Z :=
  Float64.to_int
    (Float64.Ceil
       (Float64.div (Float64.of_int objectSize) (Float64.of_int partSize))).

(** The size of a slice element: [*s3.CompletedPart] is a pointer, 8
    bytes on the 64-bit targets ([int] is [int64] throughout). *)
Definition pointerSize : Z := 8.

(** The runtime's [maxAlloc], [1 << heapAddrBits], on linux/amd64 and
    linux/arm64. *)
Definition maxAlloc : Z := 2 ^ 48.

(** The test of the runtime's [makeslice]: it panics with
    [makeslice: len out of range] when [len < 0] or when
    [elemSize * len] overflows or exceeds [maxAlloc]. *)
Definition makeslice_ok (n : Z) : bool :=
  (0 <=? n) && (pointerSize * n <=? maxAlloc).

(** [make([]*s3.CompletedPart, n)]: [n] nil slots, unless [makeslice]
    panics.  Where [int(...)] is left to the implementation ([None]) the
    usual targets give the least or the greatest [int], which [makeslice]
    rejects as well.  An allocation that [makeslice] lets through and the
    operating system cannot satisfy ends the process with a fatal error
    of the runtime; that depends on the machine and is not modelled. *)
Definition make (n : option Z) : M (list (option s3.CompletedPart.t)) :=
  match n with
  | Some n =>
      if makeslice_ok n then ret (replicate (Z.to_nat n) None)
      else panic MakesliceLenOutOfRange
  | None => panic MakesliceLenOutOfRange
  end.

(** The last byte of the part that starts at [bytePosition]. *)
Definition lastByteOf (objectSize partSize bytePosition : Z) : Z :=
  let lastByte := Int64.sub (Int64.add bytePosition partSize) 1 in
  if lastByte >? Int64.sub objectSize 1 then Int64.sub objectSize 1
  else lastByte.

(** [etag[1 : len(etag)-1]] *)
Definition stripQuotes (etag : string) : option string :=
  slice etag 1 (len etag - 1).

(** [completedParts[i] = p] *)
Definition store (completedParts : list (option s3.CompletedPart.t)) (i : Z)
    (p : s3.CompletedPart.t) : M (list (option s3.CompletedPart.t)) :=
  if (0 <=? i) && (i <? Z.of_nat (length completedParts))
  then ret (<[Z.to_nat i := Some p]> completedParts)
  else panic IndexOutOfRange.

(** How the [for] loop of [copyToMultiPart] is left: through its [return],
    or by its condition turning false. *)
Inductive LoopExit : Type :=
| Returned (err : option error)
| Finished (completedParts : list (option s3.CompletedPart.t)).

(** The loop [for bytePosition < objectSize { ... }].  Every iteration
    that goes round again has filled the slot [partNum-1], so the loop
    body runs at most [len(completedParts) + 1] times; [fuel] counts the
    iterations left ([copyParts_no_timeout] shows it is never exhausted
    from the initial values). *)
Fixpoint copyParts (fuel : nat) (c : S3Copier) (src dest : S3Object)
    (uploadId : option string) (objectSize bytePosition partNum : Z)
    (completedParts : list (option s3.CompletedPart.t)) : M LoopExit :=
  match fuel with
  | O => timeout
  | S fuel' =>
      if bytePosition <? objectSize then
        let lastByte := lastByteOf objectSize (partSize c) bytePosition in
        r <- uploadPartCopy c partNum src dest bytePosition lastByte uploadId ;;
        match r with
        | Err _ => ret (Returned None)
        | Ok partResult =>
            copyPartResult <-
              deref (s3.UploadPartCopyOutput.CopyPartResult partResult) ;;
            etag <- deref (s3.CopyPartResult.ETag copyPartResult) ;;
            match stripQuotes etag with
            | None => panic SliceBoundsOutOfRange
            | Some tag =>
                completedParts' <-
                  store completedParts (Int64.sub partNum 1)
                        (s3.CompletedPart.mk tag partNum) ;;
                copyParts fuel' c src dest uploadId objectSize
                  (Int64.add bytePosition (partSize c))
                  (Int64.add partNum 1) completedParts'
            end
        end
      else ret (Finished completedParts)
  end.

Definition completeMultipartUploadInput (dest : S3Object)
    (completedParts : list (option s3.CompletedPart.t))
    (uploadId : option string) : s3.CompleteMultipartUploadInput.t :=
  s3.CompleteMultipartUploadInput.mk (bucket dest) (key dest)
    (s3.CompletedMultipartUpload.mk completedParts) uploadId.

Definition copyToMultiPart (c : S3Copier) (src dest : S3Object)
  : M (option error) :=
  r <- headObject c src ;;
  match r with
  | Err err => ret (Some err)
  | Ok head =>
      r <- createMultiPartUpload c dest head ;;
      match r with
      | Err err => ret (Some err)
      | Ok multipartUploadInit =>
          let uploadId :=
            s3.CreateMultipartUploadOutput.UploadId multipartUploadInit in
          objectSize <- deref (s3.HeadObjectOutput.ContentLength head) ;;
          completedParts <- make (partsSize objectSize (partSize c)) ;;
          exit <- copyParts (S (length completedParts)) c src dest uploadId
                    objectSize 0 1 completedParts ;;
          match exit with
          | Returned err => ret err
          | Finished completedParts =>
              let input :=
                completeMultipartUploadInput dest completedParts uploadId in
              err <- call (fun log =>
                             s3.CompleteMultipartUpload (s3client c) log input)
                          (s3.ReqCompleteMultipartUpload input) ;;
              match err with
              | Some err => ret (Some err)
              | None => ret None
              end
          end
      end
  end.

(** *** CopyTo *)

Definition CopyTo (c : S3Copier) (src dest : S3Object) : M (option error) :=
  r <- headObject c src ;;
  match r with
  | Err err => ret (Some err)
  | Ok head =>
      let copy : M (option error) :=
        objectSize <- deref (s3.HeadObjectOutput.ContentLength head) ;;
        if objectSize <=? FIVE_MB then copyToSinglePart c src dest
        else copyToMultiPart c src dest in
      if HasSuffix (key src) ".m3u8" then
        err <- ensureContentTypeM3u8 c src ;;
        match err with
        | Some err => ret (Some err)
        | None => copy
        end
      else copy
  end.

(** *** The parts the loop plans

    The byte ranges and part numbers of the successive iterations of the
    loop of [copyToMultiPart], without the calls: [bytePosition] starts
    at 0 and [partNum] at 1, an iteration covers [bytePosition] to
    [lastByteOf], and the loop stops once [bytePosition < objectSize]
    fails.  [None]: the condition still holds after [fuel] iterations. *)

Record PartDescriptor : Type := {
  partNumber : Z;
  startByte : Z;
  endByte : Z
}.

Fixpoint partsFrom (fuel : nat) (objectSize partSize bytePosition partNum : Z)
  : option (list PartDescriptor) :=
  match fuel with
  | O => None
  | S fuel' =>
      if bytePosition <? objectSize then
        option_map
          (cons {| partNumber := partNum;
                   startByte := bytePosition;
                   endByte := lastByteOf objectSize partSize bytePosition |})
          (partsFrom fuel' objectSize partSize
             (Int64.add bytePosition partSize) (Int64.add partNum 1))
      else Some []
  end.

Definition plannedParts (fuel : nat) (objectSize partSize : Z)
  : option (list PartDescriptor) :=
  partsFrom fuel objectSize partSize 0 1.

(** The request the loop sends for a planned part. *)
Definition partRequest (src dest : S3Object) (uploadId : option string)
    (d : PartDescriptor) : s3.Request :=
  s3.ReqUploadPartCopy
    (uploadPartCopyInput (partNumber d) src dest (startByte d) (endByte d)
       uploadId).

(** [ceil(a / b)] on integers, for [b > 0]. *)
Definition ceilDiv (a b : Z) : Z := (a + b - 1) / b.

(** ** CopyWithPrefix and its workers

    The goroutines communicate through three buffered channels.  The
    system is a labelled transition system: a state records the channel
    buffers and where every goroutine stands, an action is one goroutine
    getting past its next communication (or call), and [step] is [None]
    when that goroutine is blocked there.  The scheduler and the service
    choose the actions. *)

Definition jobsCapacity : Z := 20000.
Definition doneCapacity : Z := 20000.
Definition statusChanCapacity : Z := 1.

(** Where a [runWorker] goroutine stands. *)
Inductive Worker : Type :=
| WReceive                    (* at [for key := range jobs] *)
| WCopyTo (key : string)      (* in [c.CopyTo(src, dest)] *)
| WSendStatus (err : error)   (* at [statusChan <- err] *)
| WSendDone (key : string)    (* at [done <- key] *)
| WReturned.                  (* after [return] *)

(** Where the goroutine that called [CopyWithPrefix] stands. *)
Inductive Caller : Type :=
| Listing (pages : list (list (option string)))
    (* in [ListObjectsV2Pages]: the rest of the current page, then the
       pages still to come; a key is a [*string] *)
| Selecting                   (* at the [select] *)
| CallerReturned (err : option error).

(** A value received by the [select]. *)
Inductive Signal : Type :=
| SigDone (key : string)
| SigStatus (err : error).

Record System : Type := {
  jobs : list string;
  done : list string;
  statusChan : list error;
  workers : list Worker;
  caller : Caller;
  count : Z;
  check : Z;
  (** a goroutine has panicked: the process is gone *)
  crashed : bool;
  (** history, not program state: the keys sent on [jobs] and the values
      the [select] has received, oldest first *)
  enqueued : list string;
  received : list Signal
}.

Definition set_jobs (v : list string) (s : System) : System :=
  {| jobs := v; done := done s; statusChan := statusChan s;
     workers := workers s; caller := caller s; count := count s;
     check := check s; crashed := crashed s; enqueued := enqueued s;
     received := received s |}.

Definition set_done (v : list string) (s : System) : System :=
  {| jobs := jobs s; done := v; statusChan := statusChan s;
     workers := workers s; caller := caller s; count := count s;
     check := check s; crashed := crashed s; enqueued := enqueued s;
     received := received s |}.

Definition set_statusChan (v : list error) (s : System) : System :=
  {| jobs := jobs s; done := done s; statusChan := v;
     workers := workers s; caller := caller s; count := count s;
     check := check s; crashed := crashed s; enqueued := enqueued s;
     received := received s |}.

Definition set_workers (v : list Worker) (s : System) : System :=
  {| jobs := jobs s; done := done s; statusChan := statusChan s;
     workers := v; caller := caller s; count := count s;
     check := check s; crashed := crashed s; enqueued := enqueued s;
     received := received s |}.

Definition set_caller (v : Caller) (s : System) : System :=
  {| jobs := jobs s; done := done s; statusChan := statusChan s;
     workers := workers s; caller := v; count := count s;
     check := check s; crashed := crashed s; enqueued := enqueued s;
     received := received s |}.

Definition set_count (v : Z) (s : System) : System :=
  {| jobs := jobs s; done := done s; statusChan := statusChan s;
     workers := workers s; caller := caller s; count := v;
     check := check s; crashed := crashed s; enqueued := enqueued s;
     received := received s |}.

Definition set_check (v : Z) (s : System) : System :=
  {| jobs := jobs s; done := done s; statusChan := statusChan s;
     workers := workers s; caller := caller s; count := count s;
     check := v; crashed := crashed s; enqueued := enqueued s;
     received := received s |}.

Definition crash (s : System) : System :=
  {| jobs := jobs s; done := done s; statusChan := statusChan s;
     workers := workers s; caller := caller s; count := count s;
     check := check s; crashed := true; enqueued := enqueued s;
     received := received s |}.

Definition log_enqueued (k : string) (s : System) : System :=
  {| jobs := jobs s; done := done s; statusChan := statusChan s;
     workers := workers s; caller := caller s; count := count s;
     check := check s; crashed := crashed s; enqueued := enqueued s ++ [k];
     received := received s |}.

Definition log_received (v : Signal) (s : System) : System :=
  {| jobs := jobs s; done := done s; statusChan := statusChan s;
     workers := workers s; caller := caller s; count := count s;
     check := check s; crashed := crashed s; enqueued := enqueued s;
     received := received s ++ [v] |}.

Inductive Action : Type :=
| ActList                     (* the caller handles the next listed item *)
| ActSelectDone               (* the [select] takes [<-done] *)
| ActSelectStatus             (* the [select] takes [<-statusChan] *)
| ActReceive (w : nat)        (* worker [w] receives a key from [jobs] *)
| ActCopyTo (w : nat) (service : s3.S3)
    (* worker [w]'s call of [CopyTo] ends, the service having answered
       its requests as [service] does *)
| ActSend (w : nat).          (* worker [w]'s pending send goes through *)

Section CopyWithPrefix.

(** The receiver's part size and the arguments of [CopyWithPrefix];
    the listing is what [ListObjectsV2Pages] hands to the callback
    (its error is dropped by the code). *)
Variable c_partSize : Z.
Variables srcBucket destBucket : string.

(** The state when [ListObjectsV2Pages] is entered: the workers have
    been spawned, nothing has been sent. *)
Definition initial (pages : list (list (option string))) : System :=
  {| jobs := []; done := []; statusChan := [];
     workers := replicate (Z.to_nat WORKER_COUNT) WReceive;
     caller := Listing pages; count := 0; check := 0; crashed := false;
     enqueued := []; received := [] |}.

(** The callback of the listing and the code up to the [select]. *)
Definition stepList (s : System) : option System :=
  match caller s with
  | Listing [] => Some (set_check 0 (set_caller Selecting s))
  | Listing ([] :: pages) => Some (set_caller (Listing pages) s)
  | Listing ((None :: _) :: _) => Some (crash s)
  | Listing ((Some k :: page) :: pages) =>
      if Z.of_nat (length (jobs s)) <? jobsCapacity then
        Some (set_caller (Listing (page :: pages))
                (set_count (Int64.add (count s) 1)
                   (log_enqueued k (set_jobs (jobs s ++ [k]) s))))
      else None
  | _ => None
  end.

(** [case key := <-done]: [check++], then [if check >= count]. *)
Definition stepSelectDone (s : System) : option System :=
  match caller s, done s with
  | Selecting, key :: rest =>
      let check' := Int64.add (check s) 1 in
      let s' := set_check check'
                  (log_received (SigDone key) (set_done rest s)) in
      Some (if check' >=? count s then set_caller (CallerReturned None) s'
            else s')
  | _, _ => None
  end.

(** [case err := <-statusChan]: [return err]. *)
Definition stepSelectStatus (s : System) : option System :=
  match caller s, statusChan s with
  | Selecting, err :: rest =>
      Some (set_caller (CallerReturned (Some err))
              (log_received (SigStatus err) (set_statusChan rest s)))
  | _, _ => None
  end.

(** [runWorker], one communication or call at a time.  The call of
    [CopyTo] ends with [nil], an error or a panic, as the service makes
    it ([CopyTo_no_timeout]: the fuel of the model never runs out). *)
Definition stepReceive (w : nat) (s : System) : option System :=
  match workers s !! w, jobs s with
  | Some WReceive, key :: rest =>
      Some (set_workers (<[w := WCopyTo key]> (workers s)) (set_jobs rest s))
  | _, _ => None
  end.

Definition stepCopyTo (w : nat) (service : s3.S3) (s : System)
  : option System :=
  match workers s !! w with
  | Some (WCopyTo key) =>
      let c := {| partSize := c_partSize; s3client := service |} in
      let src := {| bucket := srcBucket; key := key |} in
      let dest := {| bucket := destBucket; key := key |} in
      match fst (CopyTo c src dest []) with
      | Ret None => Some (set_workers (<[w := WSendDone key]> (workers s)) s)
      | Ret (Some err) =>
          Some (set_workers (<[w := WSendStatus err]> (workers s)) s)
      | Panic _ => Some (crash s)
      | Timeout => None
      end
  | _ => None
  end.

Definition stepSend (w : nat) (s : System) : option System :=
  match workers s !! w with
  | Some (WSendDone key) =>
      if Z.of_nat (length (done s)) <? doneCapacity then
        Some (set_workers (<[w := WReceive]> (workers s))
                (set_done (done s ++ [key]) s))
      else None
  | Some (WSendStatus err) =>
      if Z.of_nat (length (statusChan s)) <? statusChanCapacity then
        Some (set_workers (<[w := WReturned]> (workers s))
                (set_statusChan (statusChan s ++ [err]) s))
      else None
  | _ => None
  end.

Definition step (s : System) (a : Action) : option System :=
  if crashed s then None
  else
    match a with
    | ActList => stepList s
    | ActSelectDone => stepSelectDone s
    | ActSelectStatus => stepSelectStatus s
    | ActReceive w => stepReceive w s
    | ActCopyTo w service => stepCopyTo w service s
    | ActSend w => stepSend w s
    end.

(** A schedule run from [s]. *)
Fixpoint run (s : System) (schedule : list Action) : option System :=
  match schedule with
  | [] => Some s
  | a :: schedule' =>
      match step s a with
      | Some s' => run s' schedule'
      | None => None
      end
  end.

(** [CopyWithPrefix] can be in state [s] when the listing is [pages]. *)
Definition Reachable (pages : list (list (option string))) (s : System)
  : Prop :=
  exists schedule, run (initial pages) schedule = Some s.

(** No goroutine can move. *)
Definition Deadlocked (s : System) : Prop := forall a, step s a = None.

End CopyWithPrefix.


(** ** Vocabulary of the statements *)

(** Requests by kind. *)
Definition isPartCopy (r : s3.Request) : bool :=
  match r with
  | s3.ReqUploadPartCopy _ => true
  | _ => false
  end.

Definition headRequest (obj : S3Object) : s3.Request :=
  s3.ReqHeadObject (s3.HeadObjectInput.mk (bucket obj) (key obj)).

Definition createInput (dest : S3Object) (head : s3.HeadObjectOutput.t)
  : s3.CreateMultipartUploadInput.t :=
  s3.CreateMultipartUploadInput.mk (bucket dest) (key dest)
    (s3.HeadObjectOutput.ContentType head)
    (s3.HeadObjectOutput.Metadata head).

(** The part of [copyToMultiPart] after the upload has been created and
    [objectSize] read. *)
Definition copyAndComplete (c : S3Copier) (src dest : S3Object)
    (uploadId : option string) (objectSize : Z) : M (option error) :=
  completedParts <- make (partsSize objectSize (partSize c)) ;;
  exit <- copyParts (S (length completedParts)) c src dest uploadId
            objectSize 0 1 completedParts ;;
  match exit with
  | Returned err => ret err
  | Finished completedParts =>
      let input :=
        completeMultipartUploadInput dest completedParts uploadId in
      err <- call (fun log =>
                     s3.CompleteMultipartUpload (s3client c) log input)
                  (s3.ReqCompleteMultipartUpload input) ;;
      match err with
      | Some err => ret (Some err)
      | None => ret None
      end
  end.


Definition isComplete (r : s3.Request) : bool :=
  match r with
  | s3.ReqCompleteMultipartUpload _ => true
  | _ => false
  end.

(** A metadata rewrite is a [CopyObject] with the REPLACE directive. *)
Definition isRewrite (r : s3.Request) : bool :=
  match r with
  | s3.ReqCopyObject input =>
      match s3.CopyObjectInput.MetadataDirective input with
      | Some d => String.eqb d s3.MetadataDirectiveReplace
      | None => false
      end
  | _ => false
  end.

(** ** Example services *)

Definition quote : ascii := "034"%char.

Definition quoted (s : string) : string :=
  String quote (String.append s (String quote EmptyString)).

(** A service holding objects of [size] bytes that answers every part
    copy with the eTag [etag], except part [refused], which it refuses
    with the error ["E"]; every other call succeeds. *)
Definition exampleService (size : Z) (etag : string) (refused : Z) : s3.S3 :=
  {| s3.HeadObject := fun _ _ =>
       Ok (s3.HeadObjectOutput.mk (Some size) (Some "video/mp2t") []);
     s3.CopyObject := fun _ _ => None;
     s3.CreateMultipartUpload := fun _ _ =>
       Ok (s3.CreateMultipartUploadOutput.mk (Some "upload-1"));
     s3.UploadPartCopy := fun _ input =>
       if s3.UploadPartCopyInput.PartNumber input =? refused then Err "E"
       else Ok (s3.UploadPartCopyOutput.mk
                  (Some (s3.CopyPartResult.mk (Some etag))));
     s3.CompleteMultipartUpload := fun _ _ => None |}.

(** A service that refuses every metadata fetch with the error ["E"]. *)
Definition refusingService : s3.S3 :=
  {| s3.HeadObject := fun _ _ => Err "E";
     s3.CopyObject := fun _ _ => None;
     s3.CreateMultipartUpload := fun _ _ =>
       Ok (s3.CreateMultipartUploadOutput.mk (Some "upload-1"));
     s3.UploadPartCopy := fun _ _ => Err "E";
     s3.CompleteMultipartUpload := fun _ _ => None |}.

Definition MiB : Z := 1024 * 1024.

Definition exampleSrc : S3Object := {| bucket := "from"; key := "a.ts" |}.
Definition exampleDest : S3Object := {| bucket := "to"; key := "a.ts" |}.

(** ** Properties of a list of part descriptors *)

(** The [i]-th part (from 0) of an object cut into parts of [partSize]. *)
Definition plannedPart (objectSize partSize i : Z) : PartDescriptor :=
  {| partNumber := i + 1;
     startByte := i * partSize;
     endByte := Z.min ((i + 1) * partSize - 1) (objectSize - 1) |}.

(** Every part starts right after the part before it ends. *)
Definition Contiguous (ds : list PartDescriptor) : Prop :=
  forall (i : nat) d d',
    ds !! i = Some d -> ds !! S i = Some d' -> startByte d' = endByte d + 1.

(** No byte belongs to two parts. *)
Definition NonOverlapping (ds : list PartDescriptor) : Prop :=
  forall (i j : nat) d d',
    ds !! i = Some d -> ds !! j = Some d' -> i <> j ->
    endByte d < startByte d' \/ endByte d' < startByte d.

(** The bytes that belong to some part are exactly those of [0, n). *)
Definition Covers (ds : list PartDescriptor) (n : Z) : Prop :=
  forall b : Z,
    0 <= b < n <-> exists d, In d ds /\ startByte d <= b <= endByte d.

Definition isCopyObject (r : s3.Request) : bool :=
  match r with
  | s3.ReqCopyObject _ => true
  | _ => false
  end.

(** The requests of [CopyTo] before it chooses how to copy, when they
    succeed: the metadata fetch and, for a [.m3u8] key, the rewrite. *)
Definition selectorRequests (src : S3Object) : list s3.Request :=
  headRequest src
  :: (if HasSuffix (key src) ".m3u8"
      then [s3.ReqCopyObject (ensureContentTypeM3u8Input src)]
      else []).

(** The part numbers of a completion manifest, slot by slot ([None] for
    a nil slot). *)
Definition manifestPartNumbers (input : s3.CompleteMultipartUploadInput.t)
  : list (option Z) :=
  map (option_map s3.CompletedPart.PartNumber)
    (s3.CompletedMultipartUpload.Parts
       (s3.CompleteMultipartUploadInput.MultipartUpload input)).

(** What C6 says of a run that has sent the completion call [input],
    spelled out: the run sent, after the metadata fetch and the creation
    of the upload, the part copies planned for the fetched size, numbered
    1 to N in this order, and then the completion call; the manifest
    holds the Completed Parts numbered 1 to N in the first N of its
    [slots] slots and nil in the others; for sizes below [2^53] there
    are no other slots. *)
Definition ManifestOfRun (c : S3Copier) (src dest : S3Object)
    (new : list s3.Request) (input : s3.CompleteMultipartUploadInput.t)
  : Prop :=
  exists (head : s3.HeadObjectOutput.t) (uploadId : option string)
         (objectSize slots : Z) (ds : list PartDescriptor)
         (cps : list s3.CompletedPart.t),
    let N := Z.of_nat (length ds) in
    s3.HeadObjectOutput.ContentLength head = Some objectSize
    /\ partsSize objectSize (partSize c) = Some slots
    /\ plannedParts (S (Z.to_nat slots)) objectSize (partSize c) = Some ds
    /\ new = headRequest src
             :: s3.ReqCreateMultipartUpload (createInput dest head)
             :: map (partRequest src dest uploadId) ds
             ++ [s3.ReqCompleteMultipartUpload input]
    /\ map partNumber ds = seqZ 1 N
    /\ map s3.CompletedPart.PartNumber cps = seqZ 1 N
    /\ N <= slots
    /\ s3.CompletedMultipartUpload.Parts
         (s3.CompleteMultipartUploadInput.MultipartUpload input)
       = map Some cps ++ replicate (Z.to_nat (slots - N)) None
    /\ (slots = N -> manifestPartNumbers input = map Some (seqZ 1 N))
    /\ (0 < objectSize < 2 ^ 53 -> 0 < partSize c < 2 ^ 53 ->
        slots = N /\ N = ceilDiv objectSize (partSize c)).

(** An object of three parts whose size is not a [float64]: [2^62 + 515]
    bytes, in parts of a third of that. *)
Definition hugePartSize : Z := 1537228672809129473.
Definition hugeObjectSize : Z := 3 * hugePartSize.

(** ** Accounting of the keys in flight *)

(** [total f ws]: the sum of [f] over the workers. *)
Fixpoint total (f : Worker -> Z) (ws : list Worker) : Z :=
  match ws with
  | [] => 0
  | w :: ws' => f w + total f ws'
  end.

(** A worker that has left [for key := range jobs] for a key accounts
    for that key until it is back at the [range]; a worker that has
    returned accounts for the key whose copy failed. *)
Definition holdsKey (w : Worker) : Z :=
  match w with
  | WReceive => 0
  | _ => 1
  end.

Definition hasReturned (w : Worker) : Z :=
  match w with
  | WReturned => 1
  | _ => 0
  end.

Fixpoint doneCount (signals : list Signal) : Z :=
  match signals with
  | [] => 0
  | SigDone _ :: rest => 1 + doneCount rest
  | SigStatus _ :: rest => doneCount rest
  end.

Fixpoint statusCount (signals : list Signal) : Z :=
  match signals with
  | [] => 0
  | SigDone _ :: rest => statusCount rest
  | SigStatus _ :: rest => 1 + statusCount rest
  end.

(** What the caller has received, by where it stands. *)
Definition CallerInvariant (pages : list (list (option string)))
    (s : System) : Prop :=
  match caller s with
  | Listing rest =>
      map Some (enqueued s) ++ concat rest = concat pages
      /\ received s = [] /\ check s = 0
  | Selecting =>
      map Some (enqueued s) = concat pages
      /\ (exists keys, received s = map SigDone keys)
      /\ (check s = 0 \/ check s < count s)
  | CallerReturned None =>
      map Some (enqueued s) = concat pages
      /\ (exists keys, received s = map SigDone keys)
      /\ 1 <= check s /\ check s = count s
  | CallerReturned (Some err) =>
      map Some (enqueued s) = concat pages
      /\ exists keys, received s = map SigDone keys ++ [SigStatus err]
  end.

Record Invariant (pages : list (list (option string))) (s : System)
  : Prop := {
  inv_workers : length (workers s) = Z.to_nat WORKER_COUNT;
  inv_jobs : Z.of_nat (length (jobs s)) <= jobsCapacity;
  inv_doneChan : Z.of_nat (length (done s)) <= doneCapacity;
  inv_status : Z.of_nat (length (statusChan s)) <= statusChanCapacity;
  (** every key sent on [jobs] is accounted for once *)
  inv_keys :
    Z.of_nat (length (enqueued s))
    = Z.of_nat (length (jobs s)) + total holdsKey (workers s)
      + Z.of_nat (length (done s)) + doneCount (received s);
  (** every error sent on [statusChan] comes from a worker that returned *)
  inv_errors :
    Z.of_nat (length (statusChan s)) + statusCount (received s)
    = total hasReturned (workers s);
  inv_count : count s = Z.of_nat (length (enqueued s));
  inv_check : check s = doneCount (received s);
  inv_bound :
    Z.of_nat (length (enqueued s))
    <= jobsCapacity + doneCapacity + WORKER_COUNT;
  inv_caller : CallerInvariant pages s
}.

(** ** Example runs of CopyWithPrefix *)

(** The listing has one page with the key [a.ts]; worker 0 copies it. *)
Definition exampleSchedule (service : s3.S3) : list Action :=
  [ActList; ActList; ActList; ActReceive 0; ActCopyTo 0 service; ActSend 0].

Definition afterSchedule (pages : list (list (option string)))
    (schedule : list Action) : System :=
  default (initial pages)
    (run (FIVE_MB * 2) "from" "to" (initial pages) schedule).

(** The byte ranges of the part copies in a log, in the order sent. *)
Definition partRanges (log : list s3.Request) : list string :=
  omap (fun r =>
          match r with
          | s3.ReqUploadPartCopy input =>
              Some (s3.UploadPartCopyInput.CopySourceRange input)
          | _ => None
          end) log.

(** ** Vocabulary of float64 rounding *)

(** The number of bits of a mantissa. *)
Definition digits (p : positive) : Z := Z.pos (digits2_pos p).

(** What rounding to 53 bits returns for a mantissa of 53 or 54 bits
    with the location [l] of the exact value, in units of the exponent
    of the mantissa. *)
Definition roundedUnits (q : positive) (l : location) : Z :=
  if digits q =? 53 then round_nearest_even (Z.pos q) l
  else
    let mrs := shr_1 (shr_record_of_loc (Z.pos q) l) in
    2 * round_nearest_even (shr_m mrs) (loc_of_shr_record mrs).

From Stdlib Require DecimalPos DecimalZ.

(** ** Vocabulary of the further properties *)

(** The error the client answers to [request] after the requests
    [history]; [None] when the call succeeds. *)
Definition replyError (client : s3.S3) (history : list s3.Request)
    (request : s3.Request) : option error :=
  match request with
  | s3.ReqHeadObject input =>
      match s3.HeadObject client history input with
      | Err err => Some err
      | Ok _ => None
      end
  | s3.ReqCopyObject input => s3.CopyObject client history input
  | s3.ReqCreateMultipartUpload input =>
      match s3.CreateMultipartUpload client history input with
      | Err err => Some err
      | Ok _ => None
      end
  | s3.ReqUploadPartCopy input =>
      match s3.UploadPartCopy client history input with
      | Err err => Some err
      | Ok _ => None
      end
  | s3.ReqCompleteMultipartUpload input =>
      s3.CompleteMultipartUpload client history input
  end.

(** Every request of [new], sent one after the other from the log
    [history], succeeds. *)
Fixpoint accepted (client : s3.S3) (history new : list s3.Request) : bool :=
  match new with
  | [] => true
  | request :: rest =>
      match replyError client history request with
      | None => accepted client (history ++ [request]) rest
      | Some _ => false
      end
  end.

(** How a run that has sent the requests [new] from the log [log] ends:
    every request but the last one succeeded; a returned value is the
    answer to the last request, except that a refused part copy gives
    nil; a panic follows a request that succeeded. *)
Definition LastAnswer (client : s3.S3) (log new : list s3.Request)
    (out : Outcome (option error)) : Prop :=
  exists (before : list s3.Request) (last : s3.Request),
    new = before ++ [last]
    /\ accepted client log before = true
    /\ match out with
       | Ret result =>
           if isPartCopy last
           then result = None
                /\ replyError client (log ++ before) last <> None
           else result = replyError client (log ++ before) last
       | Panic _ => replyError client (log ++ before) last = None
       | Timeout => False
       end.

(** The part numbers that S3 accepts in one multipart upload are 1 to
    10000; the package itself has no such limit. *)
Definition maxParts : Z := 10000.

(** A service on which every call succeeds: it reports [size] bytes for
    every object, and answers every part copy with a part number from 1
    to [maxParts] with an eTag of two bytes or more. *)
Definition Cooperative (client : s3.S3) (size : Z) : Prop :=
  (forall history input,
      exists head,
        s3.HeadObject client history input = Ok head
        /\ s3.HeadObjectOutput.ContentLength head = Some size)
  /\ (forall history input, s3.CopyObject client history input = None)
  /\ (forall history input,
         exists init, s3.CreateMultipartUpload client history input = Ok init)
  /\ (forall history input,
         1 <= s3.UploadPartCopyInput.PartNumber input <= maxParts ->
         exists etag,
           s3.UploadPartCopy client history input
           = Ok (s3.UploadPartCopyOutput.mk
                   (Some (s3.CopyPartResult.mk (Some etag))))
           /\ 2 <= len etag)
  /\ (forall history input,
         s3.CompleteMultipartUpload client history input = None).

(** The requests of a multi-part copy of [objectSize] bytes in which
    every call succeeds, with the manifest holding [cps]. *)
Definition multiPartRequests (partSize : Z) (src dest : S3Object)
    (head : s3.HeadObjectOutput.t) (uploadId : option string)
    (objectSize : Z) (cps : list s3.CompletedPart.t) : list s3.Request :=
  headRequest src
  :: s3.ReqCreateMultipartUpload (createInput dest head)
  :: map (partRequest src dest uploadId)
       (map (plannedPart objectSize partSize)
          (seqZ 0 (ceilDiv objectSize partSize)))
  ++ [s3.ReqCompleteMultipartUpload
        (completeMultipartUploadInput dest (map Some cps) uploadId)].

(** ** Where the keys and the errors of CopyWithPrefix come from *)

(** The key a worker has received from [jobs] and not yet reported. *)
Definition heldKeys (w : Worker) : list string :=
  match w with
  | WCopyTo key | WSendDone key => [key]
  | _ => []
  end.

Fixpoint heldBy (ws : list Worker) : list string :=
  match ws with
  | [] => []
  | w :: ws' => heldKeys w ++ heldBy ws'
  end.

(** The keys and the errors among the values the [select] received. *)
Definition doneKeys (signals : list Signal) : list string :=
  omap (fun v => match v with SigDone key => Some key | SigStatus _ => None end)
    signals.

Definition statusErrors (signals : list Signal) : list error :=
  omap (fun v => match v with SigStatus err => Some err | SigDone _ => None end)
    signals.

(** In the run [schedule], a worker's call of [CopyTo] for [key], from
    [srcBucket] to [destBucket], has ended with [result]. *)
Definition CopyToEnded (c_partSize : Z) (srcBucket destBucket : string)
    (schedule : list Action) (key : string) (result : option error) : Prop :=
  exists (w : nat) (service : s3.S3),
    In (ActCopyTo w service) schedule
    /\ fst (CopyTo {| partSize := c_partSize; s3client := service |}
              {| bucket := srcBucket; key := key |}
              {| bucket := destBucket; key := key |} []) = Ret result.

(** [err] is the result of a call of [CopyTo] for one of the keys
    [listed]. *)
Definition Failed (c_partSize : Z) (srcBucket destBucket : string)
    (schedule : list Action) (listed : list string) (err : error) : Prop :=
  exists key,
    In key listed
    /\ CopyToEnded c_partSize srcBucket destBucket schedule key (Some err).

Definition WorkerProvenance (c_partSize : Z) (srcBucket destBucket : string)
    (schedule : list Action) (listed : list string) (w : Worker) : Prop :=
  match w with
  | WSendDone key =>
      CopyToEnded c_partSize srcBucket destBucket schedule key None
  | WSendStatus err =>
      Failed c_partSize srcBucket destBucket schedule listed err
  | _ => True
  end.

(** After the run [schedule]: no key is in two places, every key on its
    way to the [select] comes from a call of [CopyTo] that returned nil,
    every error from a call that returned it. *)
Record Provenance (c_partSize : Z) (srcBucket destBucket : string)
    (schedule : list Action) (s : System) : Prop := {
  prov_keys :
    jobs s ++ heldBy (workers s) ++ done s ++ doneKeys (received s)
    ⊆+ enqueued s;
  prov_done :
    Forall (fun key =>
              CopyToEnded c_partSize srcBucket destBucket schedule key None)
      (done s ++ doneKeys (received s));
  prov_status :
    Forall (Failed c_partSize srcBucket destBucket schedule (enqueued s))
      (statusChan s ++ statusErrors (received s));
  prov_workers :
    Forall (WorkerProvenance c_partSize srcBucket destBucket schedule
              (enqueued s))
      (workers s)
}.

(** ** A bound on the steps a run has left *)

(** The steps a worker can still take for the key it holds: the end of
    [CopyTo], the send, and the receive by the [select]. *)
Definition workerSteps (w : Worker) : Z :=
  match w with
  | WCopyTo _ => 3
  | WSendStatus _ | WSendDone _ => 2
  | WReceive | WReturned => 0
  end.

(** The steps the listing still causes: five for every key (send on
    [jobs], receive, [CopyTo], send, [select]), one at the end of every
    page, one to reach the [select]. *)
Definition callerSteps (c : Caller) : Z :=
  match c with
  | Listing rest =>
      5 * Z.of_nat (length (concat rest)) + Z.of_nat (length rest) + 1
  | _ => 0
  end.

Definition stepsLeft (s : System) : Z :=
  if crashed s then 0
  else callerSteps (caller s)
       + 4 * Z.of_nat (length (jobs s))
       + total workerSteps (workers s)
       + Z.of_nat (length (done s))
       + Z.of_nat (length (statusChan s)).

(** ** Bytes of a string *)

(** The byte [a] occurs in [s]. *)
Fixpoint occurs (a : ascii) (s : string) : bool :=
  match s with
  | EmptyString => false
  | String b s' => Ascii.eqb a b || occurs a s'
  end.

(** A service whose metadata answers carry no [ContentLength]. *)
Definition sizelessService : s3.S3 :=
  {| s3.HeadObject := fun _ _ => Ok (s3.HeadObjectOutput.mk None None []);
     s3.CopyObject := fun _ _ => None;
     s3.CreateMultipartUpload := fun _ _ =>
       Ok (s3.CreateMultipartUploadOutput.mk None);
     s3.UploadPartCopy := fun _ _ => Err "E";
     s3.CompleteMultipartUpload := fun _ _ => None |}.
(** * Properties *)

(** ** Base types *)

Lemma wrap_in_range (z : Z) : Int64.InRange z -> Int64.wrap z = z.
Proof.
  unfold Int64.InRange, Int64.wrap, Int64.min, Int64.max. intros H.
  rewrite Z.mod_small; lia.
Qed.

Lemma wrap_range (z : Z) : Int64.InRange (Int64.wrap z).
Proof.
  unfold Int64.InRange, Int64.wrap, Int64.min, Int64.max.
  pose proof (Z.mod_pos_bound (z + 2 ^ 63) (2 ^ 64)). lia.
Qed.

Lemma append_empty_r (s : string) : String.append s EmptyString = s.
Proof. induction s as [|a s IH]; simpl; congruence. Qed.

Lemma length_append (s t : string) :
  String.length (String.append s t) = (String.length s + String.length t)%nat.
Proof. induction s as [|a s IH]; simpl; congruence. Qed.

Lemma substring_prefix (s t : string) :
  substring 0 (String.length s) (String.append s t) = s.
Proof. induction s as [|a s IH]; simpl; [destruct t; reflexivity | congruence]. Qed.

(** ** The source locator *)

(** C9.  For every bucket and key, the locator that [bucketKeyPath]
    derives is the bucket, followed by ["/"], followed by the key. *)
Theorem bucketKeyPath_locator (b k : string) :
  bucketKeyPath {| bucket := b; key := k |}
  = String.append b (String.append "/" k).
Proof.
  unfold bucketKeyPath. cbn [Sprintf bucket key Ascii.eqb Bool.eqb].
  simpl. rewrite append_empty_r. reflexivity.
Qed.

(** The range header of a part copy. *)
Lemma copySourceRange_format (bytePosition lastByte : Z) :
  copySourceRange bytePosition lastByte
  = String.append "bytes="
      (String.append (formatInt bytePosition)
         (String.append "-" (formatInt lastByte))).
Proof.
  unfold copySourceRange. cbn [Sprintf Ascii.eqb Bool.eqb option_map].
  cbn [default option_map]. rewrite append_empty_r. reflexivity.
Qed.

(** ** eTag normalisation *)

Lemma slice_Some (s : string) (lo hi : Z) :
  0 <= lo <= hi -> hi <= len s ->
  slice s lo hi = Some (substring (Z.to_nat lo) (Z.to_nat (hi - lo)) s).
Proof.
  intros [H1 H2] H3. unfold slice.
  rewrite !andb_true_intro; [reflexivity|].
  split; [apply andb_true_intro; split|]; apply Z.leb_le; lia.
Qed.

Lemma slice_None (s : string) (lo hi : Z) :
  lo < 0 \/ hi < lo \/ len s < hi -> slice s lo hi = None.
Proof.
  intros H. unfold slice.
  destruct (0 <=? lo) eqn:E1; [|reflexivity].
  destruct (lo <=? hi) eqn:E2; [|reflexivity].
  destruct (hi <=? len s) eqn:E3; [|reflexivity].
  apply Z.leb_le in E1, E2, E3. lia.
Qed.

Lemma stripQuotes_short (etag : string) :
  len etag < 2 -> stripQuotes etag = None.
Proof. intros H. unfold stripQuotes. apply slice_None. lia. Qed.

Lemma stripQuotes_long (etag : string) :
  2 <= len etag ->
  stripQuotes etag
  = Some (substring 1 (Z.to_nat (len etag - 2)) etag).
Proof.
  intros H. unfold stripQuotes. rewrite slice_Some by lia.
  do 2 f_equal. lia.
Qed.

(** C10.  The slice expression [etag[1:len(etag)-1]] of [copyToMultiPart]
    yields a value exactly when the eTag has at least two bytes; on an
    eTag of length 0 or 1 it is out of bounds (a run-time panic). *)
Theorem stripQuotes_defined_iff (etag : string) :
  (stripQuotes etag = None <-> len etag < 2)
  /\ ((exists tag, stripQuotes etag = Some tag) <-> 2 <= len etag).
Proof.
  destruct (Z_lt_ge_dec (len etag) 2) as [Hlt | Hge].
  - rewrite stripQuotes_short by lia.
    split; split; intros H; try easy; try lia.
    destruct H as [tag H]. discriminate.
  - rewrite stripQuotes_long by lia.
    split; split; intros H; try easy; try lia.
    eexists. reflexivity.
Qed.

(** The bytes [etag[1:len(etag)-1]] keeps: everything but the first and
    the last one. *)
Lemma stripQuotes_middle (a b : ascii) (s : string) :
  stripQuotes (String a (String.append s (String b EmptyString))) = Some s.
Proof.
  unfold stripQuotes.
  assert (Hlen : len (String a (String.append s (String b EmptyString)))
                 = Z.of_nat (String.length s) + 2).
  { unfold len. cbn [String.length]. rewrite length_append.
    cbn [String.length]. lia. }
  rewrite slice_Some by lia. rewrite Hlen.
  replace (Z.to_nat 1) with 1%nat by reflexivity.
  replace (Z.to_nat _) with (String.length s) by lia.
  cbn [substring]. rewrite substring_prefix. reflexivity.
Qed.

(** ** The loop of copyToMultiPart *)

(** One iteration, in direct style. *)
Lemma copyParts_unfold (fuel : nat) (c : S3Copier) (src dest : S3Object)
    (uploadId : option string) (objectSize bytePosition partNum : Z)
    (completedParts : list (option s3.CompletedPart.t))
    (log : list s3.Request) :
  copyParts (S fuel) c src dest uploadId objectSize bytePosition partNum
    completedParts log
  = if bytePosition <? objectSize then
      let input :=
        uploadPartCopyInput partNum src dest bytePosition
          (lastByteOf objectSize (partSize c) bytePosition) uploadId in
      let log1 := log ++ [s3.ReqUploadPartCopy input] in
      match s3.UploadPartCopy (s3client c) log input with
      | Err _ => (Ret (Returned None), log1)
      | Ok partResult =>
          match s3.UploadPartCopyOutput.CopyPartResult partResult with
          | None => (Panic NilDereference, log1)
          | Some copyPartResult =>
              match s3.CopyPartResult.ETag copyPartResult with
              | None => (Panic NilDereference, log1)
              | Some etag =>
                  match stripQuotes etag with
                  | None => (Panic SliceBoundsOutOfRange, log1)
                  | Some tag =>
                      if (0 <=? Int64.sub partNum 1)
                         && (Int64.sub partNum 1
                             <? Z.of_nat (length completedParts))
                      then
                        copyParts fuel c src dest uploadId objectSize
                          (Int64.add bytePosition (partSize c))
                          (Int64.add partNum 1)
                          (<[Z.to_nat (Int64.sub partNum 1) :=
                               Some (s3.CompletedPart.mk tag partNum)]>
                             completedParts)
                          log1
                      else (Panic IndexOutOfRange, log1)
                  end
              end
          end
      end
    else (Ret (Finished completedParts), log).
Proof.
  cbn [copyParts]. destruct (bytePosition <? objectSize); [|reflexivity].
  unfold bind, uploadPartCopy, call, deref, store, ret, panic. cbn zeta.
  destruct (s3.UploadPartCopy _ _ _) as [partResult|err]; [|reflexivity].
  destruct (s3.UploadPartCopyOutput.CopyPartResult partResult)
    as [copyPartResult|]; [|reflexivity].
  destruct (s3.CopyPartResult.ETag copyPartResult) as [etag|]; [|reflexivity].
  destruct (stripQuotes etag) as [tag|]; [|reflexivity].
  destruct (_ && _); reflexivity.
Qed.

(** Splits a run of one iteration, given as the hypothesis [H], into its
    cases: the iteration goes round again, ends in one of four panics,
    returns, or the loop condition fails. *)
Ltac copyParts_cases H :=
  rewrite copyParts_unfold in H; cbn zeta in H;
  let Hcond := fresh "Hcond" in
  let Hcall := fresh "Hcall" in
  let Hres := fresh "Hres" in
  let Hetag := fresh "Hetag" in
  let Hstrip := fresh "Hstrip" in
  let Hidx := fresh "Hidx" in
  destruct (_ <? _) eqn:Hcond in H;
  [ destruct (s3.UploadPartCopy _ _ _) as [?partResult|?err] eqn:Hcall in H;
    [ destruct (s3.UploadPartCopyOutput.CopyPartResult _)
        as [?copyPartResult|] eqn:Hres in H;
      [ destruct (s3.CopyPartResult.ETag _) as [?etag|] eqn:Hetag in H;
        [ destruct (stripQuotes _) as [?tag|] eqn:Hstrip in H;
          [ destruct (_ && _) eqn:Hidx in H | ]
        | ]
      | ]
    | ]
  | ].


(** The loop only appends part-copy requests to the log. *)
Lemma copyParts_log (fuel : nat) (c : S3Copier) (src dest : S3Object)
    (uploadId : option string) (objectSize : Z) :
  forall bytePosition partNum completedParts log out log',
    copyParts fuel c src dest uploadId objectSize bytePosition partNum
      completedParts log = (out, log') ->
    exists new, log' = log ++ new /\ Forall (fun r => isPartCopy r = true) new.
Proof.
  induction fuel as [|fuel IH]; intros bp pn parts log out log' H.
  - inversion H; subst. exists []. rewrite app_nil_r. auto.
  - copyParts_cases H.
    1: { apply IH in H as (new & -> & Hnew).
         eexists (_ :: new). rewrite <- app_assoc. split; [reflexivity|].
         constructor; [reflexivity | assumption]. }
    1-5: inversion H; subst; eexists [_]; split; [reflexivity|];
         repeat constructor.
    inversion H; subst. exists []. rewrite app_nil_r. auto.
Qed.

Lemma app_eq_split {A : Type} (l1 l2 m1 m2 : list A) :
  l1 ++ l2 = m1 ++ m2 -> (length m1 <= length l1)%nat ->
  exists k, l1 = m1 ++ k /\ m2 = k ++ l2.
Proof.
  revert m1. induction l1 as [|x l1 IH]; intros [|y m1] H Hlen;
    cbn [length] in Hlen; try lia.
  - exists []. cbn in *. auto.
  - exists (x :: l1). cbn in *. auto.
  - cbn in H. injection H as -> H. apply IH in H as (k & -> & ->); [|lia].
    exists k. auto.
Qed.

(** A part copy the service refuses is the last request of the loop, and
    the loop is left through [return nil]. *)
Lemma copyParts_failed_part (fuel : nat) (c : S3Copier) (src dest : S3Object)
    (uploadId : option string) (objectSize : Z) :
  forall bytePosition partNum completedParts log out log',
    copyParts fuel c src dest uploadId objectSize bytePosition partNum
      completedParts log = (out, log') ->
    forall l input rest e,
      log' = l ++ s3.ReqUploadPartCopy input :: rest ->
      (length log <= length l)%nat ->
      s3.UploadPartCopy (s3client c) l input = Err e ->
      rest = [] /\ out = Ret (Returned None).
Proof.
  induction fuel as [|fuel IH]; intros bp pn parts log out log' H
    l input rest e Hsplit Hlen Hfail.
  - cbn in H. injection H as <- <-. apply (f_equal length) in Hsplit.
    rewrite length_app in Hsplit. cbn in Hsplit. lia.
  - assert (Hone : forall req : s3.UploadPartCopyInput.t,
               log ++ [s3.ReqUploadPartCopy req]
               = l ++ s3.ReqUploadPartCopy input :: rest ->
               l = log /\ req = input /\ rest = []).
    { intros req Heq. symmetry in Heq.
      apply app_eq_split in Heq as (k & -> & Hk); [|assumption].
      destruct k as [|x [|y k]]; cbn in Hk.
      - injection Hk as -> <-. rewrite app_nil_r. auto.
      - discriminate.
      - discriminate. }
    copyParts_cases H.
    + destruct (copyParts_log _ _ _ _ _ _ _ _ _ _ _ _ H) as (new & Hnew & _).
      assert (Heq : l ++ s3.ReqUploadPartCopy input :: rest
                    = log ++ s3.ReqUploadPartCopy
                               (uploadPartCopyInput pn src dest bp
                                  (lastByteOf objectSize (partSize c) bp)
                                  uploadId) :: new).
      { rewrite <- Hsplit, Hnew, <- app_assoc. reflexivity. }
      apply app_eq_split in Heq as (k & Hl & Hk); [|assumption].
      destruct k as [|x k]; cbn in Hk.
      * injection Hk as Hreq _. rewrite app_nil_r in Hl. subst l.
        rewrite Hreq in Hcall. congruence.
      * injection Hk as <- Hk.
        refine (IH _ _ _ _ _ _ H ((log ++ [_]) ++ k) input rest e _ _ _).
        -- rewrite Hsplit, Hl, <- !app_assoc. reflexivity.
        -- rewrite !length_app. lia.
        -- rewrite <- app_assoc. cbn. rewrite <- Hl. exact Hfail.
    + injection H as <- <-. apply Hone in Hsplit as (-> & <- & _). congruence.
    + injection H as <- <-. apply Hone in Hsplit as (-> & <- & _). congruence.
    + injection H as <- <-. apply Hone in Hsplit as (-> & <- & _). congruence.
    + injection H as <- <-. apply Hone in Hsplit as (-> & <- & _). congruence.
    + injection H as <- <-. apply Hone in Hsplit as (-> & <- & ->). auto.
    + injection H as <- <-. apply (f_equal length) in Hsplit.
      rewrite length_app in Hsplit. cbn in Hsplit. lia.
Qed.

(** ** copyToMultiPart *)


Lemma headObject_unfold (c : S3Copier) (obj : S3Object)
    (log : list s3.Request) :
  headObject c obj log
  = (Ret (s3.HeadObject (s3client c) log
            (s3.HeadObjectInput.mk (bucket obj) (key obj))),
     log ++ [headRequest obj]).
Proof.
  unfold headObject, bind, call, ret. cbn zeta.
  destruct (s3.HeadObject _ _ _); reflexivity.
Qed.

Lemma createMultiPartUpload_unfold (c : S3Copier) (dest : S3Object)
    (head : s3.HeadObjectOutput.t) (log : list s3.Request) :
  createMultiPartUpload c dest head log
  = (Ret (s3.CreateMultipartUpload (s3client c) log (createInput dest head)),
     log ++ [s3.ReqCreateMultipartUpload (createInput dest head)]).
Proof.
  unfold createMultiPartUpload, bind, call, ret. cbn zeta.
  fold (createInput dest head).
  destruct (s3.CreateMultipartUpload _ _ _); reflexivity.
Qed.


Lemma copyToMultiPart_unfold (c : S3Copier) (src dest : S3Object)
    (log : list s3.Request) :
  copyToMultiPart c src dest log
  = let log1 := log ++ [headRequest src] in
    match s3.HeadObject (s3client c) log
            (s3.HeadObjectInput.mk (bucket src) (key src)) with
    | Err err => (Ret (Some err), log1)
    | Ok head =>
        let log2 := log1 ++ [s3.ReqCreateMultipartUpload (createInput dest head)] in
        match s3.CreateMultipartUpload (s3client c) log1
                (createInput dest head) with
        | Err err => (Ret (Some err), log2)
        | Ok multipartUploadInit =>
            match s3.HeadObjectOutput.ContentLength head with
            | None => (Panic NilDereference, log2)
            | Some objectSize =>
                copyAndComplete c src dest
                  (s3.CreateMultipartUploadOutput.UploadId multipartUploadInit)
                  objectSize log2
            end
        end
    end.
Proof.
  unfold copyToMultiPart. unfold bind at 1. rewrite headObject_unfold.
  cbn zeta. destruct (s3.HeadObject _ _ _) as [head|err]; [|reflexivity].
  unfold bind at 1. rewrite createMultiPartUpload_unfold.
  destruct (s3.CreateMultipartUpload _ _ _) as [init|err]; [|reflexivity].
  unfold bind at 1. unfold deref.
  destruct (s3.HeadObjectOutput.ContentLength head); reflexivity.
Qed.

Lemma makeslice_ok_spec (n : Z) :
  makeslice_ok n = true <-> 0 <= n /\ pointerSize * n <= maxAlloc.
Proof.
  unfold makeslice_ok. rewrite andb_true_iff, Z.leb_le, Z.leb_le.
  reflexivity.
Qed.

Lemma copyAndComplete_unfold (c : S3Copier) (src dest : S3Object)
    (uploadId : option string) (objectSize : Z) (log : list s3.Request) :
  copyAndComplete c src dest uploadId objectSize log
  = match partsSize objectSize (partSize c) with
    | None => (Panic MakesliceLenOutOfRange, log)
    | Some n =>
        if makeslice_ok n then
          let slots := replicate (Z.to_nat n) None in
          match copyParts (S (length slots)) c src dest uploadId objectSize
                  0 1 slots log with
          | (Ret (Returned err), log') => (Ret err, log')
          | (Ret (Finished completedParts), log') =>
              let input :=
                completeMultipartUploadInput dest completedParts uploadId in
              (Ret (s3.CompleteMultipartUpload (s3client c) log' input),
               log' ++ [s3.ReqCompleteMultipartUpload input])
          | (Panic p, log') => (Panic p, log')
          | (Timeout, log') => (Timeout, log')
          end
        else (Panic MakesliceLenOutOfRange, log)
    end.
Proof.
  unfold copyAndComplete, make.
  destruct (partsSize objectSize (partSize c)) as [n|]; [|reflexivity].
  destruct (makeslice_ok n); [|reflexivity].
  unfold bind at 1. unfold ret at 1. unfold bind at 1.
  destruct (copyParts _ _ _ _ _ _ _ _ _ _) as [[[err|parts]|p|] log'];
    try reflexivity.
  unfold bind, call, ret. cbn zeta.
  destruct (s3.CompleteMultipartUpload _ _ _); reflexivity.
Qed.

Lemma split_after_other {A : Type} (l rest log new : list A) (r x : A) :
  l ++ r :: rest = log ++ x :: new -> (length log <= length l)%nat ->
  x <> r ->
  exists k, l = (log ++ [x]) ++ k /\ k ++ r :: rest = new.
Proof.
  intros H Hlen Hne. apply app_eq_split in H as (k & -> & Hk); [|assumption].
  destruct k as [|y k]; cbn in Hk.
  - injection Hk as Hx _. contradiction.
  - injection Hk as -> ->. exists k. rewrite <- app_assoc. auto.
Qed.

Lemma split_before_other {A : Type} (l rest new : list A) (r y : A) :
  l ++ r :: rest = new ++ [y] -> y <> r ->
  exists rest', rest = rest' ++ [y] /\ l ++ r :: rest' = new.
Proof.
  intros H Hne. induction rest as [|z rest' _] using rev_ind.
  - change (l ++ [r] = new ++ [y]) in H. apply app_inj_tail in H as [_ ->].
    contradiction.
  - change (l ++ r :: rest' ++ [z]) with (l ++ (r :: rest') ++ [z]) in H.
    rewrite app_assoc in H. apply app_inj_tail in H as [H ->].
    exists rest'. auto.
Qed.

(** A part copy that the service refuses ends [copyToMultiPart] at once:
    no request follows it.  What is returned then is [nil]. *)
Lemma copyToMultiPart_failed_part (c : S3Copier) (src dest : S3Object)
    (log : list s3.Request) (out : Outcome (option error))
    (log' : list s3.Request) :
  copyToMultiPart c src dest log = (out, log') ->
  forall l input rest e,
    log' = l ++ s3.ReqUploadPartCopy input :: rest ->
    (length log <= length l)%nat ->
    s3.UploadPartCopy (s3client c) l input = Err e ->
    rest = [] /\ out = Ret None.
Proof.
  intros H l input rest e Hsplit Hlen Hfail.
  rewrite copyToMultiPart_unfold in H. cbn zeta in H.
  assert (Hshort : forall x : s3.Request,
             isPartCopy x = false ->
             l ++ s3.ReqUploadPartCopy input :: rest <> log ++ [x]).
  { intros x Hx Heq. apply split_after_other in Heq as (k & _ & Hk); auto.
    - destruct k; discriminate.
    - intros ->. discriminate. }
  destruct (s3.HeadObject _ _ _) as [head|err].
  2: { injection H as <- <-. symmetry in Hsplit.
       apply Hshort in Hsplit; [contradiction | reflexivity]. }
  assert (Hshort2 : forall x y : s3.Request,
             isPartCopy x = false -> isPartCopy y = false ->
             l ++ s3.ReqUploadPartCopy input :: rest <> (log ++ [x]) ++ [y]).
  { intros x y Hx Hy Heq. rewrite <- app_assoc in Heq. cbn in Heq.
    apply split_after_other in Heq as (k & _ & Hk); auto.
    - destruct k as [|z [|z' k]]; cbn in Hk; try discriminate.
      injection Hk as <- _. discriminate.
    - intros ->. discriminate. }
  destruct (s3.CreateMultipartUpload _ _ _) as [init|err].
  2: { injection H as <- <-. symmetry in Hsplit.
       apply Hshort2 in Hsplit; [contradiction | reflexivity..]. }
  destruct (s3.HeadObjectOutput.ContentLength head) as [objectSize|].
  2: { injection H as <- <-. symmetry in Hsplit.
       apply Hshort2 in Hsplit; [contradiction | reflexivity..]. }
  rewrite copyAndComplete_unfold in H.
  destruct (partsSize _ _) as [n|].
  2: { injection H as <- <-. symmetry in Hsplit.
       apply Hshort2 in Hsplit; [contradiction | reflexivity..]. }
  destruct (makeslice_ok n).
  2: { injection H as <- <-. symmetry in Hsplit.
       apply Hshort2 in Hsplit; [contradiction | reflexivity..]. }
  cbn zeta in H.
  destruct (copyParts _ _ _ _ _ _ _ _ _ _) as [loopOut log3] eqn:Hloop.
  assert (Hin : forall rest',
             log3 = l ++ s3.ReqUploadPartCopy input :: rest' ->
             rest' = [] /\ loopOut = Ret (Returned None)).
  { intros rest' Heq.
    destruct (copyParts_log _ _ _ _ _ _ _ _ _ _ _ _ Hloop) as (new & Hnew & _).
    eapply (copyParts_failed_part _ _ _ _ _ _ _ _ _ _ _ _ Hloop); eauto.
    assert (Heq2 : l ++ s3.ReqUploadPartCopy input :: rest'
                   = log ++ headRequest src
                       :: s3.ReqCreateMultipartUpload (createInput dest head)
                       :: new).
    { rewrite <- Heq, Hnew, <- !app_assoc. reflexivity. }
    apply split_after_other in Heq2 as (k & Hl & Hk);
      [| exact Hlen | intros Hx; discriminate Hx].
    destruct k as [|x k]; cbn in Hk.
    - injection Hk as Hk _. discriminate.
    - rewrite Hl, !length_app. cbn. lia. }
  destruct loopOut as [[err|parts]|p|].
  - injection H as <- <-. destruct (Hin _ Hsplit) as [-> Heq].
    injection Heq as ->. auto.
  - injection H as <- <-. symmetry in Hsplit.
    apply split_before_other in Hsplit as (rest' & -> & Heq);
      [|intros ?; discriminate].
    symmetry in Heq. destruct (Hin _ Heq) as [_ Heq']. discriminate.
  - injection H as <- <-. destruct (Hin _ Hsplit) as [_ Heq]. discriminate.
  - injection H as <- <-. destruct (Hin _ Hsplit) as [_ Heq]. discriminate.
Qed.

(** C1.  A 12 MiB object is copied in two parts of 10 MiB; the service
    refuses the second part copy with the error [E].  [copyToMultiPart]
    stops there (the refused request is the last one, the upload is not
    completed), and it returns [nil], not [E]. *)
Theorem copyToMultiPart_part_error_returns_nil :
  let c := NewS3Copier (exampleService (12 * MiB) (quoted "abc123") 2) in
  let run := copyToMultiPart c exampleSrc exampleDest [] in
  let refused :=
    uploadPartCopyInput 2 exampleSrc exampleDest (10 * MiB) (12 * MiB - 1)
      (Some "upload-1") in
  fst run = Ret None
  /\ last (snd run) = Some (s3.ReqUploadPartCopy refused)
  /\ s3.UploadPartCopy (s3client c) (removelast (snd run)) refused = Err "E"
  /\ forallb (fun r => negb (isComplete r)) (snd run) = true.
Proof. vm_compute. repeat split; reflexivity. Qed.

(** ** The planned parts *)

Lemma ceilDiv_bounds (a b : Z) :
  0 < b -> b * ceilDiv a b - b < a <= b * ceilDiv a b.
Proof.
  intros Hb. unfold ceilDiv.
  pose proof (Z.mul_div_le (a + b - 1) b Hb).
  pose proof (Z.mul_succ_div_gt (a + b - 1) b Hb). lia.
Qed.

Lemma below_ceilDiv (a b i : Z) :
  0 < b -> (i < ceilDiv a b <-> i * b < a).
Proof.
  intros Hb. pose proof (ceilDiv_bounds a b Hb). split; intros H'; nia.
Qed.

Lemma partsFrom_unfold (fuel : nat) (objectSize partSize bytePosition partNum : Z) :
  partsFrom (S fuel) objectSize partSize bytePosition partNum
  = if bytePosition <? objectSize then
      option_map
        (cons {| partNumber := partNum;
                 startByte := bytePosition;
                 endByte := lastByteOf objectSize partSize bytePosition |})
        (partsFrom fuel objectSize partSize
           (Int64.add bytePosition partSize) (Int64.add partNum 1))
    else Some [].
Proof. reflexivity. Qed.

Section Planning.

Variables objectSize partSize : Z.
Hypothesis objectSize_pos : 0 < objectSize.
Hypothesis partSize_pos : 0 < partSize.

(** The position after the last part fits [int64]. *)
Hypothesis no_overflow : ceilDiv objectSize partSize * partSize <= Int64.max.

Let N : Z := ceilDiv objectSize partSize.

Lemma planned_count_pos : 1 <= N.
Proof.
  subst N. pose proof (ceilDiv_bounds objectSize partSize partSize_pos).
  nia.
Qed.

Lemma lastByteOf_planned (i : Z) :
  0 <= i < N ->
  lastByteOf objectSize partSize (i * partSize)
  = Z.min ((i + 1) * partSize - 1) (objectSize - 1).
Proof.
  intros Hi. unfold lastByteOf, Int64.add, Int64.sub.
  pose proof (ceilDiv_bounds objectSize partSize partSize_pos) as Hb.
  fold N in Hb. unfold Int64.max in no_overflow. fold N in no_overflow.
  assert (Hnext : 0 < (i + 1) * partSize <= N * partSize) by nia.
  rewrite (wrap_in_range (i * partSize + partSize))
    by (unfold Int64.InRange, Int64.min, Int64.max; lia).
  rewrite (wrap_in_range (i * partSize + partSize - 1))
    by (unfold Int64.InRange, Int64.min, Int64.max; lia).
  rewrite (wrap_in_range (objectSize - 1))
    by (unfold Int64.InRange, Int64.min, Int64.max; lia).
  destruct (Z.gtb_spec (i * partSize + partSize - 1) (objectSize - 1)); lia.
Qed.

Lemma partsFrom_planned (n : nat) :
  forall (i partNum : Z) (fuel : nat),
    0 <= i -> i + Z.of_nat n = N -> (n < fuel)%nat ->
    (n <> 0%nat -> partNum = i + 1) ->
    partsFrom fuel objectSize partSize (i * partSize) partNum
    = Some (map (plannedPart objectSize partSize) (seqZ i (Z.of_nat n))).
Proof.
  pose proof (ceilDiv_bounds objectSize partSize partSize_pos) as Hb.
  fold N in Hb. pose proof no_overflow as Hmax. fold N in Hmax.
  unfold Int64.max in Hmax.
  induction n as [|n IH]; intros i partNum fuel Hi HN Hfuel HpartNum;
    (destruct fuel as [|fuel]; [lia|]); rewrite partsFrom_unfold.
  - destruct (Z.ltb_spec (i * partSize) objectSize) as [Hlt|Hge]; [nia|].
    reflexivity.
  - destruct (Z.ltb_spec (i * partSize) objectSize) as [Hlt|Hge]; [|nia].
    rewrite HpartNum by lia.
    rewrite lastByteOf_planned by lia.
    assert (Hpos : Int64.add (i * partSize) partSize = (i + 1) * partSize).
    { unfold Int64.add. rewrite wrap_in_range; [lia|].
      unfold Int64.InRange, Int64.min, Int64.max. nia. }
    rewrite Hpos, (IH (i + 1)); try lia.
    + rewrite (seqZ_cons i) by lia. cbn [option_map map].
      replace (Z.succ i) with (i + 1) by lia.
      replace (Z.pred (Z.of_nat (S n))) with (Z.of_nat n) by lia.
      reflexivity.
    + intros Hn. unfold Int64.add. rewrite wrap_in_range; [lia|].
      unfold Int64.InRange, Int64.min, Int64.max. nia.
Qed.

(** The plan in closed form. *)
Lemma plannedParts_closed_form (fuel : nat) :
  N < Z.of_nat fuel ->
  plannedParts fuel objectSize partSize
  = Some (map (plannedPart objectSize partSize) (seqZ 0 N)).
Proof.
  intros Hfuel. pose proof planned_count_pos as HN. unfold plannedParts.
  replace 0 with (0 * partSize) at 1 by lia.
  rewrite (partsFrom_planned (Z.to_nat N)); try lia.
  rewrite Z2Nat.id by lia. reflexivity.
Qed.

Lemma planned_lookup (i : nat) (d : PartDescriptor) :
  map (plannedPart objectSize partSize) (seqZ 0 N) !! i = Some d ->
  Z.of_nat i < N /\ d = plannedPart objectSize partSize (Z.of_nat i).
Proof.
  intros H. change (map ?f ?l) with (f <$> l) in H.
  rewrite list_lookup_fmap in H.
  destruct (seqZ 0 N !! i) as [j|] eqn:Hj; [|discriminate].
  apply lookup_seqZ in Hj as [-> Hlt]. cbn in H. injection H as <-.
  auto.
Qed.

Lemma planned_contiguous :
  Contiguous (map (plannedPart objectSize partSize) (seqZ 0 N)).
Proof.
  pose proof (ceilDiv_bounds objectSize partSize partSize_pos) as Hb.
  fold N in Hb.
  intros i d d' Hd Hd'.
  apply planned_lookup in Hd as [Hi ->], Hd' as [Hi' ->].
  cbn [startByte endByte plannedPart]. nia.
Qed.

Lemma planned_non_overlapping :
  NonOverlapping (map (plannedPart objectSize partSize) (seqZ 0 N)).
Proof.
  intros i j d d' Hd Hd' Hij.
  apply planned_lookup in Hd as [Hi ->], Hd' as [Hj ->].
  cbn [startByte endByte plannedPart].
  destruct (Nat.lt_ge_cases i j); [left|right]; nia.
Qed.

Lemma planned_covers :
  Covers (map (plannedPart objectSize partSize) (seqZ 0 N)) objectSize.
Proof.
  pose proof (ceilDiv_bounds objectSize partSize partSize_pos) as Hb.
  fold N in Hb.
  intros b. split.
  - intros Hbyte. exists (plannedPart objectSize partSize (b / partSize)).
    pose proof (Z.mul_div_le b partSize partSize_pos).
    pose proof (Z.mul_succ_div_gt b partSize partSize_pos).
    assert (0 <= b / partSize) by (apply Z.div_pos; lia).
    split.
    + apply in_map, list_elem_of_In, elem_of_seqZ. nia.
    + cbn [startByte endByte plannedPart]. nia.
  - intros (d & Hin & Hrange). apply in_map_iff in Hin as (i & <- & Hin).
    apply list_elem_of_In, elem_of_seqZ in Hin.
    cbn [startByte endByte plannedPart] in Hrange. nia.
Qed.

Lemma planned_last :
  last (map (plannedPart objectSize partSize) (seqZ 0 N))
  = Some (plannedPart objectSize partSize (N - 1))
  /\ endByte (plannedPart objectSize partSize (N - 1)) = objectSize - 1.
Proof.
  pose proof (ceilDiv_bounds objectSize partSize partSize_pos) as Hb.
  fold N in Hb. pose proof planned_count_pos as HN. split.
  - replace N with (Z.of_nat (S (Z.to_nat (N - 1)))) at 1 by lia.
    rewrite seqZ_S, map_app. cbn [map]. rewrite last_snoc.
    do 2 f_equal. lia.
  - cbn [endByte plannedPart]. nia.
Qed.

End Planning.

(** C2, as amended.  For [objectSize > 0] and [partSize > 0] such that
    the position after the last part, [ceil(objectSize/partSize) *
    partSize], fits [int64], the loop plans [ceil(objectSize/partSize)]
    parts, numbered from 1, that are contiguous from byte 0, do not
    overlap, cover exactly [0, objectSize), and the last of which ends at
    byte [objectSize - 1]. *)
Theorem plannedParts_partition (objectSize partSize : Z) (fuel : nat) :
  0 < objectSize -> 0 < partSize ->
  ceilDiv objectSize partSize * partSize <= Int64.max ->
  ceilDiv objectSize partSize < Z.of_nat fuel ->
  exists ds,
    plannedParts fuel objectSize partSize = Some ds
    /\ Z.of_nat (length ds) = ceilDiv objectSize partSize
    /\ map partNumber ds = seqZ 1 (ceilDiv objectSize partSize)
    /\ (exists d, head ds = Some d /\ startByte d = 0)
    /\ Forall (fun d => startByte d <= endByte d) ds
    /\ Contiguous ds
    /\ NonOverlapping ds
    /\ Covers ds objectSize
    /\ (exists d, last ds = Some d /\ endByte d = objectSize - 1).
Proof.
  intros Hos Hps Hmax Hfuel.
  pose proof (planned_count_pos objectSize partSize Hos Hps) as HN.
  pose proof (ceilDiv_bounds objectSize partSize Hps) as Hb.
  eexists. split; [apply plannedParts_closed_form; assumption|].
  split; [rewrite length_map, length_seqZ; lia|].
  split.
  { rewrite map_map. cbn [partNumber plannedPart].
    change (map ?f ?l) with (f <$> l).
    change (seqZ 1 ?n) with (seqZ (1 + 0) n).
    rewrite <- (fmap_add_seqZ 1 0). apply list_fmap_ext. intros; lia. }
  split.
  { rewrite (seqZ_cons 0) by lia. eexists. split; reflexivity. }
  split.
  { apply Forall_forall. intros d Hin.
    apply list_elem_of_In, in_map_iff in Hin as (i & <- & Hin).
    apply list_elem_of_In, elem_of_seqZ in Hin.
    cbn [startByte endByte plannedPart]. nia. }
  split; [apply planned_contiguous; assumption|].
  split; [apply planned_non_overlapping; assumption|].
  split; [apply planned_covers; assumption|].
  eexists. apply planned_last; assumption.
Qed.

Lemma plannedParts_partition_witness :
  exists ds,
    plannedParts 3 (12 * MiB) (10 * MiB) = Some ds
    /\ Z.of_nat (length ds) = ceilDiv (12 * MiB) (10 * MiB)
    /\ map partNumber ds = seqZ 1 (ceilDiv (12 * MiB) (10 * MiB))
    /\ (exists d, head ds = Some d /\ startByte d = 0)
    /\ Forall (fun d => startByte d <= endByte d) ds
    /\ Contiguous ds
    /\ NonOverlapping ds
    /\ Covers ds (12 * MiB)
    /\ (exists d, last ds = Some d /\ endByte d = 12 * MiB - 1).
Proof.
  apply (plannedParts_partition (12 * MiB) (10 * MiB) 3);
    vm_compute; (reflexivity || discriminate).
Defined.

(** Where the position wraps around, the loop does not stop. *)
Lemma partsFrom_wraps_forever (fuel : nat) :
  forall bytePosition partNum,
    bytePosition = 0 \/ bytePosition = 2 ^ 62
    \/ bytePosition = - 2 ^ 63 \/ bytePosition = - 2 ^ 62 ->
    partsFrom fuel Int64.max (2 ^ 62) bytePosition partNum = None.
Proof.
  induction fuel as [|fuel IH]; intros bp pn Hbp; [reflexivity|].
  rewrite partsFrom_unfold.
  assert (Hcond : (bp <? Int64.max) = true).
  { destruct Hbp as [-> | [-> | [-> | ->]]]; reflexivity. }
  rewrite Hcond, IH; [reflexivity|].
  destruct Hbp as [-> | [-> | [-> | ->]]]; vm_compute; auto.
Qed.

(** C2 as stated fails: take [objectSize = 2^63 - 1] and [partSize =
    2^62], both positive [int64] values.  Two parts cover the object, but
    the position after the second part is [2^63], which wraps to
    [-2^63]: the loop condition still holds, a third part copy is sent
    for a range of negative bytes, and (the manifest having two slots)
    the run panics when it stores the third part.  The planning loop by
    itself never ends. *)
Lemma plannedParts_overflow :
  let objectSize := Int64.max in
  let partSize := 2 ^ 62 in
  let c := {| partSize := partSize;
              s3client := exampleService objectSize (quoted "abc123") 0 |} in
  let run := copyToMultiPart c exampleSrc exampleDest [] in
  0 < objectSize /\ 0 < partSize
  /\ ceilDiv objectSize partSize = 2
  /\ Int64.add (Int64.add 0 partSize) partSize = - 2 ^ 63
  /\ (forall fuel, plannedParts fuel objectSize partSize = None)
  /\ partRanges (snd run)
     = ["bytes=0-4611686018427387903";
        "bytes=4611686018427387904-9223372036854775806";
        "bytes=-9223372036854775808--4611686018427387905"]
  /\ fst run = Panic IndexOutOfRange.
Proof.
  intros objectSize partSize c run.
  split; [reflexivity|]. split; [reflexivity|].
  split; [reflexivity|]. split; [reflexivity|].
  split; [intros fuel; apply partsFrom_wraps_forever; auto|].
  split; vm_compute; reflexivity.
Qed.

(** [copyToMultiPart] starts with a metadata fetch and sends no
    [CopyObject]. *)
Lemma copyToMultiPart_log (c : S3Copier) (src dest : S3Object)
    (log : list s3.Request) (out : Outcome (option error))
    (log' : list s3.Request) :
  copyToMultiPart c src dest log = (out, log') ->
  exists new,
    log' = log ++ headRequest src :: new
    /\ Forall (fun r => isCopyObject r = false) new.
Proof.
  intros H. rewrite copyToMultiPart_unfold in H. cbn zeta in H.
  destruct (s3.HeadObject _ _ _) as [head|err].
  2: { injection H as <- <-. exists []. auto. }
  assert (Htwo : exists new,
             (log ++ [headRequest src])
               ++ [s3.ReqCreateMultipartUpload (createInput dest head)]
             = log ++ headRequest src :: new
             /\ Forall (fun r => isCopyObject r = false) new).
  { eexists [_]. rewrite <- app_assoc. split; [reflexivity|].
    repeat constructor. }
  destruct (s3.CreateMultipartUpload _ _ _) as [init|err].
  2: { injection H as <- <-. exact Htwo. }
  destruct (s3.HeadObjectOutput.ContentLength head) as [objectSize|].
  2: { injection H as <- <-. exact Htwo. }
  rewrite copyAndComplete_unfold in H.
  destruct (partsSize _ _) as [n|].
  2: { injection H as <- <-. exact Htwo. }
  destruct (makeslice_ok n).
  2: { injection H as <- <-. exact Htwo. }
  cbn zeta in H.
  destruct (copyParts _ _ _ _ _ _ _ _ _ _) as [loopOut log3] eqn:Hloop.
  destruct (copyParts_log _ _ _ _ _ _ _ _ _ _ _ _ Hloop) as (new & -> & Hnew).
  assert (Hparts : Forall (fun r => isCopyObject r = false) new).
  { eapply Forall_impl; [exact Hnew|]. intros [] Hr; (discriminate || reflexivity). }
  assert (Hthree : exists new',
             ((log ++ [headRequest src])
                ++ [s3.ReqCreateMultipartUpload (createInput dest head)])
               ++ new
             = log ++ headRequest src :: new'
             /\ Forall (fun r => isCopyObject r = false) new').
  { eexists (_ :: new). rewrite <- !app_assoc. split; [reflexivity|].
    constructor; [reflexivity | assumption]. }
  destruct loopOut as [[err|parts]|p|]; injection H as <- <-; try exact Hthree.
  eexists (_ :: new ++ [_]). rewrite <- !app_assoc. split; [reflexivity|].
  constructor; [reflexivity|]. apply Forall_app. split; [assumption|].
  repeat constructor.
Qed.

(** ** CopyTo *)

Lemma CopyTo_unfold (c : S3Copier) (src dest : S3Object)
    (log : list s3.Request) :
  CopyTo c src dest log
  = let log1 := log ++ [headRequest src] in
    match s3.HeadObject (s3client c) log
            (s3.HeadObjectInput.mk (bucket src) (key src)) with
    | Err err => (Ret (Some err), log1)
    | Ok head =>
        let copy (log2 : list s3.Request) :=
          match s3.HeadObjectOutput.ContentLength head with
          | None => (Panic NilDereference, log2)
          | Some objectSize =>
              if objectSize <=? FIVE_MB then copyToSinglePart c src dest log2
              else copyToMultiPart c src dest log2
          end in
        if HasSuffix (key src) ".m3u8" then
          let rewrite_ := ensureContentTypeM3u8Input src in
          let log2 := log1 ++ [s3.ReqCopyObject rewrite_] in
          match s3.CopyObject (s3client c) log1 rewrite_ with
          | Some err => (Ret (Some err), log2)
          | None => copy log2
          end
        else copy log1
    end.
Proof.
  unfold CopyTo. unfold bind at 1. rewrite headObject_unfold. cbn zeta.
  destruct (s3.HeadObject _ _ _) as [head|err]; [|reflexivity].
  destruct (HasSuffix (key src) ".m3u8").
  - unfold bind at 1. unfold ensureContentTypeM3u8, call at 1.
    destruct (s3.CopyObject _ _ _); [reflexivity|].
    unfold bind, deref.
    destruct (s3.HeadObjectOutput.ContentLength head) as [z|]; [|reflexivity].
    unfold ret. destruct (z <=? FIVE_MB); reflexivity.
  - unfold bind, deref.
    destruct (s3.HeadObjectOutput.ContentLength head) as [z|]; [|reflexivity].
    unfold ret. destruct (z <=? FIVE_MB); reflexivity.
Qed.

(** C4.  Once the metadata of the source has been fetched (and, for a
    [.m3u8] key, rewritten), [CopyTo] copies an object of at most
    [FIVE_MB] bytes with one [CopyObject] and nothing else, so that no
    part is ever planned for it (this includes the size [FIVE_MB] itself
    and the size 0); a larger object, from [FIVE_MB + 1] bytes on, is
    handed to [copyToMultiPart], which sends no [CopyObject]. *)
Theorem CopyTo_strategy (c : S3Copier) (src dest : S3Object)
    (log : list s3.Request) (head : s3.HeadObjectOutput.t) (objectSize : Z) :
  s3.HeadObject (s3client c) log
    (s3.HeadObjectInput.mk (bucket src) (key src)) = Ok head ->
  s3.HeadObjectOutput.ContentLength head = Some objectSize ->
  (HasSuffix (key src) ".m3u8" = true ->
   s3.CopyObject (s3client c) (log ++ [headRequest src])
     (ensureContentTypeM3u8Input src) = None) ->
  let log2 := log ++ selectorRequests src in
  (objectSize <= FIVE_MB ->
   CopyTo c src dest log
   = (Ret (s3.CopyObject (s3client c) log2 (copyToSinglePartInput src dest)),
      log2 ++ [s3.ReqCopyObject (copyToSinglePartInput src dest)]))
  /\ (FIVE_MB < objectSize ->
      CopyTo c src dest log = copyToMultiPart c src dest log2
      /\ exists new,
           snd (CopyTo c src dest log) = log2 ++ headRequest src :: new
           /\ Forall (fun r => isCopyObject r = false) new).
Proof.
  intros Hhead Hsize Hrewrite log2.
  assert (Hcopy : CopyTo c src dest log
                  = if objectSize <=? FIVE_MB
                    then copyToSinglePart c src dest log2
                    else copyToMultiPart c src dest log2).
  { rewrite CopyTo_unfold. cbn zeta. rewrite Hhead, Hsize.
    subst log2. unfold selectorRequests.
    destruct (HasSuffix (key src) ".m3u8").
    - rewrite Hrewrite by reflexivity.
      change (log ++ [headRequest src; ?r])
        with (log ++ [headRequest src] ++ [r]).
      rewrite app_assoc. reflexivity.
    - reflexivity. }
  split; intros Hcmp; rewrite Hcopy.
  - destruct (Z.leb_spec objectSize FIVE_MB); [reflexivity | lia].
  - destruct (Z.leb_spec objectSize FIVE_MB); [lia|].
    split; [reflexivity|].
    destruct (copyToMultiPart c src dest log2) as [out log'] eqn:Hrun.
    apply copyToMultiPart_log in Hrun. exact Hrun.
Qed.

(** The boundary of C4 on a service that holds objects of the given
    size: [FIVE_MB] bytes and 0 bytes are copied in one request,
    [FIVE_MB + 1] bytes through [copyToMultiPart]. *)
Lemma CopyTo_strategy_witness :
  (forall size, size = FIVE_MB \/ size = 0 ->
     CopyTo (NewS3Copier (exampleService size (quoted "abc123") 0))
       exampleSrc exampleDest []
     = (Ret None,
        [headRequest exampleSrc;
         s3.ReqCopyObject (copyToSinglePartInput exampleSrc exampleDest)]))
  /\ (let c := NewS3Copier
                 (exampleService (FIVE_MB + 1) (quoted "abc123") 0) in
      CopyTo c exampleSrc exampleDest []
      = copyToMultiPart c exampleSrc exampleDest [headRequest exampleSrc]).
Proof.
  split.
  - intros size Hsize.
    refine (proj1 (CopyTo_strategy
                     (NewS3Copier (exampleService size (quoted "abc123") 0))
                     exampleSrc exampleDest []
                     (s3.HeadObjectOutput.mk (Some size) (Some "video/mp2t") [])
                     size eq_refl eq_refl _) _).
    + intros H. vm_compute in H. discriminate H.
    + destruct Hsize as [-> | ->]; vm_compute; discriminate.
  - intros c.
    refine (proj1 (proj2 (CopyTo_strategy c exampleSrc exampleDest []
                     (s3.HeadObjectOutput.mk (Some (FIVE_MB + 1))
                        (Some "video/mp2t") [])
                     (FIVE_MB + 1) eq_refl eq_refl _) _)).
    + intros H. vm_compute in H. discriminate H.
    + vm_compute. reflexivity.
Defined.

(** The single-shot copy is not a rewrite. *)
Lemma copyToSinglePart_not_rewrite (src dest : S3Object) :
  isRewrite (s3.ReqCopyObject (copyToSinglePartInput src dest)) = false.
Proof. reflexivity. Qed.

Lemma ensureContentTypeM3u8_is_rewrite (src : S3Object) :
  let input := ensureContentTypeM3u8Input src in
  isRewrite (s3.ReqCopyObject input) = true
  /\ s3.CopyObjectInput.Bucket input = bucket src
  /\ s3.CopyObjectInput.Key input = key src
  /\ s3.CopyObjectInput.CopySource input = bucketKeyPath src
  /\ s3.CopyObjectInput.ContentType input = Some "application/vnd.apple.mpegurl".
Proof. repeat split; reflexivity. Qed.

Lemma not_CopyObject_not_rewrite (new : list s3.Request) :
  Forall (fun r => isCopyObject r = false) new ->
  Forall (fun r => isRewrite r = false) new.
Proof.
  intros H. eapply Forall_impl; [exact H|].
  intros [] Hr; (discriminate Hr || reflexivity).
Qed.


(** ** The stored eTag *)

(** C5, as amended.  When a part copy returns an eTag of at least two
    bytes, the Completed Part stored in slot [partNum-1] carries the eTag
    without its first and its last byte, whatever these two bytes are;
    for a token between quotes this is the token without the quotes. *)
Theorem copyParts_stores_stripped_etag (fuel : nat) (c : S3Copier)
    (src dest : S3Object) (uploadId : option string)
    (objectSize bytePosition partNum : Z)
    (completedParts : list (option s3.CompletedPart.t))
    (log : list s3.Request) (first last : ascii) (token : string) :
  let input :=
    uploadPartCopyInput partNum src dest bytePosition
      (lastByteOf objectSize (partSize c) bytePosition) uploadId in
  let etag := String first (String.append token (String last EmptyString)) in
  bytePosition < objectSize ->
  s3.UploadPartCopy (s3client c) log input
  = Ok (s3.UploadPartCopyOutput.mk (Some (s3.CopyPartResult.mk (Some etag)))) ->
  0 <= Int64.sub partNum 1 < Z.of_nat (length completedParts) ->
  copyParts (S fuel) c src dest uploadId objectSize bytePosition partNum
    completedParts log
  = copyParts fuel c src dest uploadId objectSize
      (Int64.add bytePosition (partSize c)) (Int64.add partNum 1)
      (<[Z.to_nat (Int64.sub partNum 1) :=
           Some (s3.CompletedPart.mk token partNum)]> completedParts)
      (log ++ [s3.ReqUploadPartCopy input]).
Proof.
  intros input etag Hcond Hcall Hidx.
  rewrite copyParts_unfold. cbn zeta. fold input.
  destruct (Z.ltb_spec bytePosition objectSize); [|lia].
  rewrite Hcall. cbn [s3.UploadPartCopyOutput.CopyPartResult s3.CopyPartResult.ETag].
  subst etag. rewrite stripQuotes_middle.
  destruct (Z.leb_spec 0 (Int64.sub partNum 1)); [|lia].
  destruct (Z.ltb_spec (Int64.sub partNum 1) (Z.of_nat (length completedParts)));
    [|lia].
  reflexivity.
Qed.

Lemma copyParts_stores_stripped_etag_witness :
  let c := NewS3Copier (exampleService (12 * MiB) (quoted "abc123") 0) in
  let input :=
    uploadPartCopyInput 1 exampleSrc exampleDest 0 (10 * MiB - 1)
      (Some "upload-1") in
  copyParts 3 c exampleSrc exampleDest (Some "upload-1") (12 * MiB) 0 1
    [None; None] []
  = copyParts 2 c exampleSrc exampleDest (Some "upload-1") (12 * MiB)
      (10 * MiB) 2
      [Some (s3.CompletedPart.mk "abc123" 1); None]
      [s3.ReqUploadPartCopy input].
Proof.
  intros c input.
  refine (copyParts_stores_stripped_etag 2 c exampleSrc exampleDest
            (Some "upload-1") (12 * MiB) 0 1 [None; None] []
            quote quote "abc123" _ _ _).
  - reflexivity.
  - reflexivity.
  - vm_compute. split; [discriminate | reflexivity].
Defined.

(** C5 as stated fails for a token without quotes: the service returns
    the eTag [abc123] for both parts of a 12 MiB object, and the
    Completed Parts of the manifest carry [bc12]. *)
Lemma unquoted_etag_is_cut :
  let c := NewS3Copier (exampleService (12 * MiB) "abc123" 0) in
  stripQuotes "abc123" = Some "bc12"
  /\ exists input,
       last (snd (copyToMultiPart c exampleSrc exampleDest []))
       = Some (s3.ReqCompleteMultipartUpload input)
       /\ s3.CompletedMultipartUpload.Parts
            (s3.CompleteMultipartUploadInput.MultipartUpload input)
          = [Some (s3.CompletedPart.mk "bc12" 1);
             Some (s3.CompletedPart.mk "bc12" 2)]
       /\ "bc12" <> "abc123".
Proof.
  intros c. split; [reflexivity|].
  eexists. split; [vm_compute; reflexivity|].
  split; [reflexivity | discriminate].
Qed.

(** A short eTag stops the loop with a panic. *)
Lemma copyParts_short_etag_panics (fuel : nat) (c : S3Copier)
    (src dest : S3Object) (uploadId : option string)
    (objectSize bytePosition partNum : Z)
    (completedParts : list (option s3.CompletedPart.t))
    (log : list s3.Request) (etag : string) :
  let input :=
    uploadPartCopyInput partNum src dest bytePosition
      (lastByteOf objectSize (partSize c) bytePosition) uploadId in
  bytePosition < objectSize ->
  s3.UploadPartCopy (s3client c) log input
  = Ok (s3.UploadPartCopyOutput.mk (Some (s3.CopyPartResult.mk (Some etag)))) ->
  len etag < 2 ->
  copyParts (S fuel) c src dest uploadId objectSize bytePosition partNum
    completedParts log
  = (Panic SliceBoundsOutOfRange, log ++ [s3.ReqUploadPartCopy input]).
Proof.
  intros input Hcond Hcall Hlen.
  rewrite copyParts_unfold. cbn zeta. fold input.
  destruct (Z.ltb_spec bytePosition objectSize); [|lia].
  rewrite Hcall. cbn [s3.UploadPartCopyOutput.CopyPartResult s3.CopyPartResult.ETag].
  rewrite stripQuotes_short by assumption. reflexivity.
Qed.

(** ** Runs of the loop that reach its end *)

Lemma index_in_range (partNum : Z) (n : nat) :
  Int64.InRange partNum -> Z.of_nat n <= Int64.max ->
  (0 <=? Int64.sub partNum 1) && (Int64.sub partNum 1 <? Z.of_nat n) = true ->
  1 <= partNum <= Z.of_nat n /\ Int64.sub partNum 1 = partNum - 1.
Proof.
  unfold Int64.InRange, Int64.sub. intros Hpn Hn Hidx.
  apply andb_true_iff in Hidx as [H0 Hlt].
  apply Z.leb_le in H0. apply Z.ltb_lt in Hlt.
  destruct (Z.eq_dec partNum Int64.min) as [-> | Hne].
  - exfalso. revert H0 Hlt Hn. unfold Int64.max.
    change (Int64.wrap (Int64.min - 1)) with (2 ^ 63 - 1). lia.
  - rewrite wrap_in_range in *
      by (unfold Int64.InRange, Int64.min, Int64.max in *; lia).
    lia.
Qed.

(** A run of the loop that ends by its condition has sent the planned
    requests, numbered consecutively from [partNum], and has filled the
    slots from [partNum-1] on, one per request and in that order. *)
Lemma copyParts_finished (fuel : nat) (c : S3Copier) (src dest : S3Object)
    (uploadId : option string) (objectSize : Z) :
  forall bytePosition partNum completedParts log completedParts' log',
    Int64.InRange partNum ->
    Z.of_nat (length completedParts) <= Int64.max ->
    copyParts fuel c src dest uploadId objectSize bytePosition partNum
      completedParts log = (Ret (Finished completedParts'), log') ->
    exists (ds : list PartDescriptor) (cps : list s3.CompletedPart.t),
      partsFrom fuel objectSize (partSize c) bytePosition partNum = Some ds
      /\ log' = log ++ map (partRequest src dest uploadId) ds
      /\ map partNumber ds = seqZ partNum (Z.of_nat (length ds))
      /\ map s3.CompletedPart.PartNumber cps = map partNumber ds
      /\ completedParts'
         = list_inserts (Z.to_nat (partNum - 1)) (map Some cps) completedParts
      /\ (ds = [] \/
          1 <= partNum
          /\ partNum - 1 + Z.of_nat (length ds)
             <= Z.of_nat (length completedParts)).
Proof.
  induction fuel as [|fuel IH];
    intros bp pn parts log parts' log' Hpn Hlen H; [discriminate|].
  rewrite partsFrom_unfold. copyParts_cases H; rewrite Hcond; try discriminate.
  - apply index_in_range in Hidx as [Hrange Hsub]; [|assumption..].
    rewrite Hsub in H.
    apply IH in H as (ds & cps & Hplan & -> & Hnums & Hcps & -> & Hfit);
      [| apply wrap_range | rewrite length_insert; assumption].
    rewrite length_insert in Hfit.
    rewrite Hplan. cbn [option_map].
    exists ({| partNumber := pn; startByte := bp;
               endByte := lastByteOf objectSize (partSize c) bp |} :: ds),
           (s3.CompletedPart.mk tag pn :: cps).
    split; [reflexivity|].
    split; [rewrite <- app_assoc; reflexivity|].
    assert (Hnext : ds = [] \/ Int64.add pn 1 = pn + 1).
    { destruct Hfit as [-> | [Hone Hfit]]; [auto|]. right.
      unfold Int64.add. unfold Int64.InRange in Hpn.
      destruct (Z.eq_dec pn Int64.max) as [-> | Hne].
      - exfalso. revert Hone. vm_compute. intros Hc. apply Hc. reflexivity.
      - apply wrap_in_range. unfold Int64.InRange. lia. }
    split.
    { cbn [map length partNumber]. rewrite (seqZ_cons pn) by lia.
      f_equal. rewrite Hnums.
      destruct Hnext as [-> | ->]; [reflexivity|].
      f_equal; lia. }
    split.
    { cbn [map s3.CompletedPart.PartNumber partNumber]. f_equal. exact Hcps. }
    split.
    { cbn [map list_inserts].
      destruct Hnext as [-> | Hnext].
      - destruct cps; [|discriminate]. reflexivity.
      - rewrite Hnext.
        replace (Z.to_nat (pn + 1 - 1)) with (S (Z.to_nat (pn - 1))) by lia.
        rewrite list_insert_inserts_lt by lia. reflexivity. }
    right. split; [lia|]. cbn [length].
    destruct Hfit as [-> | [Hone Hfit]]; [cbn [length]; lia|].
    destruct Hnext as [-> | Hnext]; [cbn [length]; lia|]. lia.
  - injection H as <- <-. exists [], []. cbn. rewrite app_nil_r. auto 10.
Qed.

(** The loop ends within [len(completedParts) + 1] iterations. *)
Lemma copyParts_no_timeout (fuel : nat) (c : S3Copier) (src dest : S3Object)
    (uploadId : option string) (objectSize : Z) :
  forall bytePosition partNum completedParts log,
    Int64.InRange partNum ->
    Z.of_nat (length completedParts) <= Int64.max ->
    (1 <= fuel)%nat ->
    (1 <= partNum ->
     Z.of_nat (length completedParts) + 1 - partNum < Z.of_nat fuel) ->
    fst (copyParts fuel c src dest uploadId objectSize bytePosition partNum
           completedParts log) <> Timeout.
Proof.
  induction fuel as [|fuel IH]; intros bp pn parts log Hpn Hlen Hone Hfuel;
    [lia|].
  destruct (copyParts (S fuel) c src dest uploadId objectSize bp pn parts log)
    as [out log'] eqn:H.
  copyParts_cases H; try (injection H as <- <-; discriminate).
  apply index_in_range in Hidx as [Hrange Hsub]; [|assumption..].
  change out with (fst (out, log')). rewrite <- H.
  specialize (Hfuel ltac:(lia)).
  apply IH; [apply wrap_range | rewrite length_insert; assumption | lia |].
  rewrite length_insert.
  unfold Int64.add. unfold Int64.InRange in Hpn.
  destruct (Z.eq_dec pn Int64.max) as [-> | Hne].
  - intros Hc. exfalso. revert Hc. vm_compute. intros Hc. apply Hc. reflexivity.
  - rewrite wrap_in_range by (unfold Int64.InRange; lia). lia.
Qed.

(** ** float64: the ceiling of a quotient of integers below 2^53 *)

Lemma digits_pos p : 1 <= digits p.
Proof. unfold digits. lia. Qed.

Lemma digits_bounds (p : positive) :
  2 ^ (digits p - 1) <= Z.pos p < 2 ^ digits p.
Proof.
  unfold digits. induction p as [p IH|p IH|]; cbn [digits2_pos].
  - rewrite Pos2Z.inj_succ.
    replace (Z.succ (Z.pos (digits2_pos p)) - 1) with (Z.succ (Z.pos (digits2_pos p) - 1)) by lia.
    rewrite !Z.pow_succ_r by lia. lia.
  - rewrite Pos2Z.inj_succ.
    replace (Z.succ (Z.pos (digits2_pos p)) - 1) with (Z.succ (Z.pos (digits2_pos p) - 1)) by lia.
    rewrite !Z.pow_succ_r by lia. lia.
  - cbn. lia.
Qed.

Lemma digits_unique (p : positive) (d : Z) :
  2 ^ (d - 1) <= Z.pos p < 2 ^ d -> digits p = d.
Proof.
  intros [Hlo Hhi]. pose proof (digits_bounds p) as [Hlo' Hhi'].
  pose proof (digits_pos p).
  assert (0 < d).
  { destruct (Z_lt_le_dec 0 d); [assumption|].
    exfalso. destruct (Z.eq_dec d 0) as [->|]; [cbn in Hhi; lia|].
    rewrite Z.pow_neg_r in Hhi by lia. lia. }
  destruct (Z.lt_trichotomy (digits p) d) as [Hlt | [Heq | Hgt]]; [|assumption|].
  - exfalso. assert (2 ^ digits p <= 2 ^ (d - 1)) by (apply Z.pow_le_mono_r; lia). lia.
  - exfalso. assert (2 ^ d <= 2 ^ (digits p - 1)) by (apply Z.pow_le_mono_r; lia). lia.
Qed.

Lemma iter_xO (m k : positive) :
  Z.pos (Pos.iter xO m k) = Z.pos m * 2 ^ Z.pos k.
Proof.
  change (Pos.iter xO m k) with (shift_pos k m).
  rewrite shift_pos_correct. change (Z.pow_pos 2 k) with (2 ^ Z.pos k). lia.
Qed.


Lemma fexp_normal (e : Z) : -1021 <= e -> fexp Float64.prec Float64.emax e = e - 53.
Proof. unfold fexp, emin, Float64.prec, Float64.emax. lia. Qed.

Lemma binary_round_aux_canonical (s : bool) (m : positive) (e : Z) :
  digits m = 53 -> -1074 <= e <= 971 ->
  binary_round_aux Float64.prec Float64.emax s (Z.pos m) e loc_Exact = S754_finite s m e.
Proof.
  intros Hd He. unfold binary_round_aux.
  assert (Hshr : forall l, shr_fexp Float64.prec Float64.emax (Z.pos m) e l = (shr_record_of_loc (Z.pos m) l, e)).
  { intros l. unfold shr_fexp. cbn [Zdigits2]. fold (digits m). rewrite Hd.
    rewrite fexp_normal by lia. replace (53 + e - 53 - e) with 0 by lia. reflexivity. }
  rewrite Hshr. cbn [shr_record_of_loc shr_m loc_of_shr_record round_nearest_even].
  rewrite Hshr. cbn [shr_record_of_loc shr_m].
  destruct (Z.leb_spec e (Float64.emax - Float64.prec)); [reflexivity|]. unfold Float64.emax, Float64.prec in *. lia.
Qed.

Lemma of_int_small (a : positive) :
  Z.pos a < 2 ^ 53 ->
  exists m, binary_normalize Float64.prec Float64.emax (Z.pos a) 0 false = S754_finite false m (digits a - 53)
            /\ Z.pos m = Z.pos a * 2 ^ (53 - digits a) /\ digits m = 53.
Proof.
  intros Ha. pose proof (digits_bounds a) as [Hlo Hhi]. pose proof (digits_pos a).
  assert (Hd : digits a <= 53).
  { destruct (Z_le_gt_dec (digits a) 53); [assumption|].
    exfalso. assert (2 ^ 53 <= 2 ^ (digits a - 1)) by (apply Z.pow_le_mono_r; lia). lia. }
  cbn [binary_normalize]. unfold binary_round.
  change (Z.pos (digits2_pos a)) with (digits a).
  rewrite Z.add_0_r, fexp_normal by lia.
  unfold shl_align.
  destruct (digits a - 53 - 0) as [|k|k] eqn:Hk; try lia.
  - exists a. replace (digits a - 53) with 0 by lia. replace (53 - digits a) with 0 by lia.
    rewrite binary_round_aux_canonical by lia. split; [reflexivity|]. split; lia.
  - exists (Pos.iter xO a k).
    assert (Hm : Z.pos (Pos.iter xO a k) = Z.pos a * 2 ^ (53 - digits a)).
    { rewrite iter_xO. f_equal. f_equal. lia. }
    assert (Hdm : digits (Pos.iter xO a k) = 53).
    { apply digits_unique. rewrite Hm.
      replace (2 ^ (53 - 1)) with (2 ^ (digits a - 1) * 2 ^ (53 - digits a)).
      2: { rewrite <- Z.pow_add_r by lia. f_equal. lia. }
      replace (2 ^ 53) with (2 ^ (digits a) * 2 ^ (53 - digits a)).
      2: { rewrite <- Z.pow_add_r by lia. f_equal. lia. }
      assert (0 < 2 ^ (53 - digits a)) by (apply Z.pow_pos_nonneg; lia).
      nia. }
    rewrite binary_round_aux_canonical by lia. auto.
Qed.


Lemma loc_roundtrip (m : Z) (l : location) :
  loc_of_shr_record (shr_record_of_loc m l) = l
  /\ shr_m (shr_record_of_loc m l) = m.
Proof. destruct l as [|[]]; split; reflexivity. Qed.

Lemma shr_fexp_53 (m : positive) (e : Z) (l : location) :
  digits m = 53 -> -1074 <= e ->
  shr_fexp Float64.prec Float64.emax (Z.pos m) e l = (shr_record_of_loc (Z.pos m) l, e).
Proof.
  intros Hd He. unfold shr_fexp. cbn [Zdigits2]. fold (digits m). rewrite Hd.
  rewrite fexp_normal by lia. replace (53 + e - 53 - e) with 0 by lia. reflexivity.
Qed.

Lemma shr_fexp_54 (m : positive) (e : Z) (l : location) :
  digits m = 54 -> -1075 <= e ->
  shr_fexp Float64.prec Float64.emax (Z.pos m) e l = (shr_1 (shr_record_of_loc (Z.pos m) l), e + 1).
Proof.
  intros Hd He. unfold shr_fexp. cbn [Zdigits2]. fold (digits m). rewrite Hd.
  rewrite fexp_normal by lia. replace (54 + e - 53 - e) with 1 by lia. reflexivity.
Qed.

Lemma rne_bounds (m : Z) (l : location) :
  m <= round_nearest_even m l <= m + 1
  /\ (l = loc_Exact -> round_nearest_even m l = m).
Proof.
  destruct l as [|[]]; cbn [round_nearest_even];
    try destruct (Z.even m); split; try lia; try discriminate; auto.
Qed.

(** Halving a record. *)
Lemma div2_odd (z : Z) : (2 * z + 1) / 2 = z.
Proof. symmetry. apply (Z.div_unique _ _ _ 1); lia. Qed.

Lemma div2_even (z : Z) : (2 * z) / 2 = z.
Proof. symmetry. apply (Z.div_unique _ _ _ 0); lia. Qed.

Lemma shr_1_spec (m : positive) (l : location) :
  let mrs := shr_1 (shr_record_of_loc (Z.pos m) l) in
  shr_m mrs = Z.pos m / 2
  /\ (Z.even (Z.pos m) = true -> round_nearest_even (shr_m mrs) (loc_of_shr_record mrs) = Z.pos m / 2)
  /\ (Z.even (Z.pos m) = false -> l <> loc_Exact ->
      round_nearest_even (shr_m mrs) (loc_of_shr_record mrs) = Z.pos m / 2 + 1).
Proof.
  destruct m as [p|p|].
  - rewrite Pos2Z.inj_xI, (div2_odd (Z.pos p)).
    destruct l as [|[]];
      cbn [shr_record_of_loc shr_1 shr_m orb loc_of_shr_record
           round_nearest_even Z.even];
      repeat split; intros; try discriminate; try congruence; try reflexivity.
  - rewrite Pos2Z.inj_xO, (div2_even (Z.pos p)).
    destruct l as [|[]];
      cbn [shr_record_of_loc shr_1 shr_m orb loc_of_shr_record
           round_nearest_even Z.even];
      repeat split; intros; try discriminate; try congruence; try reflexivity.
  - destruct l as [|[]]; cbn; repeat split; intros; try discriminate;
      try congruence; try reflexivity.
Qed.


(** The last step of rounding: a mantissa that reached [2^53] is halved. *)
Lemma renormalize (s : bool) (m2 : Z) (e : Z) :
  2 ^ 52 <= m2 <= 2 ^ 53 -> -1074 <= e <= 960 ->
  exists M E,
    (let '(mrs, e') := shr_fexp Float64.prec Float64.emax m2 e loc_Exact in
     match shr_m mrs with
     | Z0 => S754_zero s
     | Z.pos m => if e' <=? Float64.emax - Float64.prec then S754_finite s m e' else S754_infinity s
     | Z.neg _ => S754_nan
     end) = S754_finite s M E
    /\ Z.pos M * 2 ^ (E - e) = m2 /\ e <= E <= e + 1.
Proof.
  intros Hm He. destruct m2 as [|m|m]; try lia.
  destruct (Z.eq_dec (Z.pos m) (2 ^ 53)) as [Heq | Hne].
  - injection Heq as ->. rewrite shr_fexp_54; [|reflexivity | lia].
    cbn [shr_record_of_loc shr_1 shr_m].
    destruct (Z.leb_spec (e + 1) (Float64.emax - Float64.prec)); [|unfold Float64.emax, Float64.prec in *; lia].
    eexists _, _. split; [reflexivity|].
    replace (e + 1 - e) with 1 by lia. split; [reflexivity | lia].
  - assert (Hd : digits m = 53) by (apply digits_unique; lia).
    rewrite shr_fexp_53 by (assumption || lia).
    cbn [shr_record_of_loc shr_m].
    destruct (Z.leb_spec e (Float64.emax - Float64.prec)); [|unfold Float64.emax, Float64.prec in *; lia].
    exists m, e. split; [reflexivity|]. rewrite Z.sub_diag. split; lia.
Qed.

Lemma binary_round_aux_spec (q : positive) (e : Z) (l : location) :
  digits q = 53 \/ digits q = 54 -> -1074 <= e <= 950 ->
  exists M E,
    binary_round_aux Float64.prec Float64.emax false (Z.pos q) e l = S754_finite false M E
    /\ Z.pos M * 2 ^ (E - e) = roundedUnits q l /\ e <= E <= e + 2.
Proof.
  intros Hd He. unfold binary_round_aux, roundedUnits.
  pose proof (digits_bounds q) as Hq.
  destruct Hd as [Hd | Hd]; rewrite Hd in *.
  - rewrite shr_fexp_53 by (assumption || lia).
    destruct (loc_roundtrip (Z.pos q) l) as [-> ->].
    pose proof (rne_bounds (Z.pos q) l) as [Hr _].
    change (53 - 1) with 52 in Hq.
    destruct (renormalize false (round_nearest_even (Z.pos q) l) e)
      as (M & E & Heq & Hval & HE); [lia | lia |].
    exists M, E. cbn [Z.eqb Pos.eqb]. split; [exact Heq|]. split; [exact Hval | lia].
  - rewrite shr_fexp_54 by (assumption || lia).
    destruct (shr_1_spec q l) as (Hm & Heven & Hodd).
    cbv zeta in Hm, Heven, Hodd.
    set (mrs := shr_1 (shr_record_of_loc (Z.pos q) l)) in *.
    pose proof (rne_bounds (shr_m mrs) (loc_of_shr_record mrs)) as [Hr _].
    change (54 - 1) with 53 in Hq.
    assert (Hhalf : 2 ^ 52 <= Z.pos q / 2 < 2 ^ 53).
    { split.
      - apply Z.div_le_lower_bound; lia.
      - apply Z.div_lt_upper_bound; lia. }
    destruct (renormalize false (round_nearest_even (shr_m mrs) (loc_of_shr_record mrs)) (e + 1))
      as (M & E & Heq & Hval & HE); [lia | lia |].
    exists M, E. cbn [Z.eqb Pos.eqb]. split; [exact Heq|]. split; [|lia].
    rewrite <- Hval. replace (E - e) with (1 + (E - (e + 1))) by lia.
    rewrite Z.pow_add_r by lia. change (2 ^ 1) with 2. lia.
Qed.

Lemma div_eucl_div_mod (a b : Z) : Z.div_eucl a b = (a / b, a mod b).
Proof. unfold Z.div, Z.modulo. destruct (Z.div_eucl a b); reflexivity. Qed.

Lemma new_location_exact (n k : Z) : new_location n k = loc_Exact <-> k = 0.
Proof.
  unfold new_location, new_location_even, new_location_odd.
  destruct (Z.even n); destruct (Z.eqb_spec k 0); split; intros H; try easy.
Qed.

Lemma SFdiv_normal (m1 m2 : positive) (e1 e2 : Z) :
  digits m1 = 53 -> digits m2 = 53 -> -52 <= e1 - e2 <= 52 ->
  SFdiv Float64.prec Float64.emax (S754_finite false m1 e1) (S754_finite false m2 e2)
  = binary_round_aux Float64.prec Float64.emax false (Z.pos m1 * 2 ^ 53 / Z.pos m2)
      (e1 - e2 - 53)
      (new_location (Z.pos m2) ((Z.pos m1 * 2 ^ 53) mod Z.pos m2)).
Proof.
  intros H1 H2 He. cbn [SFdiv xorb]. unfold SFdiv_core_binary.
  cbn [Zdigits2]. fold (digits m1) (digits m2). rewrite H1, H2.
  replace (53 + e1 - (53 + e2)) with (e1 - e2) by lia.
  rewrite fexp_normal by lia.
  rewrite Z.min_l by lia.
  replace (e1 - e2 - (e1 - e2 - 53)) with 53 by lia.
  cbv zeta. rewrite Z.shiftl_mul_pow2 by lia.
  rewrite div_eucl_div_mod. reflexivity.
Qed.


Lemma roundedUnits_bounds (q : positive) (l : location) (lo2 hi2 : Z) :
  digits q = 53 \/ digits q = 54 ->
  2 * lo2 + 1 <= Z.pos q <= 2 * hi2 ->
  (Z.pos q = 2 * hi2 -> l = loc_Exact) ->
  (Z.pos q = 2 * lo2 + 1 -> l <> loc_Exact) ->
  2 * lo2 < roundedUnits q l <= 2 * hi2.
Proof.
  intros Hd Hq Hhi Hlo. unfold roundedUnits.
  destruct Hd as [Hd | Hd]; rewrite Hd; cbn [Z.eqb Pos.eqb].
  - pose proof (rne_bounds (Z.pos q) l) as [Hr Hex].
    destruct (Z.eq_dec (Z.pos q) (2 * hi2)) as [Heq | Hne].
    + rewrite (Hex (Hhi Heq)). lia.
    + lia.
  - destruct (shr_1_spec q l) as (Hm & Heven & Hodd).
    cbv zeta in Hm, Heven, Hodd.
    set (mrs := shr_1 (shr_record_of_loc (Z.pos q) l)) in *.
    pose proof (rne_bounds (shr_m mrs) (loc_of_shr_record mrs)) as [Hr _].
    destruct (Z.even (Z.pos q)) eqn:Hpar.
    + rewrite (Heven eq_refl). apply Z.even_spec in Hpar as [h Hh].
      rewrite Hh, div2_even. lia.
    + assert (Hodd' : Z.odd (Z.pos q) = true) by (rewrite <- Z.negb_even, Hpar; reflexivity).
      apply Z.odd_spec in Hodd' as [h Hh].
      destruct (Z.eq_dec (Z.pos q) (2 * lo2 + 1)) as [Heq | Hne].
      * rewrite (Hodd eq_refl (Hlo Heq)). rewrite Hh, div2_odd. lia.
      * assert (Hhalf : Z.pos q / 2 = h) by (rewrite Hh; apply div2_odd).
        lia.
Qed.


Lemma to_int_of_int (n : positive) :
  Z.pos n < 2 ^ 53 ->
  Float64.to_int (Float64.of_int (Z.pos n)) = Some (Z.pos n).
Proof.
  intros Hn. unfold Float64.of_int.
  destruct (of_int_small n Hn) as (m & Heq & Hval & Hd).
  rewrite Heq.
  pose proof (digits_pos n). pose proof (digits_bounds n) as [Hlo Hhi].
  assert (Hdn : digits n <= 53).
  { destruct (Z_le_gt_dec (digits n) 53); [assumption|].
    exfalso. assert (2 ^ 53 <= 2 ^ (digits n - 1)) by (apply Z.pow_le_mono_r; lia). lia. }
  cbn [Float64.to_int Float64.mantissa]. cbv zeta.
  assert (Hv : (if 0 <=? digits n - 53 then Z.pos m * 2 ^ (digits n - 53)
                else Z.quot (Z.pos m) (2 ^ (- (digits n - 53)))) = Z.pos n).
  { destruct (Z.leb_spec 0 (digits n - 53)).
    - assert (Hz : digits n = 53) by lia. rewrite Hval, Hz.
      change (2 ^ (53 - 53)) with 1. lia.
    - rewrite Hval. replace (- (digits n - 53)) with (53 - digits n) by lia.
      apply Z.quot_mul. apply Z.pow_nonzero; lia. }
  rewrite Hv.
  destruct (Z.leb_spec Int64.min (Z.pos n)); [|unfold Int64.min in *; lia].
  destruct (Z.leb_spec (Z.pos n) Int64.max); [reflexivity|].
  unfold Int64.max in *. lia.
Qed.

Lemma Ceil_finite (M : positive) (E N : Z) :
  0 < N ->
  (0 <= E -> Z.pos M * 2 ^ E = N) ->
  (E < 0 -> (N - 1) * 2 ^ (- E) < Z.pos M <= N * 2 ^ (- E)) ->
  Float64.Ceil (S754_finite false M E) = Float64.of_int N.
Proof.
  intros HN Hpos Hneg. cbn [Float64.Ceil Float64.mantissa]. cbv zeta.
  assert (Hc : (if 0 <=? E then Z.pos M * 2 ^ E
                else - (- Z.pos M / 2 ^ (- E))) = N).
  { destruct (Z.leb_spec 0 E) as [HE | HE]; [auto|].
    specialize (Hneg HE).
    assert (HT : 0 < 2 ^ (- E)) by (apply Z.pow_pos_nonneg; lia).
    assert (Hq : - N = - Z.pos M / 2 ^ (- E)).
    { apply (Z.div_unique _ _ _ (N * 2 ^ (- E) - Z.pos M)); lia. }
    lia. }
  rewrite Hc. destruct (Z.eqb_spec N 0); [lia | reflexivity].
Qed.


Lemma digits_le_53 (p : positive) : Z.pos p < 2 ^ 53 -> 1 <= digits p <= 53.
Proof.
  intros Hp. pose proof (digits_pos p). pose proof (digits_bounds p) as [Hlo _].
  split; [assumption|].
  destruct (Z_le_gt_dec (digits p) 53); [assumption|].
  exfalso. assert (2 ^ 53 <= 2 ^ (digits p - 1)) by (apply Z.pow_le_mono_r; lia).
  lia.
Qed.

(** The quotient of the scaled mantissas, between the scaled integers
    around [a / b]. *)
Lemma quotient_bounds (a b A P q r N : Z) :
  0 < a -> 0 < b -> 0 < A -> b < P ->
  b * N - b < a <= b * N ->
  a * P * A = b * A * q + r -> 0 <= r < b * A ->
  (N - 1) * P + 1 <= q <= N * P
  /\ (q = N * P -> r = 0)
  /\ (q = (N - 1) * P + 1 -> r <> 0).
Proof.
  intros Ha Hb HA HP HN Hdiv Hr.
  assert (Hq : b * q <= a * P /\ a * P < b * q + b) by nia.
  assert (Hm : r = A * (a * P - b * q)) by nia.
  assert (HP0 : 0 < P) by lia.
  split; [nia|]. split.
  - intros ->. assert (b * N <= a) by nia.
    assert (Ha' : a = b * N) by lia. rewrite Hm, Ha'. ring.
  - intros -> Hr0. rewrite Hr0 in Hm.
    assert (Hz : a * P - b * ((N - 1) * P + 1) = 0) by nia.
    assert (Hone : 1 <= a - b * (N - 1)) by lia.
    assert (Hprod : (a - b * (N - 1)) * P = b) by lia.
    nia.
Qed.

Lemma cancel_units_exact (X N P : Z) :
  0 < P -> (N - 1) * P < X * P <= N * P -> X = N.
Proof. intros HP H. nia. Qed.

Lemma cancel_units_between (M N S T : Z) :
  0 < S -> 0 < T ->
  (N - 1) * (S * T) < M * S <= N * (S * T) ->
  (N - 1) * T < M <= N * T.
Proof. intros HS HT H. split; nia. Qed.

Lemma partsSize_exact (a b : Z) :
  0 < a < 2 ^ 53 -> 0 < b < 2 ^ 53 -> partsSize a b = Some (ceilDiv a b).
Proof.
  intros Ha Hb. destruct a as [|pa|pa]; try lia. destruct b as [|pb|pb]; try lia.
  destruct (of_int_small pa (proj2 Ha)) as (m1 & Heq1 & Hm1 & Hd1).
  destruct (of_int_small pb (proj2 Hb)) as (m2 & Heq2 & Hm2 & Hd2).
  pose proof (digits_le_53 pa (proj2 Ha)) as Hda.
  pose proof (digits_le_53 pb (proj2 Hb)) as Hdb.
  pose proof (digits_bounds pb) as [_ Hbhi].
  pose proof (digits_bounds m1) as Hm1b. pose proof (digits_bounds m2) as Hm2b.
  rewrite Hd1 in Hm1b. rewrite Hd2 in Hm2b. change (53 - 1) with 52 in *.
  unfold partsSize, Float64.div, Float64.of_int.
  rewrite Heq1, Heq2.
  rewrite SFdiv_normal by (assumption || lia).
  set (da := digits pa) in *. set (db := digits pb) in *.
  set (K := 53 + db - da).
  replace (da - 53 - (db - 53) - 53) with (- K) by (unfold K; lia).
  set (N := ceilDiv (Z.pos pa) (Z.pos pb)).
  pose proof (ceilDiv_bounds (Z.pos pa) (Z.pos pb) ltac:(lia)) as HN. fold N in HN.
  assert (HK : 1 <= K <= 105) by (unfold K; lia).
  set (P := 2 ^ K). set (A := 2 ^ (53 - db)).
  assert (HA : 0 < A) by (apply Z.pow_pos_nonneg; lia).
  assert (HP : Z.pos pb < P).
  { assert (2 ^ db <= 2 ^ K) by (apply Z.pow_le_mono_r; unfold K; lia). unfold P. lia. }
  assert (Hscale : Z.pos m1 * 2 ^ 53 = Z.pos pa * P * A).
  { rewrite Hm1. unfold P, A. rewrite <- !Z.mul_assoc, <- !Z.pow_add_r by lia.
    do 2 f_equal. unfold K. lia. }
  fold A in Hm2.
  pose proof (Z.div_mod (Z.pos m1 * 2 ^ 53) (Z.pos m2) ltac:(lia)) as Hdiv.
  pose proof (Z.mod_pos_bound (Z.pos m1 * 2 ^ 53) (Z.pos m2) ltac:(lia)) as Hrem.
  set (q := Z.pos m1 * 2 ^ 53 / Z.pos m2) in *.
  set (r := (Z.pos m1 * 2 ^ 53) mod Z.pos m2) in *.
  assert (HNpos : 1 <= N) by nia.
  assert (HNa : N <= Z.pos pa) by nia.
  destruct (quotient_bounds (Z.pos pa) (Z.pos pb) A P q r N)
    as (Hq & Hexact & Hinexact); try lia.
  assert (Hq54 : 2 ^ 52 <= q < 2 ^ 54).
  { split.
    - assert (Z.pos m2 * (q + 1) > 2 ^ 52 * 2 ^ 53) by nia.
      assert (Z.pos m2 * (q + 1) < 2 ^ 53 * (q + 1)) by nia. nia.
    - assert (Z.pos m2 * q < 2 ^ 53 * 2 ^ 53) by nia. nia. }
  destruct q as [|qp|qp] eqn:Hqp; try lia.
  assert (Hdq : digits qp = 53 \/ digits qp = 54).
  { destruct (Z_lt_le_dec (Z.pos qp) (2 ^ 53)).
    - left. apply digits_unique. change (53 - 1) with 52. lia.
    - right. apply digits_unique. change (54 - 1) with 53. lia. }
  destruct (binary_round_aux_spec qp (- K) (new_location (Z.pos m2) r) Hdq)
    as (M & E & Hround & Hval & HE); [lia|].
  rewrite Hround.
  assert (HP2 : P = 2 * 2 ^ (K - 1)).
  { unfold P. replace K with (1 + (K - 1)) at 1 by lia.
    rewrite Z.pow_add_r by lia. reflexivity. }
  pose proof (roundedUnits_bounds qp (new_location (Z.pos m2) r)
                ((N - 1) * 2 ^ (K - 1)) (N * 2 ^ (K - 1)) Hdq) as HV.
  rewrite <- Hval in HV.
  assert (Hunits : (N - 1) * P < Z.pos M * 2 ^ (E - - K) <= N * P).
  { replace ((N - 1) * P) with (2 * ((N - 1) * 2 ^ (K - 1))) by (rewrite HP2; lia).
    replace (N * P) with (2 * (N * 2 ^ (K - 1))) by (rewrite HP2; lia).
    apply HV.
    - rewrite HP2 in Hq. lia.
    - intros Heq. apply new_location_exact. apply Hexact. rewrite HP2. lia.
    - intros Heq Hloc. apply new_location_exact in Hloc. revert Hloc.
      apply Hinexact. rewrite HP2. lia. }
  rewrite (Ceil_finite M E N); [| lia | |].
  - destruct N as [|pn|pn] eqn:HNeq; try lia.
    apply to_int_of_int. lia.
  - intros HE0. replace (E - - K) with (E + K) in Hunits by lia.
    rewrite Z.pow_add_r in Hunits by lia. fold P in Hunits.
    apply (cancel_units_exact _ N P); [lia|].
    rewrite <- Z.mul_assoc. exact Hunits.
  - intros HE0.
    assert (HS : 0 < 2 ^ (E - - K)) by (apply Z.pow_pos_nonneg; lia).
    assert (HT : 0 < 2 ^ (- E)) by (apply Z.pow_pos_nonneg; lia).
    assert (HST : P = 2 ^ (E - - K) * 2 ^ (- E)).
    { unfold P. rewrite <- Z.pow_add_r by lia. f_equal. lia. }
    rewrite HST in Hunits.
    exact (cancel_units_between _ _ _ _ HS HT Hunits).
Qed.

Lemma to_int_range (x : Float64.t) (v : Z) :
  Float64.to_int x = Some v -> Int64.InRange v.
Proof.
  destruct x as [s|s| |s m e]; cbn [Float64.to_int]; try discriminate.
  - intros [= <-]. unfold Int64.InRange, Int64.min, Int64.max. lia.
  - cbv zeta.
    destruct (andb _ _) eqn:Hrange; [|discriminate]. intros [= <-].
    apply andb_true_iff in Hrange as [H1 H2].
    apply Z.leb_le in H1, H2. split; assumption.
Qed.

Lemma partsSize_range (objectSize partSize n : Z) :
  partsSize objectSize partSize = Some n -> Int64.InRange n.
Proof. apply to_int_range. Qed.

(** [copyToMultiPart] and [CopyTo] are total: the fuel of the loop is
    never exhausted. *)
Lemma copyAndComplete_no_timeout (c : S3Copier) (src dest : S3Object)
    (uploadId : option string) (objectSize : Z) (log : list s3.Request) :
  fst (copyAndComplete c src dest uploadId objectSize log) <> Timeout.
Proof.
  rewrite copyAndComplete_unfold.
  destruct (partsSize _ _) as [n|] eqn:Hn; [|discriminate].
  destruct (makeslice_ok n) eqn:Hfit; [|discriminate]. cbn zeta.
  apply makeslice_ok_spec in Hfit as [Hpos _].
  apply partsSize_range in Hn. destruct Hn as [_ Hn].
  pose proof (copyParts_no_timeout
                (S (length (replicate (Z.to_nat n) (@None s3.CompletedPart.t))))
                c src dest uploadId objectSize 0 1
                (replicate (Z.to_nat n) None) log) as Hloop.
  destruct (copyParts _ _ _ _ _ _ _ _ _ _) as [[[err|parts]|p|] log'];
    try discriminate.
  exfalso. apply Hloop; try reflexivity.
  - unfold Int64.InRange, Int64.min, Int64.max. lia.
  - rewrite length_replicate. lia.
  - lia.
  - rewrite length_replicate. lia.
Qed.

Lemma copyToMultiPart_no_timeout (c : S3Copier) (src dest : S3Object)
    (log : list s3.Request) :
  fst (copyToMultiPart c src dest log) <> Timeout.
Proof.
  rewrite copyToMultiPart_unfold. cbn zeta.
  destruct (s3.HeadObject _ _ _); [|discriminate].
  destruct (s3.CreateMultipartUpload _ _ _); [|discriminate].
  destruct (s3.HeadObjectOutput.ContentLength _); [|discriminate].
  apply copyAndComplete_no_timeout.
Qed.

Lemma CopyTo_no_timeout (c : S3Copier) (src dest : S3Object)
    (log : list s3.Request) :
  fst (CopyTo c src dest log) <> Timeout.
Proof.
  rewrite CopyTo_unfold. cbn zeta.
  destruct (s3.HeadObject _ _ _) as [head|]; [|discriminate].
  assert (Hcopy : forall log2,
             fst (match s3.HeadObjectOutput.ContentLength head with
                  | None => (Panic NilDereference, log2)
                  | Some objectSize =>
                      if objectSize <=? FIVE_MB
                      then copyToSinglePart c src dest log2
                      else copyToMultiPart c src dest log2
                  end) <> Timeout).
  { intros log2. destruct (s3.HeadObjectOutput.ContentLength head) as [z|];
      [|discriminate].
    destruct (z <=? FIVE_MB); [discriminate|].
    apply copyToMultiPart_no_timeout. }
  destruct (HasSuffix _ _); [|apply Hcopy].
  destruct (s3.CopyObject _ _ _); [discriminate | apply Hcopy].
Qed.

(** The completion call of [copyAndComplete]. *)
Lemma copyAndComplete_manifest (c : S3Copier) (src dest : S3Object)
    (uploadId : option string) (objectSize : Z) (log new : list s3.Request)
    (out : Outcome (option error))
    (input : s3.CompleteMultipartUploadInput.t) :
  copyAndComplete c src dest uploadId objectSize log = (out, log ++ new) ->
  In (s3.ReqCompleteMultipartUpload input) new ->
  exists (slots : Z) (ds : list PartDescriptor)
         (cps : list s3.CompletedPart.t),
    partsSize objectSize (partSize c) = Some slots
    /\ plannedParts (S (Z.to_nat slots)) objectSize (partSize c) = Some ds
    /\ new = map (partRequest src dest uploadId) ds
             ++ [s3.ReqCompleteMultipartUpload input]
    /\ map partNumber ds = seqZ 1 (Z.of_nat (length ds))
    /\ map s3.CompletedPart.PartNumber cps = seqZ 1 (Z.of_nat (length ds))
    /\ Z.of_nat (length ds) <= slots
    /\ input = completeMultipartUploadInput dest
                 (map Some cps
                  ++ replicate (Z.to_nat slots - length ds) None)
                 uploadId.
Proof.
  intros H Hin. rewrite copyAndComplete_unfold in H.
  assert (Hnil : forall x : Outcome (option error),
             (x, log) = (out, log ++ new) -> False).
  { intros x [= _ Heq]. rewrite <- (app_nil_r log) in Heq at 1.
    apply app_inv_head in Heq. subst new. destruct Hin. }
  destruct (partsSize _ _) as [n|] eqn:Hn; [|destruct (Hnil _ H)].
  destruct (makeslice_ok n) eqn:Hfit; [|destruct (Hnil _ H)].
  apply makeslice_ok_spec in Hfit as [Hpos _]. cbn zeta in H. pose proof (partsSize_range _ _ _ Hn) as [_ Hmax].
  destruct (copyParts _ _ _ _ _ _ _ _ _ _) as [loopOut log3] eqn:Hloop.
  assert (Hparts : forall x : Outcome (option error),
             (x, log3) = (out, log ++ new) -> False).
  { intros x [= _ Heq].
    destruct (copyParts_log _ _ _ _ _ _ _ _ _ _ _ _ Hloop) as (new' & -> & Hnew).
    apply app_inv_head in Heq. subst new'.
    apply list_elem_of_In in Hin.
    rewrite Forall_forall in Hnew. apply Hnew in Hin. discriminate. }
  destruct loopOut as [[err|parts]|p|]; try (destruct (Hparts _ H)).
  apply copyParts_finished in Hloop
    as (ds & cps & Hplan & -> & Hnums & Hcps & -> & Hfit).
  2: { unfold Int64.InRange, Int64.min, Int64.max. lia. }
  2: { rewrite length_replicate. lia. }
  rewrite length_replicate in Hplan, Hfit.
  injection H as _ Heq. rewrite <- app_assoc in Heq.
  apply app_inv_head in Heq. subst new.
  apply in_app_iff in Hin as [Hin | [Hin | []]].
  { apply in_map_iff in Hin as (d & Hd & _). discriminate. }
  injection Hin as <-.
  assert (Hk : Z.of_nat (length ds) <= n).
  { destruct Hfit as [-> | [_ Hfit]]; cbn [length]; lia. }
  assert (Hcount : length cps = length ds).
  { apply (f_equal length) in Hcps. rewrite !length_map in Hcps. exact Hcps. }
  exists n, ds, cps.
  split; [reflexivity|]. split; [exact Hplan|].
  split; [reflexivity|]. split; [exact Hnums|].
  split; [rewrite Hcps; exact Hnums|]. split; [exact Hk|].
  f_equal. change (Z.to_nat (1 - 1)) with 0%nat.
  replace (Z.to_nat n)
    with (length ds + (Z.to_nat n - length ds))%nat at 1 by lia.
  rewrite replicate_add. apply list_inserts_0_r.
  rewrite length_map, length_replicate. exact Hcount.
Qed.

Lemma copyAndComplete_extends (c : S3Copier) (src dest : S3Object)
    (uploadId : option string) (objectSize : Z) (log : list s3.Request) :
  exists new,
    snd (copyAndComplete c src dest uploadId objectSize log) = log ++ new.
Proof.
  rewrite copyAndComplete_unfold.
  destruct (partsSize _ _) as [n|];
    [|exists []; rewrite app_nil_r; reflexivity].
  destruct (makeslice_ok n); [|exists []; rewrite app_nil_r; reflexivity].
  cbn zeta.
  destruct (copyParts _ _ _ _ _ _ _ _ _ _) as [loopOut log3] eqn:Hloop.
  destruct (copyParts_log _ _ _ _ _ _ _ _ _ _ _ _ Hloop) as (new & -> & _).
  destruct loopOut as [[err|parts]|p|]; try (exists new; reflexivity).
  eexists. cbn [snd]. rewrite <- app_assoc. reflexivity.
Qed.

(** C6, as amended.  In every run of [copyToMultiPart] that sends the
    completion call, the parts have been copied in ascending order of
    part number, 1 to N, N being the number of parts planned, and the
    manifest holds the Completed Parts 1 to N, in this order, in its
    first N slots.  The manifest has [int(math.Ceil(float64(objectSize) /
    float64(partSize)))] slots; the slots beyond N, if any, are nil, and
    when that number is N the part numbers of the manifest are exactly
    1 to N.  It is N, and N is [ceil(objectSize/partSize)], whenever
    [objectSize] and [partSize] are positive and below [2^53]. *)
Theorem copyToMultiPart_manifest (c : S3Copier) (src dest : S3Object)
    (log new : list s3.Request) (out : Outcome (option error))
    (input : s3.CompleteMultipartUploadInput.t) :
  copyToMultiPart c src dest log = (out, log ++ new) ->
  In (s3.ReqCompleteMultipartUpload input) new ->
  ManifestOfRun c src dest new input.
Proof.
  intros H Hin. rewrite copyToMultiPart_unfold in H. cbn zeta in H.
  assert (Hone : forall (x : Outcome (option error)) (r : s3.Request),
             isComplete r = false ->
             (x, log ++ [r]) = (out, log ++ new) -> False).
  { intros x r Hr [= _ Heq]. apply app_inv_head in Heq. subst new.
    destruct Hin as [Hin | []]. subst r. discriminate. }
  assert (Htwo : forall (x : Outcome (option error)) (r r' : s3.Request),
             isComplete r = false -> isComplete r' = false ->
             (x, (log ++ [r]) ++ [r']) = (out, log ++ new) -> False).
  { intros x r r' Hr Hr' [= _ Heq]. rewrite <- app_assoc in Heq.
    apply app_inv_head in Heq. subst new.
    destruct Hin as [Hin | [Hin | []]]; [subst r | subst r']; discriminate. }
  destruct (s3.HeadObject _ _ _) as [head|err];
    [|exfalso; refine (Hone _ _ _ H); reflexivity].
  destruct (s3.CreateMultipartUpload _ _ _) as [init|err];
    [|exfalso; refine (Htwo _ _ _ _ _ H); reflexivity].
  destruct (s3.HeadObjectOutput.ContentLength head) as [objectSize|] eqn:Hsize;
    [|exfalso; refine (Htwo _ _ _ _ _ H); reflexivity].
  set (uploadId := s3.CreateMultipartUploadOutput.UploadId init) in *.
  destruct (copyAndComplete_extends c src dest uploadId objectSize
              ((log ++ [headRequest src])
                 ++ [s3.ReqCreateMultipartUpload (createInput dest head)]))
    as (new2 & Hext).
  rewrite H in Hext. cbn [snd] in Hext. rewrite <- !app_assoc in Hext.
  apply app_inv_head in Hext. cbn [app] in Hext. subst new.
  destruct Hin as [Hin | [Hin | Hin]]; try discriminate.
  replace (log ++ headRequest src
             :: s3.ReqCreateMultipartUpload (createInput dest head) :: new2)
    with (((log ++ [headRequest src])
             ++ [s3.ReqCreateMultipartUpload (createInput dest head)]) ++ new2)
    in H by (rewrite <- !app_assoc; reflexivity).
  destruct (copyAndComplete_manifest _ _ _ _ _ _ _ _ _ H Hin)
    as (slots & ds & cps & Hslots & Hplan & -> & Hnums & Hcps & Hk & ->).
  exists head, uploadId, objectSize, slots, ds, cps. cbv zeta.
  split; [exact Hsize|]. split; [exact Hslots|]. split; [exact Hplan|].
  split; [reflexivity|]. split; [exact Hnums|]. split; [exact Hcps|].
  split; [exact Hk|].
  split.
  { cbn. do 2 f_equal. lia. }
  split.
  { intros Heq. unfold manifestPartNumbers. cbn.
    replace (Z.to_nat slots - length ds)%nat with 0%nat by lia.
    cbn [replicate]. rewrite app_nil_r, map_map. cbn [option_map].
    rewrite <- Hcps, map_map. reflexivity. }
  intros Hos Hps.
  rewrite partsSize_exact in Hslots by assumption. injection Hslots as <-.
  pose proof (ceilDiv_bounds objectSize (partSize c) ltac:(lia)) as Hb.
  pose proof (planned_count_pos objectSize (partSize c) ltac:(lia) ltac:(lia))
    as Hcount.
  rewrite plannedParts_closed_form in Hplan; try lia.
  2: { unfold Int64.max. nia. }
  injection Hplan as <-. rewrite length_map, length_seqZ. lia.
Qed.

Lemma copyToMultiPart_manifest_witness :
  let c := NewS3Copier (exampleService (12 * MiB) (quoted "abc123") 0) in
  let input :=
    completeMultipartUploadInput exampleDest
      [Some (s3.CompletedPart.mk "abc123" 1);
       Some (s3.CompletedPart.mk "abc123" 2)]
      (Some "upload-1") in
  ManifestOfRun c exampleSrc exampleDest
    (snd (copyToMultiPart c exampleSrc exampleDest [])) input.
Proof.
  intros c input.
  apply (copyToMultiPart_manifest c exampleSrc exampleDest []
           (snd (copyToMultiPart c exampleSrc exampleDest []))
           (fst (copyToMultiPart c exampleSrc exampleDest [])) input).
  - apply surjective_pairing.
  - vm_compute. auto 10.
Defined.

(** C6 as stated fails where [float64] rounds.  An object of
    [hugeObjectSize = 2^62 + 515] bytes is copied in three parts of
    [hugePartSize] bytes (no [int64] operation overflows); its size
    converts to the [float64] [2^62 + 1024], the quotient rounds above 3,
    and [math.Ceil] gives 4 slots.  The completion call is reached with a
    manifest whose fourth slot is nil. *)
Lemma manifest_with_nil_slot :
  let c := {| partSize := hugePartSize;
              s3client := exampleService hugeObjectSize (quoted "abc123") 0 |} in
  let run := copyToMultiPart c exampleSrc exampleDest [] in
  ceilDiv hugeObjectSize hugePartSize = 3
  /\ hugeObjectSize + hugePartSize <= Int64.max
  /\ partsSize hugeObjectSize hugePartSize = Some 4
  /\ option_map (map partNumber) (plannedParts 4 hugeObjectSize hugePartSize)
     = Some [1; 2; 3]
  /\ fst run = Ret None
  /\ exists input,
       last (snd run) = Some (s3.ReqCompleteMultipartUpload input)
       /\ manifestPartNumbers input = [Some 1; Some 2; Some 3; None].
Proof.
  intros c run.
  split; [reflexivity|]. split; [vm_compute; discriminate|].
  split; [vm_compute; reflexivity|]. split; [vm_compute; reflexivity|].
  split; [vm_compute; reflexivity|].
  eexists. split; [vm_compute; reflexivity|]. reflexivity.
Qed.

(** ** CopyWithPrefix *)

Lemma total_insert (f : Worker -> Z) (ws : list Worker) (i : nat)
    (w w' : Worker) :
  ws !! i = Some w -> total f (<[i := w']> ws) = total f ws - f w + f w'.
Proof.
  revert i. induction ws as [|x ws IH]; intros [|i] H; try discriminate.
  - injection H as ->. change (<[0%nat := w']> (w :: ws)) with (w' :: ws).
    cbn [total]. lia.
  - change (<[S i := w']> (x :: ws)) with (x :: <[i := w']> ws).
    cbn [total]. rewrite (IH i H). lia.
Qed.

Lemma total_replicate (f : Worker -> Z) (n : nat) (w : Worker) :
  total f (replicate n w) = Z.of_nat n * f w.
Proof. induction n as [|n IH]; cbn [replicate total]; lia. Qed.

Lemma total_holdsKey_bounds (ws : list Worker) :
  0 <= total hasReturned ws <= total holdsKey ws
  /\ total holdsKey ws <= Z.of_nat (length ws).
Proof.
  induction ws as [|w ws IH]; cbn [total length]; [lia|].
  destruct w; cbn [holdsKey hasReturned]; lia.
Qed.

Lemma total_holdsKey_zero (ws : list Worker) :
  total holdsKey ws = 0 -> Forall (fun w => w = WReceive) ws.
Proof.
  induction ws as [|w ws IH]; cbn [total]; intros H; [constructor|].
  pose proof (total_holdsKey_bounds ws) as Hb.
  destruct w; cbn [holdsKey] in H; try lia.
  constructor; [reflexivity | apply IH; lia].
Qed.

Lemma doneCount_app (l l' : list Signal) :
  doneCount (l ++ l') = doneCount l + doneCount l'.
Proof.
  induction l as [|[k|e] l IH]; cbn [app doneCount]; lia.
Qed.

Lemma statusCount_app (l l' : list Signal) :
  statusCount (l ++ l') = statusCount l + statusCount l'.
Proof.
  induction l as [|[k|e] l IH]; cbn [app statusCount]; lia.
Qed.

Lemma doneCount_dones (keys : list string) :
  doneCount (map SigDone keys) = Z.of_nat (length keys).
Proof. induction keys as [|k keys IH]; cbn [map doneCount length]; lia. Qed.

Lemma statusCount_dones (keys : list string) :
  statusCount (map SigDone keys) = 0.
Proof. induction keys as [|k keys IH]; cbn [map statusCount]; lia. Qed.

Ltac system_fields :=
  cbn [jobs done statusChan workers caller count check crashed enqueued
       received set_jobs set_done set_statusChan set_workers set_caller
       set_count set_check crash log_enqueued log_received] in *.

Ltac count_fields :=
  rewrite ?length_app, ?length_insert, ?doneCount_app, ?statusCount_app;
  cbn [length doneCount statusCount].

Section CopyWithPrefixProperties.

Variable c_partSize : Z.
Variables srcBucket destBucket : string.
Variable pages : list (list (option string)).

Lemma initial_invariant : Invariant pages (initial pages).
Proof.
  unfold initial. constructor; system_fields;
    rewrite ?total_replicate; cbn [length holdsKey hasReturned doneCount statusCount];
    unfold jobsCapacity, doneCapacity, statusChanCapacity, WORKER_COUNT;
    try lia.
  - apply length_replicate.
  - unfold CallerInvariant. system_fields. auto.
Qed.

Lemma stepList_invariant (s s' : System) :
  Invariant pages s -> stepList s = Some s' -> Invariant pages s'.
Proof.
  intros [Hws Hjobs Hdone Hstatus Hkeys Herrors Hcount Hcheck Hbound Hcaller] H.
  unfold stepList in H. unfold CallerInvariant in Hcaller.
  pose proof (total_holdsKey_bounds (workers s)) as Hload.
  destruct (caller s) as [[|[|[k|] page] rest]| |] eqn:Hc; try discriminate.
  - injection H as <-. destruct Hcaller as (Hlisted & Hrcv & Hchk).
    constructor; system_fields; try assumption.
    + rewrite Hrcv. reflexivity.
    + unfold CallerInvariant. system_fields.
      cbn [concat] in Hlisted. rewrite app_nil_r in Hlisted.
      split; [assumption|]. split; [exists []; assumption | auto].
  - injection H as <-.
    constructor; system_fields; assumption.
  - destruct (Z.ltb_spec (Z.of_nat (length (jobs s))) jobsCapacity) as [Hcap|];
      [|discriminate].
    injection H as <-. destruct Hcaller as (Hlisted & Hrcv & Hchk).
    rewrite Hrcv in Hkeys. cbn [doneCount] in Hkeys.
    assert (Hfits : Z.of_nat (length (enqueued s)) + 1
                    <= jobsCapacity + doneCapacity + WORKER_COUNT).
    { rewrite Hws in Hload. unfold WORKER_COUNT in *. lia. }
    constructor; system_fields; count_fields; try assumption; try lia.
    + rewrite Hcount. unfold Int64.add. rewrite wrap_in_range; [lia|].
      revert Hfits. unfold Int64.InRange, Int64.min, Int64.max,
        jobsCapacity, doneCapacity, WORKER_COUNT. lia.
    + unfold CallerInvariant. system_fields.
      split; [|auto]. rewrite map_app, <- app_assoc. exact Hlisted.
  - injection H as <-.
    constructor; system_fields; try assumption.
    unfold CallerInvariant. system_fields. rewrite Hc. exact Hcaller.
Qed.

Lemma stepSelectDone_invariant (s s' : System) :
  Invariant pages s -> stepSelectDone s = Some s' -> Invariant pages s'.
Proof.
  intros [Hws Hjobs Hdone Hstatus Hkeys Herrors Hcount Hcheck Hbound Hcaller] H.
  unfold stepSelectDone in H. unfold CallerInvariant in Hcaller.
  pose proof (total_holdsKey_bounds (workers s)) as Hload.
  destruct (caller s) eqn:Hc; try discriminate.
  destruct (done s) as [|key rest] eqn:Hd; [discriminate|].
  destruct Hcaller as (Hlisted & (keys & Hrcv) & Hchk).
  cbn [length] in Hkeys, Hdone.
  assert (Hdones : doneCount (received s) = Z.of_nat (length keys)).
  { rewrite Hrcv. apply doneCount_dones. }
  assert (Hnext : Int64.add (check s) 1 = check s + 1).
  { unfold Int64.add. apply wrap_in_range.
    revert Hbound. unfold Int64.InRange, Int64.min, Int64.max,
      jobsCapacity, doneCapacity, WORKER_COUNT. lia. }
  rewrite Hnext in H.
  destruct (Z.geb_spec (check s + 1) (count s)) as [Hge|Hlt];
    injection H as <-;
    (constructor; system_fields; count_fields; try assumption; try lia).
  - unfold CallerInvariant. system_fields.
    split; [assumption|]. split; [|lia].
    exists (keys ++ [key]). rewrite Hrcv, map_app. reflexivity.
  - unfold CallerInvariant. system_fields. rewrite Hc.
    split; [assumption|]. split; [|lia].
    exists (keys ++ [key]). rewrite Hrcv, map_app. reflexivity.
Qed.

Lemma stepSelectStatus_invariant (s s' : System) :
  Invariant pages s -> stepSelectStatus s = Some s' -> Invariant pages s'.
Proof.
  intros [Hws Hjobs Hdone Hstatus Hkeys Herrors Hcount Hcheck Hbound Hcaller] H.
  unfold stepSelectStatus in H. unfold CallerInvariant in Hcaller.
  destruct (caller s) eqn:Hc; try discriminate.
  destruct (statusChan s) as [|err rest] eqn:Hst; [discriminate|].
  destruct Hcaller as (Hlisted & (keys & Hrcv) & Hchk).
  cbn [length] in Herrors, Hstatus.
  injection H as <-.
  constructor; system_fields; count_fields; try assumption; try lia.
  unfold CallerInvariant. system_fields.
  split; [assumption|]. exists keys. rewrite Hrcv. reflexivity.
Qed.

Lemma stepReceive_invariant (w : nat) (s s' : System) :
  Invariant pages s -> stepReceive w s = Some s' -> Invariant pages s'.
Proof.
  intros [Hws Hjobs Hdone Hstatus Hkeys Herrors Hcount Hcheck Hbound Hcaller] H.
  unfold stepReceive in H.
  destruct (workers s !! w) as [[]|] eqn:Hw; try discriminate.
  destruct (jobs s) as [|key rest] eqn:Hj; [discriminate|].
  injection H as <-. cbn [length] in Hkeys, Hjobs.
  constructor; system_fields; count_fields;
    rewrite ?(total_insert _ _ _ _ _ Hw); cbn [holdsKey hasReturned];
    try assumption; try lia.
Qed.

Lemma stepCopyTo_invariant (w : nat) (service : s3.S3) (s s' : System) :
  Invariant pages s ->
  stepCopyTo c_partSize srcBucket destBucket w service s = Some s' ->
  Invariant pages s'.
Proof.
  intros [Hws Hjobs Hdone Hstatus Hkeys Herrors Hcount Hcheck Hbound Hcaller] H.
  unfold stepCopyTo in H.
  destruct (workers s !! w) as [[]|] eqn:Hw; try discriminate.
  destruct (fst (CopyTo _ _ _ _)) as [[err|]|p|]; try discriminate;
    injection H as <-;
    (constructor; system_fields; count_fields;
     rewrite ?(total_insert _ _ _ _ _ Hw); cbn [holdsKey hasReturned];
     try assumption; try lia).
Qed.

Lemma stepSend_invariant (w : nat) (s s' : System) :
  Invariant pages s -> stepSend w s = Some s' -> Invariant pages s'.
Proof.
  intros [Hws Hjobs Hdone Hstatus Hkeys Herrors Hcount Hcheck Hbound Hcaller] H.
  unfold stepSend in H.
  destruct (workers s !! w) as [[]|] eqn:Hw; try discriminate.
  - destruct (Z.ltb_spec (Z.of_nat (length (statusChan s)))
                statusChanCapacity); [|discriminate].
    injection H as <-.
    constructor; system_fields; count_fields;
      rewrite ?(total_insert _ _ _ _ _ Hw); cbn [holdsKey hasReturned];
      try assumption; try lia.
  - destruct (Z.ltb_spec (Z.of_nat (length (done s))) doneCapacity);
      [|discriminate].
    injection H as <-.
    constructor; system_fields; count_fields;
      rewrite ?(total_insert _ _ _ _ _ Hw); cbn [holdsKey hasReturned];
      try assumption; try lia.
Qed.

Lemma step_invariant (s s' : System) (a : Action) :
  Invariant pages s ->
  step c_partSize srcBucket destBucket s a = Some s' ->
  Invariant pages s'.
Proof.
  intros Hinv H. unfold step in H.
  destruct (crashed s); [discriminate|].
  destruct a.
  - eapply stepList_invariant; eassumption.
  - eapply stepSelectDone_invariant; eassumption.
  - eapply stepSelectStatus_invariant; eassumption.
  - eapply stepReceive_invariant; eassumption.
  - eapply stepCopyTo_invariant; eassumption.
  - eapply stepSend_invariant; eassumption.
Qed.

Lemma run_invariant (schedule : list Action) :
  forall s s',
    Invariant pages s ->
    run c_partSize srcBucket destBucket s schedule = Some s' ->
    Invariant pages s'.
Proof.
  induction schedule as [|a schedule IH]; intros s s' Hinv H; cbn [run] in H.
  - injection H as <-. exact Hinv.
  - destruct (step _ _ _ s a) as [s1|] eqn:Hstep; [|discriminate].
    eapply IH; [|exact H]. eapply step_invariant; eassumption.
Qed.

Lemma reachable_invariant (s : System) :
  Reachable c_partSize srcBucket destBucket pages s -> Invariant pages s.
Proof.
  intros [schedule H]. eapply run_invariant; [|exact H].
  apply initial_invariant.
Qed.

Lemma doneCount_nonneg (l : list Signal) : 0 <= doneCount l.
Proof. induction l as [|[k|e] l IH]; cbn [doneCount]; lia. Qed.

Lemma statusCount_nonneg (l : list Signal) : 0 <= statusCount l.
Proof. induction l as [|[k|e] l IH]; cbn [statusCount]; lia. Qed.

Lemma returned_listed (s : System) (r : option error) :
  Invariant pages s -> caller s = CallerReturned r ->
  map Some (enqueued s) = concat pages.
Proof.
  intros Hinv Hc. pose proof (inv_caller _ _ Hinv) as Hcaller.
  unfold CallerInvariant in Hcaller. rewrite Hc in Hcaller.
  destruct r; apply Hcaller.
Qed.

(** C3.  In every state that [CopyWithPrefix] can reach:

    - at the [select] (the process not having panicked), an error
      waiting on [statusChan] can be taken, and with that step
      [CopyWithPrefix] returns this error; a key waiting on [done] can
      be taken, it is counted, and [nil] is returned exactly when
      [check >= count] then holds;
    - an error that the [select] has received has been returned: no
      state has an error received and the caller still running, so the
      first error received is returned at once, and nothing is received
      after it;
    - when [CopyWithPrefix] has returned an error, that error is the
      only value the [select] took from [statusChan] and the last value
      it received at all; when it has returned [nil], the [select] never
      received an error, and the number of values it received from
      [done] is [check], which equals [count], the number of keys sent
      on [jobs] -- all the keys of the listing.  (Then every worker is
      back at [range jobs] and [statusChan] is empty: no copy has
      failed.) *)
Theorem CopyWithPrefix_result (s : System) :
  Reachable c_partSize srcBucket destBucket pages s ->
  (crashed s = false -> caller s = Selecting ->
   (forall err rest,
       statusChan s = err :: rest ->
       exists s',
         step c_partSize srcBucket destBucket s ActSelectStatus = Some s'
         /\ caller s' = CallerReturned (Some err)
         /\ received s' = received s ++ [SigStatus err])
   /\ (forall key rest,
          done s = key :: rest ->
          exists s',
            step c_partSize srcBucket destBucket s ActSelectDone = Some s'
            /\ received s' = received s ++ [SigDone key]
            /\ check s' = check s + 1
            /\ caller s' = if check s + 1 >=? count s
                           then CallerReturned None else Selecting))
  /\ (forall err,
         In (SigStatus err) (received s) ->
         caller s = CallerReturned (Some err))
  /\ (forall r,
         caller s = CallerReturned r ->
         exists keys,
           match r with
           | Some err => received s = map SigDone keys ++ [SigStatus err]
           | None =>
               received s = map SigDone keys
               /\ check s = Z.of_nat (length keys)
               /\ check s = count s
               /\ count s = Z.of_nat (length (enqueued s))
               /\ map Some (enqueued s) = concat pages
               /\ Forall (fun w => w = WReceive) (workers s)
               /\ statusChan s = []
           end).
Proof.
  intros Hreach. apply reachable_invariant in Hreach as Hinv.
  pose proof (total_holdsKey_bounds (workers s)) as Hload.
  pose proof (doneCount_nonneg (received s)) as Hd.
  destruct Hinv as
    [Hws Hjobs Hdone Hstatus Hkeys Herrors Hcount Hcheck Hbound Hcaller].
  unfold CallerInvariant in Hcaller.
  split; [|split].
  - intros Hcr Hc. unfold step. rewrite Hcr. split.
    + intros err rest Hs. unfold stepSelectStatus. rewrite Hc, Hs.
      eexists. split; [reflexivity|]. split; reflexivity.
    + intros key rest Hdn. unfold stepSelectDone. rewrite Hc, Hdn.
      cbn zeta.
      assert (Hnext : Int64.add (check s) 1 = check s + 1).
      { unfold Int64.add. apply wrap_in_range.
        unfold jobsCapacity, doneCapacity, WORKER_COUNT in Hbound.
        unfold Int64.InRange, Int64.min, Int64.max. lia. }
      rewrite Hnext. eexists. split; [reflexivity|].
      destruct (check s + 1 >=? count s); system_fields;
        repeat split; assumption.
  - intros err Hin.
    assert (Hnot : forall keys, ~ In (SigStatus err) (map SigDone keys)).
    { intros keys Hk. apply in_map_iff in Hk as (k & Hk & _).
      discriminate Hk. }
    destruct (caller s) as [rest| |[e|]].
    + destruct Hcaller as (_ & Hrcv & _). rewrite Hrcv in Hin.
      destruct Hin.
    + destruct Hcaller as (_ & (keys & Hrcv) & _). rewrite Hrcv in Hin.
      destruct (Hnot _ Hin).
    + destruct Hcaller as (_ & keys & Hrcv). rewrite Hrcv in Hin.
      apply in_app_or in Hin as [Hin | [Hin | []]]; [destruct (Hnot _ Hin)|].
      injection Hin as ->. reflexivity.
    + destruct Hcaller as (_ & (keys & Hrcv) & _). rewrite Hrcv in Hin.
      destruct (Hnot _ Hin).
  - intros r Hc. rewrite Hc in Hcaller. destruct r as [err|].
    + destruct Hcaller as (_ & keys & Hrcv). exists keys. exact Hrcv.
    + destruct Hcaller as (Hlisted & (keys & Hrcv) & Hone & Heq).
      exists keys.
      assert (Hdones : doneCount (received s) = Z.of_nat (length keys)).
      { rewrite Hrcv. apply doneCount_dones. }
      assert (Hnone : statusCount (received s) = 0).
      { rewrite Hrcv. apply statusCount_dones. }
      assert (Hidle : total holdsKey (workers s) = 0) by lia.
      repeat split; try assumption; try lia.
      * apply total_holdsKey_zero, Hidle.
      * destruct (statusChan s); [reflexivity|]. cbn [length] in Herrors.
        lia.
Qed.

(** [CopyWithPrefix] only returns for a listing of at most 40050 keys:
    during the listing nothing drains [done]. *)
Lemma CopyWithPrefix_returns_bound (s : System) (r : option error) :
  Reachable c_partSize srcBucket destBucket pages s ->
  caller s = CallerReturned r ->
  Z.of_nat (length (concat pages)) <= 40050.
Proof.
  intros Hreach Hc. apply reachable_invariant in Hreach as Hinv.
  rewrite <- (returned_listed s r Hinv Hc), length_map.
  exact (inv_bound _ _ Hinv).
Qed.

Lemma run_cons (s : System) (a : Action) (schedule : list Action) :
  run c_partSize srcBucket destBucket s (a :: schedule)
  = match step c_partSize srcBucket destBucket s a with
    | Some s' => run c_partSize srcBucket destBucket s' schedule
    | None => None
    end.
Proof. reflexivity. Qed.

Lemma run_empty_pages (rest : list (list (option string))) :
  forall s,
    concat rest = [] -> caller s = Listing rest -> crashed s = false ->
    run c_partSize srcBucket destBucket s
      (replicate (S (length rest)) ActList)
    = Some (set_check 0 (set_caller Selecting s)).
Proof.
  induction rest as [|page rest IH]; intros s Hempty Hc Hcrash.
  - cbn [length replicate]. rewrite run_cons. unfold step, stepList.
    rewrite Hcrash, Hc. reflexivity.
  - cbn [concat] in Hempty. apply app_eq_nil in Hempty as [-> Hempty].
    change (replicate (S (length ([] :: rest))) ActList)
      with (ActList :: replicate (S (length rest)) ActList).
    rewrite run_cons. unfold step at 1, stepList. rewrite Hcrash, Hc.
    rewrite (IH (set_caller (Listing rest) s) Hempty eq_refl Hcrash).
    reflexivity.
Qed.

Lemma waiting_deadlocked :
  Deadlocked c_partSize srcBucket destBucket
    (set_check 0 (set_caller Selecting (initial pages))).
Proof.
  assert (Hidle : forall w x,
             replicate (Z.to_nat WORKER_COUNT) WReceive !! w = Some x ->
             x = WReceive).
  { intros w x H. apply lookup_replicate in H. apply H. }
  intros a. unfold step. system_fields. destruct a; try reflexivity.
  - unfold stepReceive. system_fields.
    destruct (_ !! w) as [[]|]; reflexivity.
  - unfold stepCopyTo. system_fields.
    destruct (_ !! w) as [x|] eqn:Hw; [|reflexivity].
    apply Hidle in Hw. subst x. reflexivity.
  - unfold stepSend. system_fields.
    destruct (_ !! w) as [x|] eqn:Hw; [|reflexivity].
    apply Hidle in Hw. subst x. reflexivity.
Qed.

(** C7.  When the listing has no key, [CopyWithPrefix] never returns:
    no reachable state has the caller returned, and the state where
    the caller waits at the [select] and every worker at [range jobs]
    is reached and is a deadlock. *)
Theorem CopyWithPrefix_empty_listing_hangs :
  concat pages = [] ->
  (forall s r,
      Reachable c_partSize srcBucket destBucket pages s ->
      caller s <> CallerReturned r)
  /\ exists s,
       Reachable c_partSize srcBucket destBucket pages s
       /\ caller s = Selecting
       /\ Deadlocked c_partSize srcBucket destBucket s.
Proof.
  intros Hempty. split.
  - intros s r Hreach Hc. apply reachable_invariant in Hreach as Hinv.
    pose proof (returned_listed s r Hinv Hc) as Hlisted.
    rewrite Hempty in Hlisted. apply map_eq_nil in Hlisted.
    destruct Hinv as
      [Hws Hjobs Hdone Hstatus Hkeys Herrors Hcount Hcheck Hbound Hcaller].
    unfold CallerInvariant in Hcaller. rewrite Hc in Hcaller.
    rewrite Hlisted in Hkeys. cbn [length] in Hkeys.
    pose proof (total_holdsKey_bounds (workers s)) as Hload.
    pose proof (doneCount_nonneg (received s)) as Hd.
    pose proof (statusCount_nonneg (received s)) as Hs.
    destruct r as [err|].
    + destruct Hcaller as (_ & keys & Hrcv).
      rewrite Hrcv, statusCount_app in Herrors.
      cbn [statusCount] in Herrors.
      pose proof (statusCount_nonneg (map SigDone keys)). lia.
    + destruct Hcaller as (_ & _ & Hone & _). lia.
  - exists (set_check 0 (set_caller Selecting (initial pages))).
    split; [|split; [reflexivity | apply waiting_deadlocked]].
    exists (replicate (S (length pages)) ActList).
    apply run_empty_pages; [assumption | reflexivity..].
Qed.

End CopyWithPrefixProperties.

(** The three parts of C3 on a listing with the one key [a.ts]: the
    copy succeeds and [nil] is returned; or the copy fails with ["E"],
    the [select] takes the error and returns it. *)
Lemma CopyWithPrefix_result_witness :
  let service := exampleService MiB (quoted "abc123") 0 in
  let pages := [[Some "a.ts"]] in
  let copied := afterSchedule pages (exampleSchedule service ++ [ActSelectDone]) in
  let pending := afterSchedule pages (exampleSchedule refusingService) in
  let failed :=
    afterSchedule pages (exampleSchedule refusingService ++ [ActSelectStatus]) in
  (exists keys,
      received copied = map SigDone keys
      /\ check copied = Z.of_nat (length keys)
      /\ check copied = count copied
      /\ count copied = Z.of_nat (length (enqueued copied))
      /\ map Some (enqueued copied) = concat pages
      /\ Forall (fun w => w = WReceive) (workers copied)
      /\ statusChan copied = [])
  /\ (exists s',
        step (FIVE_MB * 2) "from" "to" pending ActSelectStatus = Some s'
        /\ caller s' = CallerReturned (Some "E")
        /\ received s' = received pending ++ [SigStatus "E"])
  /\ caller failed = CallerReturned (Some "E")
  /\ (exists keys, received failed = map SigDone keys ++ [SigStatus "E"]).
Proof.
  intros service pages copied pending failed.
  assert (Hcopied : Reachable (FIVE_MB * 2) "from" "to" pages copied).
  { exists (exampleSchedule service ++ [ActSelectDone]).
    vm_compute. reflexivity. }
  assert (Hpending : Reachable (FIVE_MB * 2) "from" "to" pages pending).
  { exists (exampleSchedule refusingService). vm_compute. reflexivity. }
  assert (Hfailed : Reachable (FIVE_MB * 2) "from" "to" pages failed).
  { exists (exampleSchedule refusingService ++ [ActSelectStatus]).
    vm_compute. reflexivity. }
  split; [|split; [|split]].
  - refine (proj2 (proj2 (CopyWithPrefix_result (FIVE_MB * 2) "from" "to"
                            pages copied Hcopied)) None _).
    vm_compute. reflexivity.
  - refine (proj1 (proj1 (CopyWithPrefix_result (FIVE_MB * 2) "from" "to"
                            pages pending Hpending) _ _) "E" [] _);
      vm_compute; reflexivity.
  - refine (proj1 (proj2 (CopyWithPrefix_result (FIVE_MB * 2) "from" "to"
                            pages failed Hfailed)) "E" _).
    vm_compute. left. reflexivity.
  - refine (proj2 (proj2 (CopyWithPrefix_result (FIVE_MB * 2) "from" "to"
                            pages failed Hfailed)) (Some "E") _).
    vm_compute. reflexivity.
Defined.

Lemma CopyWithPrefix_empty_listing_hangs_witness :
  (forall s r,
      Reachable (FIVE_MB * 2) "from" "to" [[]] s ->
      caller s <> CallerReturned r)
  /\ exists s,
       Reachable (FIVE_MB * 2) "from" "to" [[]] s
       /\ caller s = Selecting
       /\ Deadlocked (FIVE_MB * 2) "from" "to" s.
Proof.
  apply (CopyWithPrefix_empty_listing_hangs (FIVE_MB * 2) "from" "to" [[]]).
  reflexivity.
Defined.


(** * Further properties of the package *)

(** ** The number of manifest slots *)

Lemma partsSize_zero (partSize : Z) :
  0 < partSize < 2 ^ 53 -> partsSize 0 partSize = Some 0.
Proof.
  intros Hb. destruct partSize as [|pb|pb]; try lia.
  destruct (of_int_small pb (proj2 Hb)) as (m & Heq & _).
  unfold partsSize, Float64.div, Float64.of_int. rewrite Heq. reflexivity.
Qed.

(** X1.  For an object size from 0 to below [2^53] and a part size from 1
    to below [2^53], the number of slots [copyToMultiPart] computes in
    [float64], [int(math.Ceil(float64(objectSize) / float64(partSize)))],
    is exactly the integer [ceil(objectSize / partSize)]. *)
Theorem partsSize_is_ceiling (objectSize partSize : Z) :
  0 <= objectSize < 2 ^ 53 -> 0 < partSize < 2 ^ 53 ->
  partsSize objectSize partSize = Some (ceilDiv objectSize partSize).
Proof.
  intros Hos Hps. destruct (Z.eq_dec objectSize 0) as [-> | Hne].
  - rewrite partsSize_zero by assumption. unfold ceilDiv.
    rewrite Z.div_small by lia. reflexivity.
  - apply partsSize_exact; lia.
Qed.

Lemma partsSize_is_ceiling_witness :
  partsSize (12 * MiB) (FIVE_MB * 2) = Some (ceilDiv (12 * MiB) (FIVE_MB * 2)).
Proof.
  apply (partsSize_is_ceiling (12 * MiB) (FIVE_MB * 2));
    vm_compute; split; (reflexivity || discriminate).
Defined.

(** ** How many part copies a run can send *)

Lemma copyParts_request_bound (fuel : nat) (c : S3Copier)
    (src dest : S3Object) (uploadId : option string) (objectSize : Z) :
  forall bytePosition partNum completedParts log out log',
    Int64.InRange partNum ->
    Z.of_nat (length completedParts) <= Int64.max ->
    copyParts fuel c src dest uploadId objectSize bytePosition partNum
      completedParts log = (out, log') ->
    exists new,
      log' = log ++ new
      /\ Forall (fun r => isPartCopy r = true) new
      /\ Z.of_nat (length new)
         <= if 1 <=? partNum
            then Z.max 1 (Z.of_nat (length completedParts) + 2 - partNum)
            else 1.
Proof.
  induction fuel as [|fuel IH]; intros bp pn parts log out log' Hpn Hlen H.
  - cbn in H. injection H as <- <-. exists []. rewrite app_nil_r.
    split; [reflexivity|]. split; [constructor|].
    cbn [length]. destruct (1 <=? pn); lia.
  - assert (Hone : exists new,
               log ++ [s3.ReqUploadPartCopy
                         (uploadPartCopyInput pn src dest bp
                            (lastByteOf objectSize (partSize c) bp) uploadId)]
               = log ++ new
               /\ Forall (fun r => isPartCopy r = true) new
               /\ Z.of_nat (length new)
                  <= if 1 <=? pn
                     then Z.max 1 (Z.of_nat (length parts) + 2 - pn)
                     else 1).
    { eexists [_]. split; [reflexivity|]. split; [repeat constructor|].
      cbn [length]. destruct (1 <=? pn); lia. }
    copyParts_cases H; try (injection H as <- <-; exact Hone).
    + apply index_in_range in Hidx as [Hrange Hsub]; [|assumption..].
      apply IH in H as (new & -> & Hnew & Hbound);
        [| apply wrap_range | rewrite length_insert; assumption].
      rewrite length_insert in Hbound.
      eexists (_ :: new). rewrite <- app_assoc. split; [reflexivity|].
      split; [constructor; [reflexivity | assumption]|].
      cbn [length]. destruct (Z.leb_spec 1 pn); [|lia].
      unfold Int64.add in Hbound. unfold Int64.InRange in Hpn.
      destruct (Z.eq_dec pn Int64.max) as [-> | Hne].
      * change (Int64.wrap (Int64.max + 1)) with Int64.min in Hbound.
        change (1 <=? Int64.min) with false in Hbound. cbv iota in Hbound.
        lia.
      * rewrite wrap_in_range in Hbound by (unfold Int64.InRange; lia).
        destruct (Z.leb_spec 1 (pn + 1)); lia.
    + injection H as <- <-. exists []. rewrite app_nil_r.
      split; [reflexivity|]. split; [constructor|].
      cbn [length]. destruct (1 <=? pn); lia.
Qed.

Lemma partRanges_app (l l' : list s3.Request) :
  partRanges (l ++ l') = partRanges l ++ partRanges l'.
Proof. apply omap_app. Qed.

Lemma partRanges_length (new : list s3.Request) :
  Forall (fun r => isPartCopy r = true) new ->
  length (partRanges new) = length new.
Proof.
  induction 1 as [|r new Hr _ IH]; [reflexivity|].
  destruct r; try discriminate. cbn. f_equal. exact IH.
Qed.

(** X2.  [copyToMultiPart] always comes to an end, and a run sends at
    most one part copy more than the manifest has slots, whatever the
    service answers and whatever the sizes are (also when the byte
    position wraps around): every part copy but the last one of a run
    has filled a slot of its own. *)
Theorem copyToMultiPart_part_copies_bounded (c : S3Copier)
    (src dest : S3Object) (log new : list s3.Request)
    (out : Outcome (option error)) :
  copyToMultiPart c src dest log = (out, log ++ new) ->
  out <> Timeout
  /\ (partRanges new = []
      \/ exists head objectSize slots,
           s3.HeadObject (s3client c) log
             (s3.HeadObjectInput.mk (bucket src) (key src)) = Ok head
           /\ s3.HeadObjectOutput.ContentLength head = Some objectSize
           /\ partsSize objectSize (partSize c) = Some slots
           /\ 0 <= slots
           /\ Z.of_nat (length (partRanges new)) <= slots + 1).
Proof.
  intros H. split.
  { pose proof (copyToMultiPart_no_timeout c src dest log) as Hno.
    rewrite H in Hno. exact Hno. }
  rewrite copyToMultiPart_unfold in H. cbn zeta in H.
  assert (Hone : forall (x : Outcome (option error)) (r : s3.Request),
             isPartCopy r = false ->
             (x, log ++ [r]) = (out, log ++ new) -> partRanges new = []).
  { intros x r Hr [= _ Heq]. apply app_inv_head in Heq. subst new.
    destruct r; (discriminate || reflexivity). }
  assert (Htwo : forall (x : Outcome (option error)) (r r' : s3.Request),
             isPartCopy r = false -> isPartCopy r' = false ->
             (x, (log ++ [r]) ++ [r']) = (out, log ++ new) ->
             partRanges new = []).
  { intros x r r' Hr Hr' [= _ Heq]. rewrite <- app_assoc in Heq.
    apply app_inv_head in Heq. subst new.
    destruct r; try discriminate; destruct r'; (discriminate || reflexivity). }
  destruct (s3.HeadObject _ _ _) as [head|err] eqn:Hhead;
    [|left; refine (Hone _ _ _ H); reflexivity].
  destruct (s3.CreateMultipartUpload _ _ _) as [init|err];
    [|left; refine (Htwo _ _ _ _ _ H); reflexivity].
  destruct (s3.HeadObjectOutput.ContentLength head) as [objectSize|] eqn:Hsize;
    [|left; refine (Htwo _ _ _ _ _ H); reflexivity].
  rewrite copyAndComplete_unfold in H.
  destruct (partsSize _ _) as [n|] eqn:Hn;
    [|left; refine (Htwo _ _ _ _ _ H); reflexivity].
  destruct (makeslice_ok n) eqn:Hfit;
    [|left; refine (Htwo _ _ _ _ _ H); reflexivity].
  apply makeslice_ok_spec in Hfit as [Hpos _].
  cbn zeta in H. pose proof (partsSize_range _ _ _ Hn) as [_ Hmax].
  right. exists head, objectSize, n.
  repeat (split; [assumption || reflexivity|]).
  destruct (copyParts _ _ _ _ _ _ _ _ _ _) as [loopOut log3] eqn:Hloop.
  apply copyParts_request_bound in Hloop as (parts & -> & Hparts & Hbound).
  2: { unfold Int64.InRange, Int64.min, Int64.max. lia. }
  2: { rewrite length_replicate. lia. }
  rewrite length_replicate in Hbound. change (1 <=? 1) with true in Hbound.
  cbv iota in Hbound.
  assert (Hcount : forall tail,
             partRanges tail = [] ->
             Z.of_nat
               (length
                  (partRanges
                     (headRequest src
                        :: s3.ReqCreateMultipartUpload (createInput dest head)
                        :: parts ++ tail))) <= n + 1).
  { intros tail Htail.
    change (partRanges (headRequest src :: ?r :: ?l)) with (partRanges l).
    rewrite partRanges_app, Htail, app_nil_r, partRanges_length by assumption.
    lia. }
  destruct loopOut as [[err|done']|p|]; injection H as _ Heq;
    rewrite <- ?app_assoc in Heq; apply app_inv_head in Heq;
    cbn [app] in Heq; subst new.
  - rewrite <- (app_nil_r parts). apply Hcount. reflexivity.
  - apply Hcount. reflexivity.
  - rewrite <- (app_nil_r parts). apply Hcount. reflexivity.
  - rewrite <- (app_nil_r parts). apply Hcount. reflexivity.
Qed.

Lemma copyToMultiPart_part_copies_bounded_witness :
  let c := NewS3Copier (exampleService (12 * MiB) (quoted "abc123") 0) in
  let run := copyToMultiPart c exampleSrc exampleDest [] in
  fst run <> Timeout
  /\ (partRanges (snd run) = []
      \/ exists head objectSize slots,
           s3.HeadObject (s3client c) []
             (s3.HeadObjectInput.mk (bucket exampleSrc) (key exampleSrc))
           = Ok head
           /\ s3.HeadObjectOutput.ContentLength head = Some objectSize
           /\ partsSize objectSize (partSize c) = Some slots
           /\ 0 <= slots
           /\ Z.of_nat (length (partRanges (snd run))) <= slots + 1).
Proof.
  intros c run.
  apply (copyToMultiPart_part_copies_bounded c exampleSrc exampleDest []
           (snd run) (fst run)).
  apply surjective_pairing.
Defined.

(** ** The result is the answer to the last request *)

Lemma accepted_app (client : s3.S3) (new new' : list s3.Request) :
  forall history,
    accepted client history (new ++ new')
    = accepted client history new && accepted client (history ++ new) new'.
Proof.
  induction new as [|r new IH]; intros history.
  - cbn. rewrite app_nil_r. reflexivity.
  - cbn [app accepted]. destruct (replyError client history r).
    + reflexivity.
    + rewrite IH, <- app_assoc. reflexivity.
Qed.

Lemma accepted_cons (client : s3.S3) (history : list s3.Request)
    (r : s3.Request) (new : list s3.Request) :
  replyError client history r = None ->
  accepted client (history ++ [r]) new = true ->
  accepted client history (r :: new) = true.
Proof. intros Hr Hnew. cbn. rewrite Hr. exact Hnew. Qed.

(** The loop: it goes on only after a part copy that succeeded, returns
    only after one that was refused, and panics only after one that
    succeeded. *)
Lemma copyParts_replies (fuel : nat) (c : S3Copier) (src dest : S3Object)
    (uploadId : option string) (objectSize : Z) :
  forall bytePosition partNum completedParts log out log',
    copyParts fuel c src dest uploadId objectSize bytePosition partNum
      completedParts log = (out, log') ->
    exists new,
      log' = log ++ new
      /\ match out with
         | Ret (Finished _) | Timeout => accepted (s3client c) log new = true
         | Ret (Returned err) =>
             err = None
             /\ exists before last,
                  new = before ++ [last]
                  /\ isPartCopy last = true
                  /\ accepted (s3client c) log before = true
                  /\ replyError (s3client c) (log ++ before) last <> None
         | Panic _ =>
             exists before last,
               new = before ++ [last]
               /\ isPartCopy last = true
               /\ accepted (s3client c) log before = true
               /\ replyError (s3client c) (log ++ before) last = None
         end.
Proof.
  induction fuel as [|fuel IH]; intros bp pn parts log out log' H.
  - cbn in H. injection H as <- <-. exists []. rewrite app_nil_r.
    split; reflexivity.
  - assert (Hpanic : forall partResult,
               s3.UploadPartCopy (s3client c) log
                 (uploadPartCopyInput pn src dest bp
                    (lastByteOf objectSize (partSize c) bp) uploadId)
               = Ok partResult ->
               exists before last,
                 [s3.ReqUploadPartCopy
                    (uploadPartCopyInput pn src dest bp
                       (lastByteOf objectSize (partSize c) bp) uploadId)]
                 = before ++ [last]
                 /\ isPartCopy last = true
                 /\ accepted (s3client c) log before = true
                 /\ replyError (s3client c) (log ++ before) last = None).
    { intros partResult Hcall. exists [], (s3.ReqUploadPartCopy
        (uploadPartCopyInput pn src dest bp
           (lastByteOf objectSize (partSize c) bp) uploadId)).
      repeat (split; [reflexivity|]). rewrite app_nil_r. cbn.
      rewrite Hcall. reflexivity. }
    copyParts_cases H.
    + apply IH in H as (new & -> & Hout).
      assert (Hreq : replyError (s3client c) log
                       (s3.ReqUploadPartCopy
                          (uploadPartCopyInput pn src dest bp
                             (lastByteOf objectSize (partSize c) bp)
                             uploadId)) = None).
      { cbn. rewrite Hcall. reflexivity. }
      eexists (_ :: new). rewrite <- app_assoc. split; [reflexivity|].
      destruct out as [[err|done']|p|].
      * destruct Hout as (-> & before & last & -> & Hlast & Hacc & Hrefused).
        split; [reflexivity|]. eexists (_ :: before), last.
        split; [reflexivity|]. split; [assumption|].
        split; [apply accepted_cons; assumption|].
        rewrite <- app_assoc in Hrefused. exact Hrefused.
      * apply accepted_cons; assumption.
      * destruct Hout as (before & last & -> & Hlast & Hacc & Hok).
        eexists (_ :: before), last.
        split; [reflexivity|]. split; [assumption|].
        split; [apply accepted_cons; assumption|].
        rewrite <- app_assoc in Hok. exact Hok.
      * apply accepted_cons; assumption.
    + injection H as <- <-. eexists. split; [reflexivity|].
      exact (Hpanic _ Hcall).
    + injection H as <- <-. eexists. split; [reflexivity|].
      exact (Hpanic _ Hcall).
    + injection H as <- <-. eexists. split; [reflexivity|].
      exact (Hpanic _ Hcall).
    + injection H as <- <-. eexists. split; [reflexivity|].
      exact (Hpanic _ Hcall).
    + injection H as <- <-. eexists. split; [reflexivity|].
      split; [reflexivity|]. eexists [], _. split; [reflexivity|].
      split; [reflexivity|]. split; [reflexivity|].
      rewrite app_nil_r. cbn. rewrite Hcall. discriminate.
    + injection H as <- <-. exists []. rewrite app_nil_r.
      split; reflexivity.
Qed.

Lemma LastAnswer_prepend (client : s3.S3) (log pre new : list s3.Request)
    (out : Outcome (option error)) :
  accepted client log pre = true ->
  LastAnswer client (log ++ pre) new out ->
  LastAnswer client log (pre ++ new) out.
Proof.
  intros Hpre (before & last & -> & Hacc & Hout).
  exists (pre ++ before), last. rewrite app_assoc. split; [reflexivity|].
  rewrite accepted_app, Hpre, Hacc. split; [reflexivity|].
  rewrite app_assoc. exact Hout.
Qed.

Lemma LastAnswer_panic (client : s3.S3) (log pre : list s3.Request)
    (r : s3.Request) (p : PanicKind) :
  accepted client log pre = true ->
  replyError client (log ++ pre) r = None ->
  LastAnswer client log (pre ++ [r]) (Panic p).
Proof. intros Hpre Hr. exists pre, r. repeat split; assumption. Qed.

Lemma LastAnswer_ret (client : s3.S3) (log pre : list s3.Request)
    (r : s3.Request) :
  accepted client log pre = true ->
  isPartCopy r = false ->
  LastAnswer client log (pre ++ [r]) (Ret (replyError client (log ++ pre) r)).
Proof.
  intros Hpre Hr. exists pre, r. split; [reflexivity|].
  split; [assumption|]. rewrite Hr. reflexivity.
Qed.

(** The part of [copyToMultiPart] after the upload has been created:
    without a request it can only panic (no slice of that length). *)
Lemma copyAndComplete_replies (c : S3Copier) (src dest : S3Object)
    (uploadId : option string) (objectSize : Z) (log : list s3.Request)
    (out : Outcome (option error)) (log' : list s3.Request) :
  copyAndComplete c src dest uploadId objectSize log = (out, log') ->
  exists new,
    log' = log ++ new
    /\ (new = [] /\ out = Panic MakesliceLenOutOfRange
        \/ LastAnswer (s3client c) log new out
           /\ (out = Ret None ->
               exists before last,
                 new = before ++ [last]
                 /\ isPartCopy last || isComplete last = true)).
Proof.
  intros H.
  pose proof (copyAndComplete_no_timeout c src dest uploadId objectSize log)
    as Hno. rewrite H in Hno. cbn [fst] in Hno.
  rewrite copyAndComplete_unfold in H.
  assert (Hmake : (Panic MakesliceLenOutOfRange, log) = (out, log') ->
            exists new,
              log' = log ++ new
              /\ (new = [] /\ out = Panic MakesliceLenOutOfRange
                  \/ LastAnswer (s3client c) log new out
                     /\ (out = Ret None ->
                         exists before last,
                           new = before ++ [last]
                           /\ isPartCopy last || isComplete last = true))).
  { intros [= <- <-]. exists []. rewrite app_nil_r. split; [reflexivity|].
    left. split; reflexivity. }
  destruct (partsSize _ _) as [n|]; [|exact (Hmake H)].
  destruct (makeslice_ok n); [|exact (Hmake H)]. clear Hmake. cbn zeta in H.
  destruct (copyParts _ _ _ _ _ _ _ _ _ _) as [loopOut log1] eqn:Hloop.
  apply copyParts_replies in Hloop as (new & -> & Hout).
  destruct loopOut as [[err|done']|p|]; injection H as <- <-.
  - destruct Hout as (-> & before & last & -> & Hlast & Hacc & Hrefused).
    eexists. split; [reflexivity|]. right. split.
    + exists before, last. rewrite Hlast. repeat split; assumption.
    + intros _. exists before, last. rewrite Hlast. split; reflexivity.
  - eexists (new ++ [_]). rewrite app_assoc. split; [reflexivity|]. right.
    split.
    + apply (LastAnswer_ret (s3client c) log new
               (s3.ReqCompleteMultipartUpload _)); [assumption | reflexivity].
    + intros _. eexists new, _. split; reflexivity.
  - destruct Hout as (before & last & -> & Hlast & Hacc & Hok).
    eexists. split; [reflexivity|]. right. split.
    + apply LastAnswer_panic; assumption.
    + discriminate.
  - contradiction.
Qed.

Lemma copyToMultiPart_replies (c : S3Copier) (src dest : S3Object)
    (log : list s3.Request) (out : Outcome (option error))
    (log' : list s3.Request) :
  copyToMultiPart c src dest log = (out, log') ->
  exists new,
    log' = log ++ new
    /\ LastAnswer (s3client c) log new out
    /\ (out = Ret None ->
        exists before last,
          new = before ++ [last]
          /\ isPartCopy last || isComplete last = true).
Proof.
  intros H. rewrite copyToMultiPart_unfold in H. cbn zeta in H.
  destruct (s3.HeadObject _ _ _) as [head|err] eqn:Hhead.
  2: { injection H as <- <-. eexists. split; [reflexivity|]. split.
       - exists [], (headRequest src). split; [reflexivity|].
         split; [reflexivity|]. rewrite app_nil_r. cbn. rewrite Hhead.
         reflexivity.
       - discriminate. }
  assert (Hfirst : accepted (s3client c) log [headRequest src] = true).
  { cbn. rewrite Hhead. reflexivity. }
  destruct (s3.CreateMultipartUpload _ _ _) as [init|err] eqn:Hcreate.
  2: { injection H as <- <-. rewrite <- app_assoc.
       eexists. split; [reflexivity|]. split.
       - exists [headRequest src], (s3.ReqCreateMultipartUpload
                                      (createInput dest head)).
         split; [reflexivity|]. split; [assumption|]. cbn.
         rewrite Hcreate. reflexivity.
       - discriminate. }
  assert (Hsecond : accepted (s3client c) log
                      [headRequest src;
                       s3.ReqCreateMultipartUpload (createInput dest head)]
                    = true).
  { cbn. rewrite Hhead. cbn. rewrite Hcreate. reflexivity. }
  destruct (s3.HeadObjectOutput.ContentLength head) as [objectSize|].
  2: { injection H as <- <-. rewrite <- app_assoc.
       eexists. split; [reflexivity|]. split; [|discriminate].
       apply (LastAnswer_panic (s3client c) log [headRequest src]
                (s3.ReqCreateMultipartUpload (createInput dest head)));
         [assumption|]. cbn. rewrite Hcreate. reflexivity. }
  apply copyAndComplete_replies in H as (new & -> & Hnew).
  rewrite <- !app_assoc. cbn [app]. eexists. split; [reflexivity|].
  destruct Hnew as [[-> ->] | [Hlast Hkind]].
  - split; [|discriminate].
    apply (LastAnswer_panic (s3client c) log [headRequest src]
             (s3.ReqCreateMultipartUpload (createInput dest head)));
      [assumption|]. cbn. rewrite Hcreate. reflexivity.
  - split.
    + apply (LastAnswer_prepend (s3client c) log [_; _] new out);
        [assumption|]. rewrite <- app_assoc in Hlast. exact Hlast.
    + intros Hnil. destruct (Hkind Hnil) as (before & last & -> & Hk).
      eexists (_ :: _ :: before), last. split; [reflexivity | assumption].
Qed.

(** X3.  When [copyToMultiPart] returns, every request it sent but the
    last one succeeded.  A returned error is the error the service
    answered to the last request, which is not a part copy.  Nil is
    returned in two cases only: the last request is the completion call
    and it succeeded, or the last request is a part copy that the
    service refused. *)
Theorem copyToMultiPart_result (c : S3Copier) (src dest : S3Object)
    (log new : list s3.Request) (result : option error) :
  copyToMultiPart c src dest log = (Ret result, log ++ new) ->
  exists (before : list s3.Request) (last : s3.Request),
    new = before ++ [last]
    /\ accepted (s3client c) log before = true
    /\ match result with
       | Some err =>
           isPartCopy last = false
           /\ replyError (s3client c) (log ++ before) last = Some err
       | None =>
           isComplete last = true
           /\ replyError (s3client c) (log ++ before) last = None
           \/ isPartCopy last = true
              /\ replyError (s3client c) (log ++ before) last <> None
       end.
Proof.
  intros H. apply copyToMultiPart_replies in H as (new' & Heq & Hlast & Hkind).
  apply app_inv_head in Heq. subst new'.
  destruct Hlast as (before & last & -> & Hacc & Hout).
  exists before, last. split; [reflexivity|]. split; [assumption|].
  destruct result as [err|].
  - destruct (isPartCopy last); [destruct Hout; discriminate|].
    split; [reflexivity | symmetry; exact Hout].
  - destruct (Hkind eq_refl) as (before' & last' & Heq & Hk).
    apply app_inj_tail in Heq as [<- <-].
    destruct (isPartCopy last).
    + right. split; [reflexivity | apply Hout].
    + left. split; [exact Hk | symmetry; exact Hout].
Qed.

Lemma copyToMultiPart_result_witness :
  let c := NewS3Copier (exampleService (12 * MiB) (quoted "abc123") 2) in
  exists (before : list s3.Request) (last : s3.Request),
    snd (copyToMultiPart c exampleSrc exampleDest []) = before ++ [last]
    /\ accepted (s3client c) [] before = true
    /\ (isComplete last = true
        /\ replyError (s3client c) ([] ++ before) last = None
        \/ isPartCopy last = true
           /\ replyError (s3client c) ([] ++ before) last <> None).
Proof.
  intros c.
  apply (copyToMultiPart_result c exampleSrc exampleDest []
           (snd (copyToMultiPart c exampleSrc exampleDest [])) None).
  vm_compute. reflexivity.
Defined.

(** X4.  [CopyTo] ends the same way, whichever way it copies: every
    request but the last one succeeded; a returned value is the answer
    of the service to the last request, except that a refused part copy
    gives nil; a panic follows a request that succeeded; and the call
    always comes to an end. *)
Theorem CopyTo_last_answer (c : S3Copier) (src dest : S3Object)
    (log new : list s3.Request) (out : Outcome (option error)) :
  CopyTo c src dest log = (out, log ++ new) ->
  LastAnswer (s3client c) log new out.
Proof.
  intros H. rewrite CopyTo_unfold in H. cbn zeta in H.
  destruct (s3.HeadObject _ _ _) as [head|err] eqn:Hhead.
  { assert (Hfirst : accepted (s3client c) log [headRequest src] = true).
    { cbn. rewrite Hhead. reflexivity. }
    assert (Hcopy : forall pre,
               accepted (s3client c) log pre = true ->
               (exists pre' r,
                   pre = pre' ++ [r]
                   /\ replyError (s3client c) (log ++ pre') r = None) ->
               match s3.HeadObjectOutput.ContentLength head with
               | Some objectSize =>
                   if objectSize <=? FIVE_MB
                   then copyToSinglePart c src dest (log ++ pre)
                   else copyToMultiPart c src dest (log ++ pre)
               | None => (Panic NilDereference, log ++ pre)
               end = (out, log ++ new) ->
               LastAnswer (s3client c) log new out).
    { intros pre Hpre Hend Hrun.
      destruct (s3.HeadObjectOutput.ContentLength head) as [objectSize|].
      - destruct (objectSize <=? FIVE_MB).
        + unfold copyToSinglePart, call in Hrun. cbn zeta in Hrun.
          injection Hrun as <- Heq. rewrite <- app_assoc in Heq.
          apply app_inv_head in Heq. subst new.
          apply (LastAnswer_ret (s3client c) log pre
                   (s3.ReqCopyObject (copyToSinglePartInput src dest)));
            [assumption | reflexivity].
        + apply copyToMultiPart_replies in Hrun as (new' & Heq & Hlast & _).
          rewrite <- app_assoc in Heq. apply app_inv_head in Heq. subst new.
          apply LastAnswer_prepend; assumption.
      - injection Hrun as <- Heq. apply app_inv_head in Heq. subst new.
        destruct Hend as (pre' & r & -> & Hr).
        rewrite accepted_app in Hpre.
        apply andb_true_iff in Hpre as [Hpre' _].
        apply LastAnswer_panic; assumption. }
    destruct (HasSuffix (key src) ".m3u8").
    - destruct (s3.CopyObject _ _ _) as [err|] eqn:Hrewrite.
      + injection H as <- Heq. rewrite <- app_assoc in Heq.
        apply app_inv_head in Heq. subst new.
        exists [headRequest src],
          (s3.ReqCopyObject (ensureContentTypeM3u8Input src)).
        split; [reflexivity|]. split; [assumption|]. cbn.
        rewrite Hrewrite. reflexivity.
      + rewrite <- app_assoc in H. apply Hcopy in H; [assumption | |].
        * cbn. rewrite Hhead. cbn. rewrite Hrewrite. reflexivity.
        * exists [headRequest src],
            (s3.ReqCopyObject (ensureContentTypeM3u8Input src)).
          split; [reflexivity|]. cbn. exact Hrewrite.
    - apply Hcopy in H; [assumption | assumption |].
      exists [], (headRequest src). split; [reflexivity|].
      rewrite app_nil_r. cbn. rewrite Hhead. reflexivity. }
  injection H as <- Heq. apply app_inv_head in Heq. subst new.
  exists [], (headRequest src). split; [reflexivity|].
  split; [reflexivity|]. rewrite app_nil_r. cbn. rewrite Hhead. reflexivity.
Qed.

Lemma CopyTo_last_answer_witness :
  let c := NewS3Copier (exampleService (12 * MiB) (quoted "abc123") 0) in
  LastAnswer (s3client c) []
    (snd (CopyTo c exampleSrc exampleDest []))
    (fst (CopyTo c exampleSrc exampleDest [])).
Proof.
  intros c.
  apply (CopyTo_last_answer c exampleSrc exampleDest []).
  apply surjective_pairing.
Defined.

(** ** Runs in which every call succeeds *)

Lemma copyParts_cooperative (c : S3Copier) (src dest : S3Object)
    (uploadId : option string) (objectSize : Z) :
  0 < objectSize -> 0 < partSize c ->
  ceilDiv objectSize (partSize c) * partSize c <= Int64.max ->
  ceilDiv objectSize (partSize c) <= maxParts ->
  (forall history input,
      1 <= s3.UploadPartCopyInput.PartNumber input <= maxParts ->
      exists etag,
        s3.UploadPartCopy (s3client c) history input
        = Ok (s3.UploadPartCopyOutput.mk
                (Some (s3.CopyPartResult.mk (Some etag))))
        /\ 2 <= len etag) ->
  forall (n : nat) (i partNum : Z) (fuel : nat) completedParts log,
    0 <= i -> i + Z.of_nat n = ceilDiv objectSize (partSize c) ->
    (n < fuel)%nat -> (n <> 0%nat -> partNum = i + 1) ->
    Z.of_nat (length completedParts) = ceilDiv objectSize (partSize c) ->
    exists completedParts' log',
      copyParts fuel c src dest uploadId objectSize (i * partSize c) partNum
        completedParts log = (Ret (Finished completedParts'), log').
Proof.
  intros Hos Hps Hmax Hcount Hparts.
  pose proof (ceilDiv_bounds objectSize (partSize c) Hps) as Hb.
  unfold Int64.max in Hmax.
  induction n as [|n IH]; intros i partNum fuel parts log Hi HN Hfuel Hnum Hlen;
    (destruct fuel as [|fuel]; [lia|]); rewrite copyParts_unfold.
  - destruct (Z.ltb_spec (i * partSize c) objectSize) as [Hlt|Hge]; [nia|].
    eauto.
  - destruct (Z.ltb_spec (i * partSize c) objectSize) as [Hlt|Hge]; [|nia].
    rewrite Hnum by lia. cbn zeta.
    destruct (Hparts log
                (uploadPartCopyInput (i + 1) src dest (i * partSize c)
                   (lastByteOf objectSize (partSize c) (i * partSize c))
                   uploadId)) as (etag & -> & Hetag); [cbn; lia|].
    cbn [s3.UploadPartCopyOutput.CopyPartResult s3.CopyPartResult.ETag].
    rewrite stripQuotes_long by assumption.
    assert (Hsub : Int64.sub (i + 1) 1 = i).
    { unfold Int64.sub. rewrite wrap_in_range; [lia|].
      unfold Int64.InRange, Int64.min, Int64.max. nia. }
    assert (Hpos : Int64.add (i * partSize c) (partSize c)
                   = (i + 1) * partSize c).
    { unfold Int64.add. rewrite wrap_in_range; [lia|].
      unfold Int64.InRange, Int64.min, Int64.max. nia. }
    rewrite Hsub, Hpos.
    destruct (Z.leb_spec 0 i); [|lia].
    destruct (Z.ltb_spec i (Z.of_nat (length parts))); [|lia].
    cbn [andb]. apply IH; try lia.
    + intros Hn. unfold Int64.add. rewrite wrap_in_range; [lia|].
      unfold Int64.InRange, Int64.min, Int64.max. nia.
    + rewrite length_insert. assumption.
Qed.

Lemma copyAndComplete_cooperative (c : S3Copier) (src dest : S3Object)
    (uploadId : option string) (objectSize : Z) (log : list s3.Request) :
  Cooperative (s3client c) objectSize ->
  0 <= objectSize < 2 ^ 53 -> 0 < partSize c < 2 ^ 53 ->
  ceilDiv objectSize (partSize c) <= maxParts ->
  exists cps : list s3.CompletedPart.t,
    copyAndComplete c src dest uploadId objectSize log
    = (Ret None,
       log
       ++ map (partRequest src dest uploadId)
            (map (plannedPart objectSize (partSize c))
               (seqZ 0 (ceilDiv objectSize (partSize c))))
       ++ [s3.ReqCompleteMultipartUpload
             (completeMultipartUploadInput dest (map Some cps) uploadId)])
    /\ map s3.CompletedPart.PartNumber cps
       = seqZ 1 (ceilDiv objectSize (partSize c)).
Proof.
  intros (_ & _ & _ & Hparts & Hcomplete) Hos Hps Hcount.
  destruct (Z.eq_dec objectSize 0) as [-> | Hne].
  { exists []. rewrite copyAndComplete_unfold, partsSize_zero by assumption.
    cbn. rewrite Hcomplete. unfold ceilDiv. rewrite Z.div_small by lia.
    split; reflexivity. }
  assert (Hmax : ceilDiv objectSize (partSize c) * partSize c <= Int64.max).
  { pose proof (ceilDiv_bounds objectSize (partSize c) (proj1 Hps)).
    unfold Int64.max. lia. }
  pose proof (planned_count_pos objectSize (partSize c)
                ltac:(lia) (proj1 Hps)) as HN.
  destruct (copyAndComplete c src dest uploadId objectSize log)
    as [out log'] eqn:Hrun.
  pose proof Hrun as Hrun'. rewrite copyAndComplete_unfold in Hrun'.
  rewrite partsSize_exact in Hrun' by lia.
  assert (Hfit : makeslice_ok (ceilDiv objectSize (partSize c)) = true).
  { apply makeslice_ok_spec.
    unfold pointerSize, maxAlloc. unfold maxParts in Hcount. lia. }
  rewrite Hfit in Hrun'. cbn zeta in Hrun'.
  destruct (copyParts_cooperative c src dest uploadId objectSize
              ltac:(lia) (proj1 Hps) Hmax Hcount Hparts
              (Z.to_nat (ceilDiv objectSize (partSize c))) 0 1
              (S (length (replicate
                            (Z.to_nat (ceilDiv objectSize (partSize c)))
                            (@None s3.CompletedPart.t))))
              (replicate (Z.to_nat (ceilDiv objectSize (partSize c))) None)
              log)
    as (parts' & log1 & Hloop);
    try (rewrite ?length_replicate; lia).
  change (0 * partSize c) with 0 in Hloop.
  rewrite Hloop, Hcomplete in Hrun'. injection Hrun' as <- <-.
  apply copyParts_log in Hloop as (new & -> & _).
  rewrite <- app_assoc in Hrun.
  destruct (copyAndComplete_manifest c src dest uploadId objectSize log _ _
              (completeMultipartUploadInput dest parts' uploadId) Hrun)
    as (slots & ds & cps & Hslots & Hds & Hnew & _ & Hcps & _ & Hinput).
  { apply in_or_app. right. left. reflexivity. }
  rewrite partsSize_exact in Hslots by lia. injection Hslots as <-.
  rewrite plannedParts_closed_form in Hds by lia. injection Hds as <-.
  rewrite !length_map, length_seqZ, Z2Nat.id in Hcps by lia.
  rewrite !length_map, length_seqZ, Nat.sub_diag in Hinput.
  cbn [replicate] in Hinput. rewrite app_nil_r in Hinput.
  exists cps. split; [|assumption].
  rewrite <- app_assoc, Hnew, Hinput. reflexivity.
Qed.

Lemma copyToMultiPart_cooperative_run (c : S3Copier) (src dest : S3Object)
    (objectSize : Z) (log : list s3.Request) :
  Cooperative (s3client c) objectSize ->
  0 <= objectSize < 2 ^ 53 -> 0 < partSize c < 2 ^ 53 ->
  ceilDiv objectSize (partSize c) <= maxParts ->
  exists (head : s3.HeadObjectOutput.t)
         (init : s3.CreateMultipartUploadOutput.t)
         (cps : list s3.CompletedPart.t),
    copyToMultiPart c src dest log
    = (Ret None,
       log ++ multiPartRequests (partSize c) src dest head
                (s3.CreateMultipartUploadOutput.UploadId init)
                objectSize cps)
    /\ map s3.CompletedPart.PartNumber cps
       = seqZ 1 (ceilDiv objectSize (partSize c)).
Proof.
  intros Hco Hos Hps Hcount. pose proof Hco as (Hhead & _ & Hcreate & _).
  destruct (Hhead log (s3.HeadObjectInput.mk (bucket src) (key src)))
    as (head & Hh & Hsize).
  destruct (Hcreate (log ++ [headRequest src]) (createInput dest head))
    as (init & Hc).
  destruct (copyAndComplete_cooperative c src dest
              (s3.CreateMultipartUploadOutput.UploadId init) objectSize
              ((log ++ [headRequest src])
               ++ [s3.ReqCreateMultipartUpload (createInput dest head)])
              Hco Hos Hps Hcount) as (cps & Hrun & Hcps).
  exists head, init, cps. split; [|assumption].
  rewrite copyToMultiPart_unfold. cbn zeta. rewrite Hh, Hc, Hsize, Hrun.
  unfold multiPartRequests. rewrite <- !app_assoc. reflexivity.
Qed.

(** X5.  Total correctness of [copyToMultiPart] on a service that
    accepts every call (part numbers 1 to 10000, as S3 does), for an
    object of 0 to below [2^53] bytes and a part size from 1 to below
    [2^53] that give at most 10000 parts: the call returns nil, without
    a panic, after exactly these requests: the metadata fetch, the
    creation of the upload, then for [i] from 0 to
    [ceil(objectSize / partSize) - 1], in this order, the copy of part
    [i + 1] with the bytes [i * partSize] to
    [min((i + 1) * partSize, objectSize) - 1], then the completion call,
    whose manifest holds the parts numbered 1 to
    [ceil(objectSize / partSize)] and no nil slot. *)
Theorem copyToMultiPart_cooperative (c : S3Copier) (src dest : S3Object)
    (objectSize : Z) (log : list s3.Request) :
  Cooperative (s3client c) objectSize ->
  0 <= objectSize < 2 ^ 53 -> 0 < partSize c < 2 ^ 53 ->
  ceilDiv objectSize (partSize c) <= maxParts ->
  exists (head : s3.HeadObjectOutput.t)
         (init : s3.CreateMultipartUploadOutput.t)
         (cps : list s3.CompletedPart.t),
    s3.HeadObject (s3client c) log
      (s3.HeadObjectInput.mk (bucket src) (key src)) = Ok head
    /\ s3.CreateMultipartUpload (s3client c) (log ++ [headRequest src])
         (createInput dest head) = Ok init
    /\ copyToMultiPart c src dest log
       = (Ret None,
          log ++ multiPartRequests (partSize c) src dest head
                   (s3.CreateMultipartUploadOutput.UploadId init)
                   objectSize cps)
    /\ map s3.CompletedPart.PartNumber cps
       = seqZ 1 (ceilDiv objectSize (partSize c)).
Proof.
  intros Hco Hos Hps Hcount. pose proof Hco as (Hhead & _ & Hcreate & _).
  destruct (Hhead log (s3.HeadObjectInput.mk (bucket src) (key src)))
    as (head & Hh & Hsize).
  destruct (Hcreate (log ++ [headRequest src]) (createInput dest head))
    as (init & Hc).
  destruct (copyAndComplete_cooperative c src dest
              (s3.CreateMultipartUploadOutput.UploadId init) objectSize
              ((log ++ [headRequest src])
               ++ [s3.ReqCreateMultipartUpload (createInput dest head)])
              Hco Hos Hps Hcount) as (cps & Hrun & Hcps).
  exists head, init, cps. repeat (split; [assumption|]).
  split; [|assumption].
  rewrite copyToMultiPart_unfold. cbn zeta. rewrite Hh, Hc, Hsize, Hrun.
  unfold multiPartRequests. rewrite <- !app_assoc. reflexivity.
Qed.

Lemma exampleService_cooperative (size : Z) (etag : string) :
  2 <= len etag -> Cooperative (exampleService size etag 0) size.
Proof.
  intros Hetag. repeat split; cbn.
  - intros _ _. eexists. split; reflexivity.
  - intros _ _. eexists. reflexivity.
  - intros _ input Hnum. exists etag.
    destruct (Z.eqb_spec (s3.UploadPartCopyInput.PartNumber input) 0); [lia|].
    split; [reflexivity | assumption].
Qed.

Lemma copyToMultiPart_cooperative_witness :
  let c := NewS3Copier (exampleService (12 * MiB) (quoted "abc123") 0) in
  exists (head : s3.HeadObjectOutput.t)
         (init : s3.CreateMultipartUploadOutput.t)
         (cps : list s3.CompletedPart.t),
    s3.HeadObject (s3client c) []
      (s3.HeadObjectInput.mk (bucket exampleSrc) (key exampleSrc)) = Ok head
    /\ s3.CreateMultipartUpload (s3client c) ([] ++ [headRequest exampleSrc])
         (createInput exampleDest head) = Ok init
    /\ copyToMultiPart c exampleSrc exampleDest []
       = (Ret None,
          [] ++ multiPartRequests (partSize c) exampleSrc exampleDest head
                  (s3.CreateMultipartUploadOutput.UploadId init)
                  (12 * MiB) cps)
    /\ map s3.CompletedPart.PartNumber cps
       = seqZ 1 (ceilDiv (12 * MiB) (partSize c)).
Proof.
  intros c.
  apply (copyToMultiPart_cooperative c exampleSrc exampleDest (12 * MiB) []).
  - apply exampleService_cooperative. vm_compute. discriminate.
  - vm_compute. split; [discriminate | reflexivity].
  - vm_compute. split; reflexivity.
  - vm_compute. discriminate.
Defined.

(** X6.  Total correctness of [CopyTo] on a service that accepts every
    call (part numbers 1 to 10000, as S3 does) and reports [objectSize]
    bytes, below [2^53] and, when above [FIVE_MB], in at most 10000
    parts: the call returns nil after the metadata fetch, the rewrite when the key ends in
    [.m3u8], and then, for at most [FIVE_MB] bytes, the one [CopyObject]
    to the destination, or else exactly the requests of the multi-part
    copy of the whole object. *)
Theorem CopyTo_cooperative (c : S3Copier) (src dest : S3Object)
    (objectSize : Z) (log : list s3.Request) :
  Cooperative (s3client c) objectSize ->
  objectSize < 2 ^ 53 -> 0 < partSize c < 2 ^ 53 ->
  (FIVE_MB < objectSize -> ceilDiv objectSize (partSize c) <= maxParts) ->
  exists new : list s3.Request,
    CopyTo c src dest log = (Ret None, log ++ selectorRequests src ++ new)
    /\ if objectSize <=? FIVE_MB
       then new = [s3.ReqCopyObject (copyToSinglePartInput src dest)]
       else exists (head : s3.HeadObjectOutput.t)
                   (init : s3.CreateMultipartUploadOutput.t)
                   (cps : list s3.CompletedPart.t),
           new = multiPartRequests (partSize c) src dest head
                   (s3.CreateMultipartUploadOutput.UploadId init)
                   objectSize cps
           /\ map s3.CompletedPart.PartNumber cps
              = seqZ 1 (ceilDiv objectSize (partSize c)).
Proof.
  intros Hco Hos Hps Hcount. pose proof Hco as (Hhead & Hcopy & _).
  destruct (Hhead log (s3.HeadObjectInput.mk (bucket src) (key src)))
    as (head & Hh & Hsize).
  assert (Hdata : forall log2,
             exists new,
               (if objectSize <=? FIVE_MB
                then copyToSinglePart c src dest log2
                else copyToMultiPart c src dest log2)
               = (Ret None, log2 ++ new)
               /\ if objectSize <=? FIVE_MB
                  then new = [s3.ReqCopyObject (copyToSinglePartInput src dest)]
                  else exists (head : s3.HeadObjectOutput.t)
                              (init : s3.CreateMultipartUploadOutput.t)
                              (cps : list s3.CompletedPart.t),
                      new = multiPartRequests (partSize c) src dest head
                              (s3.CreateMultipartUploadOutput.UploadId init)
                              objectSize cps
                      /\ map s3.CompletedPart.PartNumber cps
                         = seqZ 1 (ceilDiv objectSize (partSize c))).
  { intros log2. destruct (Z.leb_spec objectSize FIVE_MB) as [Hsmall|Hbig].
    - eexists. split; [|reflexivity].
      unfold copyToSinglePart, call. cbn zeta. rewrite Hcopy. reflexivity.
    - specialize (Hcount Hbig). unfold FIVE_MB in Hbig.
      destruct (copyToMultiPart_cooperative_run c src dest objectSize log2
                  Hco ltac:(lia) Hps Hcount)
        as (head' & init & cps & Hrun & Hcps).
      eexists. split; [exact Hrun|]. exists head', init, cps.
      split; [reflexivity | assumption]. }
  rewrite CopyTo_unfold. cbn zeta. rewrite Hh, Hsize.
  unfold selectorRequests. destruct (HasSuffix (key src) ".m3u8").
  - rewrite Hcopy.
    destruct (Hdata ((log ++ [headRequest src])
                     ++ [s3.ReqCopyObject (ensureContentTypeM3u8Input src)]))
      as (new & -> & Hnew).
    exists new. rewrite <- !app_assoc. split; [reflexivity | assumption].
  - destruct (Hdata (log ++ [headRequest src])) as (new & -> & Hnew).
    exists new. rewrite <- !app_assoc. split; [reflexivity | assumption].
Qed.

Lemma CopyTo_cooperative_witness :
  let c := NewS3Copier (exampleService (12 * MiB) (quoted "abc123") 0) in
  exists new : list s3.Request,
    CopyTo c exampleSrc exampleDest []
    = (Ret None, [] ++ selectorRequests exampleSrc ++ new)
    /\ if 12 * MiB <=? FIVE_MB
       then new = [s3.ReqCopyObject
                     (copyToSinglePartInput exampleSrc exampleDest)]
       else exists (head : s3.HeadObjectOutput.t)
                   (init : s3.CreateMultipartUploadOutput.t)
                   (cps : list s3.CompletedPart.t),
           new = multiPartRequests (partSize c) exampleSrc exampleDest head
                   (s3.CreateMultipartUploadOutput.UploadId init)
                   (12 * MiB) cps
           /\ map s3.CompletedPart.PartNumber cps
              = seqZ 1 (ceilDiv (12 * MiB) (partSize c)).
Proof.
  intros c.
  apply (CopyTo_cooperative c exampleSrc exampleDest (12 * MiB) []).
  - apply exampleService_cooperative. vm_compute. discriminate.
  - vm_compute. reflexivity.
  - vm_compute. split; reflexivity.
  - intros _. vm_compute. discriminate.
Defined.

(** ** The extension test *)

Lemma substring_whole (s : string) : substring 0 (String.length s) s = s.
Proof. induction s as [|a s IH]; simpl; congruence. Qed.

Lemma substring_suffix (p s : string) :
  substring (String.length p) (String.length s) (String.append p s) = s.
Proof. induction p as [|a p IH]; simpl; [apply substring_whole | exact IH]. Qed.

Lemma substring_split (s : string) :
  forall n : nat,
    (n <= String.length s)%nat ->
    s = String.append (substring 0 n s)
          (substring n (String.length s - n) s).
Proof.
  induction s as [|a s IH]; intros n Hn.
  - destruct n; reflexivity.
  - destruct n as [|n].
    + cbn [substring String.append]. cbn [String.length Nat.sub].
      rewrite substring_whole. reflexivity.
    + cbn [substring String.append String.length Nat.sub]. f_equal.
      apply IH. cbn [String.length] in Hn. lia.
Qed.

Lemma HasSuffix_spec (s suffix : string) :
  HasSuffix s suffix = true <-> exists stem, s = String.append stem suffix.
Proof.
  unfold HasSuffix, len. split.
  - intros H. apply andb_true_iff in H as [Hlen Heq].
    apply Z.leb_le in Hlen. apply String.eqb_eq in Heq.
    exists (substring 0 (String.length s - String.length suffix) s).
    rewrite (substring_split s (String.length s - String.length suffix))
      at 1 by lia.
    replace (String.length s - (String.length s - String.length suffix))%nat
      with (String.length suffix) by lia.
    rewrite Heq. reflexivity.
  - intros [stem ->]. rewrite length_append. apply andb_true_iff. split.
    + apply Z.leb_le. lia.
    + replace (String.length stem + String.length suffix
               - String.length suffix)%nat with (String.length stem) by lia.
      rewrite substring_suffix. apply String.eqb_refl.
Qed.

(** What [CopyTo] sends once the metadata fetch has succeeded: the
    requests before the copy, then requests none of which is a
    rewrite. *)
Lemma CopyTo_requests (c : S3Copier) (src dest : S3Object)
    (log : list s3.Request) (head : s3.HeadObjectOutput.t) :
  s3.HeadObject (s3client c) log
    (s3.HeadObjectInput.mk (bucket src) (key src)) = Ok head ->
  exists data,
    snd (CopyTo c src dest log) = log ++ selectorRequests src ++ data
    /\ Forall (fun r => isRewrite r = false) data.
Proof.
  intros Hhead. rewrite CopyTo_unfold. cbn zeta. rewrite Hhead.
  assert (Hcopy : forall log2,
             exists data,
               snd (match s3.HeadObjectOutput.ContentLength head with
                    | None => (Panic NilDereference, log2)
                    | Some objectSize =>
                        if objectSize <=? FIVE_MB
                        then copyToSinglePart c src dest log2
                        else copyToMultiPart c src dest log2
                    end) = log2 ++ data
               /\ Forall (fun r => isRewrite r = false) data).
  { intros log2.
    destruct (s3.HeadObjectOutput.ContentLength head) as [objectSize|].
    2: { exists []. rewrite app_nil_r. auto. }
    destruct (objectSize <=? FIVE_MB).
    - eexists [_]. split; [reflexivity|]. repeat constructor.
    - destruct (copyToMultiPart c src dest log2) as [out log'] eqn:Hrun.
      apply copyToMultiPart_log in Hrun as (new & -> & Hnew).
      eexists (_ :: new). split; [reflexivity|].
      constructor; [reflexivity|]. apply not_CopyObject_not_rewrite, Hnew. }
  unfold selectorRequests. destruct (HasSuffix (key src) ".m3u8").
  - destruct (s3.CopyObject _ _ _) as [err|].
    + exists []. rewrite <- app_assoc. split; [reflexivity | constructor].
    + destruct (Hcopy ((log ++ [headRequest src])
                       ++ [s3.ReqCopyObject (ensureContentTypeM3u8Input src)]))
        as (data & -> & Hdata).
      exists data. rewrite <- !app_assoc. split; [reflexivity | assumption].
  - destruct (Hcopy (log ++ [headRequest src])) as (data & -> & Hdata).
    exists data. rewrite <- !app_assoc. split; [reflexivity | assumption].
Qed.

(** X7.  Once the metadata fetch has succeeded, [CopyTo] sends a
    metadata rewrite exactly when the key of the source is some string
    followed by the five bytes [.m3u8], compared byte by byte: the key
    [.m3u8] itself qualifies, a key that ends in [.M3U8] does not. *)
Theorem CopyTo_rewrites_iff_extension (c : S3Copier) (src dest : S3Object)
    (log new : list s3.Request) (head : s3.HeadObjectOutput.t) :
  s3.HeadObject (s3client c) log
    (s3.HeadObjectInput.mk (bucket src) (key src)) = Ok head ->
  snd (CopyTo c src dest log) = log ++ new ->
  Exists (fun r => isRewrite r = true) new
  <-> exists stem, key src = String.append stem ".m3u8".
Proof.
  intros Hhead Hnew.
  destruct (CopyTo_requests c src dest log head Hhead) as (data & Hlog & Hdata).
  rewrite Hlog in Hnew. apply app_inv_head in Hnew. subst new.
  rewrite <- HasSuffix_spec. unfold selectorRequests.
  assert (Hno : ~ Exists (fun r => isRewrite r = true) data).
  { intros Hex. apply Exists_exists in Hex as (r & Hin & Hr).
    rewrite Forall_forall in Hdata. rewrite (Hdata r Hin) in Hr.
    discriminate. }
  destruct (HasSuffix (key src) ".m3u8").
  - split; [reflexivity|]. intros _. right. left. reflexivity.
  - split; [|discriminate]. intros Hex. exfalso.
    apply Exists_cons in Hex as [Hex | Hex]; [discriminate|].
    apply Hno, Hex.
Qed.

Lemma CopyTo_rewrites_iff_extension_witness :
  let c := NewS3Copier (exampleService MiB (quoted "abc123") 0) in
  let src := {| bucket := "from"; key := ".m3u8" |} in
  Exists (fun r => isRewrite r = true) (snd (CopyTo c src exampleDest []))
  <-> exists stem, key src = String.append stem ".m3u8".
Proof.
  intros c src.
  apply (CopyTo_rewrites_iff_extension c src exampleDest []
           (snd (CopyTo c src exampleDest []))
           (s3.HeadObjectOutput.mk (Some MiB) (Some "video/mp2t") []));
    reflexivity.
Defined.

(** ** The part copies of any run *)

Lemma wrap_add_l (a b : Z) : Int64.wrap (Int64.wrap a + b) = Int64.wrap (a + b).
Proof.
  unfold Int64.wrap. f_equal.
  replace ((a + 2 ^ 63) mod 2 ^ 64 - 2 ^ 63 + b + 2 ^ 63)
    with ((a + 2 ^ 63) mod 2 ^ 64 + b) by lia.
  rewrite Zplus_mod_idemp_l. f_equal. lia.
Qed.

Lemma copyParts_requests (fuel : nat) (c : S3Copier) (src dest : S3Object)
    (uploadId : option string) (objectSize : Z) :
  forall bytePosition partNum completedParts log out log',
    Int64.InRange bytePosition -> Int64.InRange partNum ->
    copyParts fuel c src dest uploadId objectSize bytePosition partNum
      completedParts log = (out, log') ->
    exists new,
      log' = log ++ new
      /\ forall (i : nat) (r : s3.Request),
           new !! i = Some r ->
           let position :=
             Int64.wrap (bytePosition + Z.of_nat i * partSize c) in
           position < objectSize
           /\ r = s3.ReqUploadPartCopy
                    (uploadPartCopyInput (Int64.wrap (partNum + Z.of_nat i))
                       src dest position
                       (lastByteOf objectSize (partSize c) position)
                       uploadId).
Proof.
  induction fuel as [|fuel IH]; intros bp pn parts log out log' Hbp Hpn H.
  - cbn in H. injection H as <- <-. exists []. rewrite app_nil_r.
    split; [reflexivity|]. intros i r Hi. discriminate.
  - assert (Hone : (bp <? objectSize) = true ->
               exists new,
                 log ++ [s3.ReqUploadPartCopy
                           (uploadPartCopyInput pn src dest bp
                              (lastByteOf objectSize (partSize c) bp) uploadId)]
                 = log ++ new
                 /\ forall (i : nat) (r : s3.Request),
                      new !! i = Some r ->
                      let position :=
                        Int64.wrap (bp + Z.of_nat i * partSize c) in
                      position < objectSize
                      /\ r = s3.ReqUploadPartCopy
                               (uploadPartCopyInput
                                  (Int64.wrap (pn + Z.of_nat i))
                                  src dest position
                                  (lastByteOf objectSize (partSize c) position)
                                  uploadId)).
    { intros Hcond. eexists [_]. split; [reflexivity|].
      intros [|i] r Hi; [|discriminate]. injection Hi as <-.
      cbn zeta. change (Z.of_nat 0) with 0.
      rewrite Z.mul_0_l, !Z.add_0_r, !wrap_in_range by assumption.
      split; [apply Z.ltb_lt, Hcond | reflexivity]. }
    copyParts_cases H; try (injection H as <- <-; exact (Hone Hcond)).
    + apply IH in H as (new & -> & Hnew); try apply wrap_range.
      eexists (_ :: new). rewrite <- app_assoc. split; [reflexivity|].
      intros [|i] r Hi.
      * destruct (Hone Hcond) as (new1 & Heq & Hfirst).
        apply app_inv_head in Heq. subst new1. apply (Hfirst 0%nat).
        exact Hi.
      * apply Hnew in Hi. cbn zeta in Hi. unfold Int64.add in Hi.
        rewrite !wrap_add_l in Hi. cbn zeta.
        replace (bp + Z.of_nat (S i) * partSize c)
          with (bp + partSize c + Z.of_nat i * partSize c) by lia.
        replace (pn + Z.of_nat (S i)) with (pn + 1 + Z.of_nat i) by lia.
        exact Hi.
    + injection H as <- <-. exists []. rewrite app_nil_r.
      split; [reflexivity|]. intros i r Hi. discriminate.
Qed.

(** X8.  Every part copy that [copyToMultiPart] sends, in whatever run
    (finished, refused or panicking): when it is the request number [i]
    of the run (from 0), the metadata fetch and the creation of the
    upload, requests 0 and 1, succeeded; the part copy goes to the
    bucket and key of the destination, names the locator of the source
    and the upload id that the creation answered, has the part number
    [i - 1], and asks for the bytes from [(i - 2) * partSize], a
    position below the object size, to the last byte of that part (part
    number and position in [int64], so with wrap-around). *)
Theorem copyToMultiPart_part_copy_fields (c : S3Copier) (src dest : S3Object)
    (log new : list s3.Request) (out : Outcome (option error))
    (i : nat) (input : s3.UploadPartCopyInput.t) :
  copyToMultiPart c src dest log = (out, log ++ new) ->
  new !! i = Some (s3.ReqUploadPartCopy input) ->
  exists (head : s3.HeadObjectOutput.t)
         (init : s3.CreateMultipartUploadOutput.t) (objectSize : Z),
    let position := Int64.wrap ((Z.of_nat i - 2) * partSize c) in
    s3.HeadObject (s3client c) log
      (s3.HeadObjectInput.mk (bucket src) (key src)) = Ok head
    /\ s3.CreateMultipartUpload (s3client c) (log ++ [headRequest src])
         (createInput dest head) = Ok init
    /\ s3.HeadObjectOutput.ContentLength head = Some objectSize
    /\ (2 <= i)%nat
    /\ position < objectSize
    /\ s3.UploadPartCopyInput.Bucket input = bucket dest
    /\ s3.UploadPartCopyInput.Key input = key dest
    /\ s3.UploadPartCopyInput.CopySource input = bucketKeyPath src
    /\ s3.UploadPartCopyInput.UploadId input
       = s3.CreateMultipartUploadOutput.UploadId init
    /\ s3.UploadPartCopyInput.PartNumber input = Int64.wrap (Z.of_nat i - 1)
    /\ s3.UploadPartCopyInput.CopySourceRange input
       = copySourceRange position
           (lastByteOf objectSize (partSize c) position).
Proof.
  intros H Hi. rewrite copyToMultiPart_unfold in H. cbn zeta in H.
  destruct (s3.HeadObject _ _ _) as [head|err] eqn:Hhead.
  2: { injection H as _ Heq. apply app_inv_head in Heq. subst new.
       destruct i as [|[|i]]; discriminate. }
  destruct (s3.CreateMultipartUpload _ _ _) as [init|err] eqn:Hcreate.
  2: { injection H as _ Heq. rewrite <- app_assoc in Heq.
       apply app_inv_head in Heq. subst new.
       destruct i as [|[|i]]; discriminate. }
  destruct (s3.HeadObjectOutput.ContentLength head) as [objectSize|] eqn:Hsize.
  2: { injection H as _ Heq. rewrite <- app_assoc in Heq.
       apply app_inv_head in Heq. subst new.
       destruct i as [|[|i]]; discriminate. }
  rewrite copyAndComplete_unfold in H.
  assert (Hmake : forall x : Outcome (option error),
             (x, (log ++ [headRequest src])
                 ++ [s3.ReqCreateMultipartUpload (createInput dest head)])
             = (out, log ++ new) -> False).
  { intros x [= _ Heq]. rewrite <- app_assoc in Heq.
    apply app_inv_head in Heq. subst new.
    destruct i as [|[|i]]; discriminate. }
  destruct (partsSize _ _) as [n|]; [|destruct (Hmake _ H)].
  destruct (makeslice_ok n); [|destruct (Hmake _ H)]. clear Hmake.
  cbn zeta in H.
  destruct (copyParts _ _ _ _ _ _ _ _ _ _) as [loopOut log3] eqn:Hloop.
  apply copyParts_requests in Hloop as (parts & -> & Hparts);
    [| unfold Int64.InRange, Int64.min, Int64.max; lia..].
  exists head, init, objectSize.
  assert (Hnew : exists tail,
             new = headRequest src
                   :: s3.ReqCreateMultipartUpload (createInput dest head)
                   :: parts ++ tail
             /\ Forall (fun r => isPartCopy r = false) tail).
  { destruct loopOut as [[err|done']|p|]; injection H as _ Heq;
      rewrite <- ?app_assoc in Heq; apply app_inv_head in Heq;
      cbn [app] in Heq; subst new.
    - exists []. rewrite app_nil_r. split; [reflexivity | constructor].
    - eexists [_]. split; [reflexivity | repeat constructor].
    - exists []. rewrite app_nil_r. split; [reflexivity | constructor].
    - exists []. rewrite app_nil_r. split; [reflexivity | constructor]. }
  destruct Hnew as (tail & -> & Htail).
  destruct i as [|[|i]]; [discriminate Hi | discriminate Hi |].
  cbn [lookup list_lookup] in Hi.
  change (list_lookup i (parts ++ tail)) with ((parts ++ tail) !! i) in Hi.
  apply lookup_app_Some in Hi as [Hi | [_ Hi]].
  2: { apply list_elem_of_lookup_2 in Hi. rewrite Forall_forall in Htail.
       apply Htail in Hi. discriminate. }
  apply Hparts in Hi as [Hbelow Hreq]. injection Hreq as ->.
  cbn zeta. replace (Z.of_nat (S (S i)) - 2) with (Z.of_nat i) by lia.
  replace (Z.of_nat (S (S i)) - 1) with (1 + Z.of_nat i) by lia.
  rewrite Z.add_0_l in Hbelow.
  repeat (split; [assumption || reflexivity || lia|]). reflexivity.
Qed.

Lemma copyToMultiPart_part_copy_fields_witness :
  let c := NewS3Copier (exampleService (12 * MiB) (quoted "abc123") 0) in
  let input :=
    uploadPartCopyInput 2 exampleSrc exampleDest (10 * MiB) (12 * MiB - 1)
      (Some "upload-1") in
  exists (head : s3.HeadObjectOutput.t)
         (init : s3.CreateMultipartUploadOutput.t) (objectSize : Z),
    let position := Int64.wrap ((Z.of_nat 3 - 2) * partSize c) in
    s3.HeadObject (s3client c) []
      (s3.HeadObjectInput.mk (bucket exampleSrc) (key exampleSrc)) = Ok head
    /\ s3.CreateMultipartUpload (s3client c) ([] ++ [headRequest exampleSrc])
         (createInput exampleDest head) = Ok init
    /\ s3.HeadObjectOutput.ContentLength head = Some objectSize
    /\ (2 <= 3)%nat
    /\ position < objectSize
    /\ s3.UploadPartCopyInput.Bucket input = bucket exampleDest
    /\ s3.UploadPartCopyInput.Key input = key exampleDest
    /\ s3.UploadPartCopyInput.CopySource input = bucketKeyPath exampleSrc
    /\ s3.UploadPartCopyInput.UploadId input
       = s3.CreateMultipartUploadOutput.UploadId init
    /\ s3.UploadPartCopyInput.PartNumber input = Int64.wrap (Z.of_nat 3 - 1)
    /\ s3.UploadPartCopyInput.CopySourceRange input
       = copySourceRange position
           (lastByteOf objectSize (partSize c) position).
Proof.
  intros c input.
  apply (copyToMultiPart_part_copy_fields c exampleSrc exampleDest []
           (snd (copyToMultiPart c exampleSrc exampleDest []))
           (fst (copyToMultiPart c exampleSrc exampleDest [])) 3 input).
  - apply surjective_pairing.
  - vm_compute. reflexivity.
Defined.


(** ** The sizes of the parts *)

(** X14.  Under the conditions of the plan (positive sizes, the
    position after the last part fits [int64]): every planned part but
    the last one has exactly [partSize] bytes, and the last one has the
    bytes that remain, at least one and at most [partSize]. *)
Theorem plannedParts_sizes (objectSize partSize : Z) (fuel : nat)
    (ds : list PartDescriptor) (i : nat) (d : PartDescriptor) :
  0 < objectSize -> 0 < partSize ->
  ceilDiv objectSize partSize * partSize <= Int64.max ->
  ceilDiv objectSize partSize < Z.of_nat fuel ->
  plannedParts fuel objectSize partSize = Some ds ->
  ds !! i = Some d ->
  let size := endByte d - startByte d + 1 in
  (Z.of_nat i < ceilDiv objectSize partSize - 1 -> size = partSize)
  /\ (Z.of_nat i = ceilDiv objectSize partSize - 1 ->
      size = objectSize - Z.of_nat i * partSize /\ 1 <= size <= partSize)
  /\ Z.of_nat i <= ceilDiv objectSize partSize - 1.
Proof.
  intros Hos Hps Hmax Hfuel Hplan Hd.
  rewrite plannedParts_closed_form in Hplan by assumption.
  injection Hplan as <-.
  apply planned_lookup in Hd as [Hi ->].
  pose proof (ceilDiv_bounds objectSize partSize Hps) as Hb.
  cbn [startByte endByte plannedPart]. cbn zeta.
  split; [|split; [|lia]]; intros Hcase.
  - rewrite Z.min_l by nia. lia.
  - rewrite Z.min_r by nia. nia.
Qed.

Lemma plannedParts_sizes_witness :
  let d := plannedPart (12 * MiB) (10 * MiB) 1 in
  let size := endByte d - startByte d + 1 in
  (Z.of_nat 1 < ceilDiv (12 * MiB) (10 * MiB) - 1 -> size = 10 * MiB)
  /\ (Z.of_nat 1 = ceilDiv (12 * MiB) (10 * MiB) - 1 ->
      size = 12 * MiB - Z.of_nat 1 * (10 * MiB) /\ 1 <= size <= 10 * MiB)
  /\ Z.of_nat 1 <= ceilDiv (12 * MiB) (10 * MiB) - 1.
Proof.
  intros d.
  apply (plannedParts_sizes (12 * MiB) (10 * MiB) 3
           [plannedPart (12 * MiB) (10 * MiB) 0; d] 1 d);
    vm_compute; (reflexivity || discriminate).
Defined.

(** ** Headers and locators can be read back *)

Lemma split_at_separator (sep : ascii) (s1 : string) :
  forall s2 t1 t2 : string,
    occurs sep s1 = false -> occurs sep s2 = false ->
    String.append s1 (String sep t1) = String.append s2 (String sep t2) ->
    s1 = s2 /\ t1 = t2.
Proof.
  induction s1 as [|a s1 IH]; intros [|b s2] t1 t2 H1 H2 Heq;
    cbn [String.append occurs] in *.
  - injection Heq as ->. auto.
  - injection Heq as <- _. rewrite Ascii.eqb_refl in H2. discriminate.
  - injection Heq as -> _. rewrite Ascii.eqb_refl in H1. discriminate.
  - injection Heq as -> Heq.
    apply orb_false_iff in H1 as [_ H1]. apply orb_false_iff in H2 as [_ H2].
    destruct (IH s2 t1 t2 H1 H2 Heq) as [-> ->]. auto.
Qed.

Lemma String_tail_eq (a : ascii) (s s' : string) :
  String a s = String a s' -> s = s'.
Proof. intros [= H]. exact H. Qed.

Lemma digits_no_sign (d : Decimal.uint) :
  occurs "-" (NilEmpty.string_of_uint d) = false.
Proof. induction d; cbn [NilEmpty.string_of_uint occurs]; auto. Qed.

(** The decimal form of an integer: a sign for a negative one, then at
    least one digit. *)
Lemma formatInt_shape (z : Z) :
  exists (c : ascii) (u : string),
    occurs "-" (String c u) = false
    /\ formatInt z = if z <? 0 then String "-" (String c u) else String c u.
Proof.
  assert (Hd : forall d : Decimal.uint,
             exists c u,
               occurs "-" (String c u) = false
               /\ NilZero.string_of_uint d = String c u).
  { intros d. pose proof (digits_no_sign d) as Hno.
    destruct d; cbn [NilZero.string_of_uint NilEmpty.string_of_uint] in *;
      eexists _, _; (split; [|reflexivity]); (reflexivity || exact Hno). }
  unfold formatInt. destruct z as [|p|p]; cbn [Z.to_int Z.ltb Z.compare].
  - exists "0"%char, EmptyString. split; reflexivity.
  - destruct (Hd (Pos.to_uint p)) as (c & u & Hno & Heq).
    exists c, u. cbn [NilZero.string_of_int]. auto.
  - destruct (Hd (Pos.to_uint p)) as (c & u & Hno & Heq).
    exists c, u. cbn [NilZero.string_of_int]. rewrite Heq. auto.
Qed.

Lemma formatInt_inj (a b : Z) : formatInt a = formatInt b -> a = b.
Proof.
  unfold formatInt. intros H.
  assert (Hnil : forall z, Z.to_int z <> Decimal.Pos Decimal.Nil
                           /\ Z.to_int z <> Decimal.Neg Decimal.Nil).
  { intros [|p|p]; cbn [Z.to_int]; split; try discriminate;
      intros [= Hp]; exact (DecimalPos.Unsigned.to_uint_nonnil p Hp). }
  apply (f_equal NilZero.int_of_string) in H.
  rewrite !NilZero.isi in H by apply Hnil.
  injection H as H. apply (f_equal Z.of_int) in H.
  rewrite !DecimalZ.of_to in H. exact H.
Qed.

(** X15.  The range header of a part copy determines the range: two
    calls of [fmt.Sprintf("bytes=%d-%d", ...)] that give the same header
    were given the same first and the same last byte, also for negative
    positions. *)
Theorem copySourceRange_injective (a b a' b' : Z) :
  copySourceRange a b = copySourceRange a' b' -> a = a' /\ b = b'.
Proof.
  rewrite !copySourceRange_format. intros H.
  cbn [String.append] in H. injection H as H.
  destruct (formatInt_shape a) as (c & u & Hu & Ha).
  destruct (formatInt_shape a') as (c' & u' & Hu' & Ha').
  assert (Hsplit : formatInt a = formatInt a' /\ formatInt b = formatInt b').
  { rewrite Ha, Ha' in H |- *.
    destruct (a <? 0), (a' <? 0).
    - change (String "-" (String.append (String c u)
                            (String "-" (formatInt b)))
              = String "-" (String.append (String c' u')
                              (String "-" (formatInt b')))) in H.
      apply String_tail_eq in H.
      apply (split_at_separator "-" (String c u) (String c' u')) in H
        as [-> ->]; auto.
    - change (String "-" (String.append (String c u)
                            (String "-" (formatInt b)))
              = String c' (String.append u' (String "-" (formatInt b'))))
        in H.
      injection H as <- _. cbn [occurs] in Hu'.
      rewrite Ascii.eqb_refl in Hu'. discriminate.
    - change (String c (String.append u (String "-" (formatInt b)))
              = String "-" (String.append (String c' u')
                              (String "-" (formatInt b')))) in H.
      injection H as -> _. cbn [occurs] in Hu.
      rewrite Ascii.eqb_refl in Hu. discriminate.
    - apply (split_at_separator "-" (String c u) (String c' u')) in H
        as [-> ->]; auto. }
  destruct Hsplit as [Hab Hcd]. split; apply formatInt_inj; assumption.
Qed.

Lemma copySourceRange_injective_witness :
  10 * MiB = 10485760 /\ 12 * MiB - 1 = 12582911.
Proof.
  apply (copySourceRange_injective (10 * MiB) (12 * MiB - 1)
           10485760 12582911).
  reflexivity.
Defined.

(** X16.  The locator of [bucketKeyPath] determines the object, for
    bucket names without a slash: two objects with such buckets and the
    same locator have the same bucket and the same key. *)
Theorem bucketKeyPath_injective (s s' : S3Object) :
  occurs "/" (bucket s) = false -> occurs "/" (bucket s') = false ->
  bucketKeyPath s = bucketKeyPath s' -> s = s'.
Proof.
  intros Hs Hs'. destruct s as [b k], s' as [b' k'].
  cbn [bucket] in Hs, Hs'. unfold bucketKeyPath.
  cbn [Sprintf bucket key Ascii.eqb Bool.eqb]. simpl.
  rewrite !append_empty_r. intros H.
  apply split_at_separator in H as [-> ->]; auto.
Qed.

Lemma bucketKeyPath_injective_witness :
  exampleSrc = {| bucket := "from"; key := "a.ts" |}.
Proof.
  apply (bucketKeyPath_injective exampleSrc
           {| bucket := "from"; key := "a.ts" |}); reflexivity.
Defined.

(** ** The range of one part *)

Lemma wrap_sub_l (a b : Z) : Int64.wrap (Int64.wrap a - b) = Int64.wrap (a - b).
Proof. unfold Z.sub. apply wrap_add_l. Qed.

(** X17.  The last byte that the loop computes for a part starting at
    [bytePosition], below the object size, never lies beyond the last
    byte of the object; and when the part size is positive and
    [bytePosition + partSize - 1] fits [int64], the range is not empty
    and has at most [partSize] bytes. *)
Theorem lastByteOf_bounds (objectSize partSize bytePosition : Z) :
  Int64.InRange objectSize -> Int64.InRange bytePosition ->
  bytePosition < objectSize ->
  lastByteOf objectSize partSize bytePosition <= objectSize - 1
  /\ (0 < partSize -> bytePosition + partSize - 1 <= Int64.max ->
      bytePosition <= lastByteOf objectSize partSize bytePosition
      /\ lastByteOf objectSize partSize bytePosition - bytePosition + 1
         <= partSize).
Proof.
  intros Hos Hbp Hlt. unfold lastByteOf, Int64.add, Int64.sub.
  unfold Int64.InRange, Int64.min, Int64.max in *.
  rewrite (wrap_in_range (objectSize - 1))
    by (unfold Int64.InRange, Int64.min, Int64.max; lia).
  rewrite wrap_sub_l. split.
  - destruct (Z.gtb_spec (Int64.wrap (bytePosition + partSize - 1))
                (objectSize - 1)); lia.
  - intros Hps Hfit.
    rewrite wrap_in_range
      by (unfold Int64.InRange, Int64.min, Int64.max; lia).
    destruct (Z.gtb_spec (bytePosition + partSize - 1) (objectSize - 1));
      lia.
Qed.

Lemma lastByteOf_bounds_witness :
  lastByteOf (12 * MiB) (10 * MiB) (10 * MiB) <= 12 * MiB - 1
  /\ (0 < 10 * MiB -> 10 * MiB + 10 * MiB - 1 <= Int64.max ->
      10 * MiB <= lastByteOf (12 * MiB) (10 * MiB) (10 * MiB)
      /\ lastByteOf (12 * MiB) (10 * MiB) (10 * MiB) - 10 * MiB + 1
         <= 10 * MiB).
Proof.
  apply (lastByteOf_bounds (12 * MiB) (10 * MiB) (10 * MiB));
    vm_compute; (reflexivity || split; discriminate).
Defined.

(** ** Which panics can happen *)

Lemma copyParts_index_safe (c : S3Copier) (src dest : S3Object)
    (uploadId : option string) (objectSize : Z) :
  0 < partSize c ->
  ceilDiv objectSize (partSize c) * partSize c <= Int64.max ->
  forall (n : nat) (i partNum : Z) (fuel : nat) completedParts log out log',
    0 <= i -> i + Z.of_nat n = ceilDiv objectSize (partSize c) ->
    (n < fuel)%nat -> (n <> 0%nat -> partNum = i + 1) ->
    Z.of_nat (length completedParts) = ceilDiv objectSize (partSize c) ->
    copyParts fuel c src dest uploadId objectSize (i * partSize c) partNum
      completedParts log = (out, log') ->
    out <> Panic IndexOutOfRange /\ out <> Panic MakesliceLenOutOfRange.
Proof.
  intros Hps Hmax.
  pose proof (ceilDiv_bounds objectSize (partSize c) Hps) as Hb.
  unfold Int64.max in Hmax.
  induction n as [|n IH];
    intros i partNum fuel parts log out log' Hi HN Hfuel Hnum Hlen H;
    (destruct fuel as [|fuel]; [lia|]).
  - rewrite copyParts_unfold in H.
    destruct (Z.ltb_spec (i * partSize c) objectSize) as [Hlt|Hge]; [nia|].
    injection H as <- <-. split; discriminate.
  - rewrite Hnum in H by lia.
    assert (Hsub : Int64.sub (i + 1) 1 = i).
    { unfold Int64.sub. rewrite wrap_in_range; [lia|].
      unfold Int64.InRange, Int64.min, Int64.max. nia. }
    assert (Hpos : Int64.add (i * partSize c) (partSize c)
                   = (i + 1) * partSize c).
    { unfold Int64.add. rewrite wrap_in_range; [lia|].
      unfold Int64.InRange, Int64.min, Int64.max. nia. }
    copyParts_cases H; try (injection H as <- <-; split; discriminate).
    + rewrite Hpos in H. eapply (IH (i + 1)) in H; try eassumption; try lia.
      * intros Hn. unfold Int64.add. rewrite wrap_in_range; [lia|].
        unfold Int64.InRange, Int64.min, Int64.max. nia.
      * rewrite length_insert. assumption.
    + rewrite Hsub in Hidx.
      destruct (Z.leb_spec 0 i); [|lia].
      destruct (Z.ltb_spec i (Z.of_nat (length parts))); [|lia].
      discriminate.
Qed.

(** X18.  When the metadata fetch reports a [ContentLength] from 0 to
    below [2^53] and the part size is from 1 to below [2^53], the loop of
    [copyToMultiPart] never indexes the manifest out of range, whatever
    the service answers; and a panic of the call is the [makeslice]
    panic ([len out of range]) exactly when the manifest of
    [ceil(objectSize / partSize)] pointers exceeds [maxAlloc], that is
    for more than [2^45] parts.  The other panics are a nil pointer in
    an answer ([CopyPartResult], [ETag]) and an [ETag] of fewer than two
    bytes. *)
Theorem copyToMultiPart_manifest_safe (c : S3Copier) (src dest : S3Object)
    (log log' : list s3.Request) (p : PanicKind)
    (head : s3.HeadObjectOutput.t) (objectSize : Z) :
  0 < partSize c < 2 ^ 53 ->
  s3.HeadObject (s3client c) log
    (s3.HeadObjectInput.mk (bucket src) (key src)) = Ok head ->
  s3.HeadObjectOutput.ContentLength head = Some objectSize ->
  0 <= objectSize < 2 ^ 53 ->
  copyToMultiPart c src dest log = (Panic p, log') ->
  p <> IndexOutOfRange
  /\ (p = MakesliceLenOutOfRange
      <-> maxAlloc < pointerSize * ceilDiv objectSize (partSize c)).
Proof.
  intros Hps Hhead Hlen Hsize H.
  rewrite copyToMultiPart_unfold in H. cbn zeta in H. rewrite Hhead in H.
  destruct (s3.CreateMultipartUpload _ _ _) as [init|err]; [|discriminate].
  rewrite Hlen, copyAndComplete_unfold in H.
  assert (Hslots : partsSize objectSize (partSize c)
                   = Some (ceilDiv objectSize (partSize c))).
  { destruct (Z.eq_dec objectSize 0) as [-> | Hne].
    - rewrite partsSize_zero by assumption. unfold ceilDiv.
      rewrite Z.div_small by lia. reflexivity.
    - apply partsSize_exact; lia. }
  pose proof (ceilDiv_bounds objectSize (partSize c) (proj1 Hps)) as Hb.
  assert (HN : 0 <= ceilDiv objectSize (partSize c)) by nia.
  rewrite Hslots in H.
  destruct (makeslice_ok (ceilDiv objectSize (partSize c))) eqn:Hfit.
  - apply makeslice_ok_spec in Hfit as [_ Hfit]. cbn zeta in H.
    destruct (copyParts _ _ _ _ _ _ _ _ _ _) as [loopOut log3] eqn:Hloop.
    change 0 with (0 * partSize c) in Hloop at 1.
    apply (copyParts_index_safe c src dest _ objectSize (proj1 Hps)
             ltac:(unfold Int64.max; lia)
             (Z.to_nat (ceilDiv objectSize (partSize c)))) in Hloop
      as [Hindex Hmake];
      try (rewrite ?length_replicate; lia).
    destruct loopOut as [[err|done']|q|]; try discriminate.
    injection H as -> _. split; [congruence|].
    split; [congruence | lia].
  - injection H as <- _. split; [discriminate|].
    split; [|reflexivity]. intros _.
    destruct (Z_lt_le_dec maxAlloc
                (pointerSize * ceilDiv objectSize (partSize c)))
      as [Hbig | Hsmall]; [assumption|].
    rewrite (proj2 (makeslice_ok_spec _) (conj HN Hsmall)) in Hfit.
    discriminate.
Qed.

(** An [ETag] of one byte gives the panic of the slice expression; an
    object of [2^46] bytes in parts of one byte gives the [makeslice]
    panic. *)
Lemma copyToMultiPart_manifest_safe_witness :
  let c := NewS3Copier (exampleService (12 * MiB) "x" 0) in
  let c' :=
    {| partSize := 1;
       s3client := exampleService (2 ^ 46) (quoted "abc123") 0 |} in
  (SliceBoundsOutOfRange <> IndexOutOfRange
   /\ (SliceBoundsOutOfRange = MakesliceLenOutOfRange
       <-> maxAlloc < pointerSize * ceilDiv (12 * MiB) (partSize c)))
  /\ (MakesliceLenOutOfRange <> IndexOutOfRange
      /\ (MakesliceLenOutOfRange = MakesliceLenOutOfRange
          <-> maxAlloc < pointerSize * ceilDiv (2 ^ 46) (partSize c'))).
Proof.
  intros c c'. split.
  - apply (copyToMultiPart_manifest_safe c exampleSrc exampleDest []
             (snd (copyToMultiPart c exampleSrc exampleDest []))
             SliceBoundsOutOfRange
             (s3.HeadObjectOutput.mk (Some (12 * MiB)) (Some "video/mp2t") [])
             (12 * MiB));
      vm_compute; (reflexivity || split; (reflexivity || discriminate)).
  - apply (copyToMultiPart_manifest_safe c' exampleSrc exampleDest []
             (snd (copyToMultiPart c' exampleSrc exampleDest []))
             MakesliceLenOutOfRange
             (s3.HeadObjectOutput.mk (Some (2 ^ 46)) (Some "video/mp2t") [])
             (2 ^ 46));
      vm_compute; (reflexivity || split; (reflexivity || discriminate)).
Defined.
(** ** CopyWithPrefix: what a return tells *)

Section CopyWithPrefixFurther.

Variable c_partSize : Z.
Variables srcBucket destBucket : string.
Variable pages : list (list (option string)).

(** X9.  [CopyWithPrefix] returns, with whatever result, only when the
    listing holds at least one and at most 40050 keys
    ([cap(jobs) + cap(done) + WORKER_COUNT]), none of them a nil
    pointer; all these keys have then been sent on [jobs]. *)
Theorem CopyWithPrefix_returns_only_if (s : System) (r : option error) :
  Reachable c_partSize srcBucket destBucket pages s ->
  caller s = CallerReturned r ->
  1 <= Z.of_nat (length (concat pages))
       <= jobsCapacity + doneCapacity + WORKER_COUNT
  /\ concat pages = map Some (enqueued s).
Proof.
  intros Hreach Hc. apply reachable_invariant in Hreach as Hinv.
  pose proof (returned_listed _ s r Hinv Hc) as Hlisted.
  rewrite <- Hlisted, length_map. split; [|reflexivity].
  split; [|exact (inv_bound _ _ Hinv)].
  destruct Hinv as
    [Hws Hjobs Hdone Hstatus Hkeys Herrors Hcount Hcheck Hbound Hcaller].
  unfold CallerInvariant in Hcaller. rewrite Hc in Hcaller.
  pose proof (total_holdsKey_bounds (workers s)) as Hload.
  pose proof (doneCount_nonneg (received s)) as Hd.
  destruct r as [err|].
  - destruct Hcaller as (_ & keys & Hrcv).
    rewrite Hrcv, statusCount_app in Herrors. cbn [statusCount] in Herrors.
    pose proof (statusCount_nonneg (map SigDone keys)). lia.
  - destruct Hcaller as (_ & _ & Hone & Heq). lia.
Qed.


(** ** CopyWithPrefix: where keys and errors come from *)

Lemma heldBy_insert (ws : list Worker) :
  forall (w : nat) (x y : Worker),
    ws !! w = Some y ->
    heldBy (<[w := x]> ws) ++ heldKeys y ≡ₚ heldKeys x ++ heldBy ws.
Proof.
  induction ws as [|z ws IH]; intros [|w] x y H; try discriminate.
  - injection H as ->.
    change (<[0%nat := x]> (y :: ws)) with (x :: ws). cbn [heldBy].
    solve_Permutation.
  - change (<[S w := x]> (z :: ws)) with (z :: <[w := x]> ws).
    cbn [heldBy]. rewrite <- app_assoc, (IH w x y H). solve_Permutation.
Qed.

Lemma heldBy_lookup (ws : list Worker) :
  forall (w : nat) (y : Worker) (key : string),
    ws !! w = Some y -> In key (heldKeys y) -> In key (heldBy ws).
Proof.
  induction ws as [|z ws IH]; intros [|w] y key H Hin; try discriminate;
    cbn [heldBy]; apply in_or_app.
  - injection H as ->. left. exact Hin.
  - right. exact (IH w y key H Hin).
Qed.

Lemma doneKeys_app (l l' : list Signal) :
  doneKeys (l ++ l') = doneKeys l ++ doneKeys l'.
Proof. apply omap_app. Qed.

Lemma statusErrors_app (l l' : list Signal) :
  statusErrors (l ++ l') = statusErrors l ++ statusErrors l'.
Proof. apply omap_app. Qed.

Lemma CopyToEnded_later (schedule : list Action) (a : Action)
    (key : string) (result : option error) :
  CopyToEnded c_partSize srcBucket destBucket schedule key result ->
  CopyToEnded c_partSize srcBucket destBucket (schedule ++ [a]) key result.
Proof.
  intros (w & service & Hin & Hres). exists w, service.
  split; [apply in_or_app; left; exact Hin | exact Hres].
Qed.

Lemma Failed_later (schedule : list Action) (a : Action)
    (listed more : list string) (err : error) :
  Failed c_partSize srcBucket destBucket schedule listed err ->
  Failed c_partSize srcBucket destBucket (schedule ++ [a]) (listed ++ more) err.
Proof.
  intros (key & Hin & Hres). exists key.
  split; [apply in_or_app; left; exact Hin | apply CopyToEnded_later, Hres].
Qed.

Lemma Failed_listed (schedule : list Action)
    (listed more : list string) (err : error) :
  Failed c_partSize srcBucket destBucket schedule listed err ->
  Failed c_partSize srcBucket destBucket schedule (listed ++ more) err.
Proof.
  intros (key & Hin & Hres). exists key.
  split; [apply in_or_app; left; exact Hin | exact Hres].
Qed.

Lemma WorkerProvenance_listed (schedule : list Action)
    (listed more : list string) (w : Worker) :
  WorkerProvenance c_partSize srcBucket destBucket schedule listed w ->
  WorkerProvenance c_partSize srcBucket destBucket schedule (listed ++ more) w.
Proof. destruct w; cbn; auto using Failed_listed. Qed.

Lemma provenance_later (schedule : list Action) (a : Action) (s : System) :
  Provenance c_partSize srcBucket destBucket schedule s ->
  Provenance c_partSize srcBucket destBucket (schedule ++ [a]) s.
Proof.
  intros [Hkeys Hdone Hstatus Hworkers]. split.
  - exact Hkeys.
  - eapply Forall_impl; [exact Hdone|]. intros key.
    apply CopyToEnded_later.
  - eapply Forall_impl; [exact Hstatus|]. intros err Herr.
    rewrite <- (app_nil_r (enqueued s)). apply Failed_later, Herr.
  - eapply Forall_impl; [exact Hworkers|]. intros [] Hw; cbn in *; auto.
    + rewrite <- (app_nil_r (enqueued s)). apply Failed_later, Hw.
    + apply CopyToEnded_later, Hw.
Qed.

Lemma initial_provenance :
  Provenance c_partSize srcBucket destBucket [] (initial pages).
Proof.
  split; unfold initial; system_fields.
  - reflexivity.
  - constructor.
  - constructor.
  - apply Forall_forall. intros w Hw.
    apply elem_of_replicate in Hw as [-> _]. exact I.
Qed.

Lemma stepList_provenance (schedule : list Action) (s s' : System) :
  Provenance c_partSize srcBucket destBucket schedule s ->
  stepList s = Some s' ->
  Provenance c_partSize srcBucket destBucket schedule s'.
Proof.
  intros [Hkeys Hdone Hstatus Hworkers] H. unfold stepList in H.
  destruct (caller s) as [[|[|[k|] page] rest]| |]; try discriminate.
  - injection H as <-. split; system_fields; assumption.
  - injection H as <-. split; system_fields; assumption.
  - destruct (_ <? _); [|discriminate]. injection H as <-.
    split; system_fields.
    + assert (Hl : (jobs s ++ [k]) ++ heldBy (workers s) ++ done s
                   ++ doneKeys (received s)
                   ≡ₚ k :: (jobs s ++ heldBy (workers s) ++ done s
                            ++ doneKeys (received s)))
        by solve_Permutation.
      assert (Hr : enqueued s ++ [k] ≡ₚ k :: enqueued s)
        by solve_Permutation.
      rewrite Hl, Hr. apply submseteq_skip, Hkeys.
    + assumption.
    + eapply Forall_impl; [exact Hstatus|]. intros err.
      apply Failed_listed.
    + eapply Forall_impl; [exact Hworkers|]. intros w.
      apply WorkerProvenance_listed.
  - injection H as <-. split; system_fields; assumption.
Qed.

Lemma stepSelectDone_provenance (schedule : list Action) (s s' : System) :
  Provenance c_partSize srcBucket destBucket schedule s ->
  stepSelectDone s = Some s' ->
  Provenance c_partSize srcBucket destBucket schedule s'.
Proof.
  intros [Hkeys Hdone Hstatus Hworkers] H. unfold stepSelectDone in H.
  destruct (caller s); try discriminate.
  destruct (done s) as [|key rest] eqn:Hd; [discriminate|].
  cbn zeta in H.
  assert (Hgoal : Provenance c_partSize srcBucket destBucket schedule
                    (set_check (Int64.add (check s) 1)
                       (log_received (SigDone key) (set_done rest s)))).
  { split; system_fields.
    - rewrite doneKeys_app. cbn [doneKeys omap]. etrans; [|exact Hkeys].
      apply Permutation_submseteq. cbn. solve_Permutation.
    - rewrite doneKeys_app. cbn [doneKeys omap].
      rewrite Forall_app, Forall_cons in Hdone.
      destruct Hdone as [[Hkey Hrest] Hrcv].
      rewrite !Forall_app. repeat split; try assumption.
      constructor; [assumption | constructor].
    - rewrite statusErrors_app. cbn [statusErrors omap].
      rewrite app_nil_r. assumption.
    - assumption. }
  destruct (_ >=? _); injection H as <-; [|exact Hgoal].
  destruct Hgoal as [H1 H2 H3 H4]. split; system_fields; assumption.
Qed.

Lemma stepSelectStatus_provenance (schedule : list Action) (s s' : System) :
  Provenance c_partSize srcBucket destBucket schedule s ->
  stepSelectStatus s = Some s' ->
  Provenance c_partSize srcBucket destBucket schedule s'.
Proof.
  intros [Hkeys Hdone Hstatus Hworkers] H. unfold stepSelectStatus in H.
  destruct (caller s); try discriminate.
  destruct (statusChan s) as [|err rest] eqn:Hs; [discriminate|].
  injection H as <-. split; system_fields.
  - rewrite doneKeys_app. cbn [doneKeys omap]. rewrite app_nil_r.
    assumption.
  - rewrite doneKeys_app. cbn [doneKeys omap]. rewrite app_nil_r.
    assumption.
  - rewrite statusErrors_app. cbn [statusErrors omap].
    rewrite Forall_app, Forall_cons in Hstatus.
    destruct Hstatus as [[Herr Hrest] Hrcv].
    rewrite !Forall_app. repeat split; try assumption.
    constructor; [assumption | constructor].
  - assumption.
Qed.

Lemma stepReceive_provenance (schedule : list Action) (w : nat)
    (s s' : System) :
  Provenance c_partSize srcBucket destBucket schedule s ->
  stepReceive w s = Some s' ->
  Provenance c_partSize srcBucket destBucket schedule s'.
Proof.
  intros [Hkeys Hdone Hstatus Hworkers] H. unfold stepReceive in H.
  destruct (workers s !! w) as [[]|] eqn:Hw; try discriminate.
  destruct (jobs s) as [|key rest] eqn:Hj; [discriminate|].
  injection H as <-. split; system_fields; try assumption.
  - pose proof (heldBy_insert (workers s) w (WCopyTo key) WReceive Hw) as Hins.
    cbn [heldKeys] in Hins. rewrite app_nil_r in Hins.
    rewrite Hins. etrans; [|exact Hkeys].
    apply Permutation_submseteq. cbn. solve_Permutation.
  - apply Forall_insert; [assumption | exact I].
Qed.

Lemma stepCopyTo_provenance (schedule : list Action) (w : nat)
    (service : s3.S3) (s s' : System) :
  Provenance c_partSize srcBucket destBucket schedule s ->
  In (ActCopyTo w service) schedule ->
  stepCopyTo c_partSize srcBucket destBucket w service s = Some s' ->
  Provenance c_partSize srcBucket destBucket schedule s'.
Proof.
  intros [Hkeys Hdone Hstatus Hworkers] Hin H. unfold stepCopyTo in H.
  destruct (workers s !! w) as [[|key| | |]|] eqn:Hw; try discriminate.
  cbn zeta in H.
  destruct (fst (CopyTo _ _ _ _)) as [[err|]|p|] eqn:Hres; try discriminate;
    injection H as <-; split; system_fields; try assumption.
  - pose proof (heldBy_insert (workers s) w (WSendStatus err) (WCopyTo key) Hw)
      as Hins.
    cbn [heldKeys app] in Hins. etrans; [|exact Hkeys].
    rewrite <- Hins. solve_submseteq.
  - apply Forall_insert; [assumption|]. exists key. split.
    + apply list_elem_of_In. refine (elem_of_submseteq _ _ _ _ Hkeys).
      apply list_elem_of_In, in_or_app. right. apply in_or_app. left.
      apply (heldBy_lookup (workers s) w (WCopyTo key)); [assumption|].
      left. reflexivity.
    + exists w, service. split; assumption.
  - pose proof (heldBy_insert (workers s) w (WSendDone key) (WCopyTo key) Hw)
      as Hins.
    cbn [heldKeys] in Hins. etrans; [|exact Hkeys].
    apply Permutation_submseteq.
    assert (Hsame : heldBy (<[w := WSendDone key]> (workers s))
                    ≡ₚ heldBy (workers s)).
    { apply (Permutation_app_inv_r [key]). rewrite Hins.
      solve_Permutation. }
    rewrite Hsame. reflexivity.
  - apply Forall_insert; [assumption|]. exists w, service.
    split; assumption.
Qed.

Lemma stepSend_provenance (schedule : list Action) (w : nat)
    (s s' : System) :
  Provenance c_partSize srcBucket destBucket schedule s ->
  stepSend w s = Some s' ->
  Provenance c_partSize srcBucket destBucket schedule s'.
Proof.
  intros [Hkeys Hdone Hstatus Hworkers] H. unfold stepSend in H.
  destruct (workers s !! w) as [[|key|err|key|]|] eqn:Hw; try discriminate;
    (destruct (_ <? _); [|discriminate]); injection H as <-;
    pose proof (Forall_lookup_1 _ _ _ _ Hworkers Hw) as Hmine;
    cbn [WorkerProvenance] in Hmine;
    split; system_fields; try assumption.
  - pose proof (heldBy_insert (workers s) w WReturned (WSendStatus err) Hw)
      as Hins.
    cbn [heldKeys app] in Hins. rewrite app_nil_r in Hins. rewrite Hins.
    assumption.
  - rewrite <- app_assoc, Forall_app, Forall_app, Forall_cons.
    rewrite Forall_app in Hstatus. destruct Hstatus as [Hs Hr].
    repeat split; try assumption. constructor.
  - apply Forall_insert; [assumption | exact I].
  - pose proof (heldBy_insert (workers s) w WReceive (WSendDone key) Hw)
      as Hins.
    cbn [heldKeys app] in Hins. etrans; [|exact Hkeys].
    rewrite <- Hins. apply Permutation_submseteq. solve_Permutation.
  - rewrite <- app_assoc, Forall_app, Forall_app, Forall_cons.
    rewrite Forall_app in Hdone. destruct Hdone as [Hd Hr].
    repeat split; try assumption. constructor.
  - apply Forall_insert; [assumption | exact I].
Qed.

Lemma step_provenance (schedule : list Action) (s s' : System) (a : Action) :
  Provenance c_partSize srcBucket destBucket schedule s ->
  step c_partSize srcBucket destBucket s a = Some s' ->
  Provenance c_partSize srcBucket destBucket (schedule ++ [a]) s'.
Proof.
  intros Hprov H. apply (provenance_later schedule a) in Hprov.
  unfold step in H. destruct (crashed s); [discriminate|].
  destruct a.
  - eapply stepList_provenance; eassumption.
  - eapply stepSelectDone_provenance; eassumption.
  - eapply stepSelectStatus_provenance; eassumption.
  - eapply stepReceive_provenance; eassumption.
  - eapply stepCopyTo_provenance; [eassumption | | eassumption].
    apply in_or_app. right. left. reflexivity.
  - eapply stepSend_provenance; eassumption.
Qed.

Lemma run_provenance (schedule : list Action) :
  forall (before : list Action) (s s' : System),
    Provenance c_partSize srcBucket destBucket before s ->
    run c_partSize srcBucket destBucket s schedule = Some s' ->
    Provenance c_partSize srcBucket destBucket (before ++ schedule) s'.
Proof.
  induction schedule as [|a schedule IH]; intros before s s' Hprov H;
    cbn [run] in H.
  - injection H as <-. rewrite app_nil_r. exact Hprov.
  - destruct (step _ _ _ s a) as [s1|] eqn:Hstep; [|discriminate].
    change (before ++ a :: schedule) with (before ++ [a] ++ schedule).
    rewrite app_assoc. eapply IH; [|exact H].
    eapply step_provenance; eassumption.
Qed.

Lemma doneKeys_length (l : list Signal) :
  Z.of_nat (length (doneKeys l)) = doneCount l.
Proof.
  unfold doneKeys.
  induction l as [|[k|e] l IH]; cbn [omap list_omap doneCount].
  - reflexivity.
  - cbn [length]. lia.
  - exact IH.
Qed.

Lemma statusErrors_dones (keys : list string) :
  statusErrors (map SigDone keys) = [].
Proof. induction keys as [|k keys IH]; [reflexivity | exact IH]. Qed.

(** X10.  When [CopyWithPrefix] has returned nil, the keys that the
    [select] received from [done] are the keys of the listing, each as
    often as it is listed (in some order), and for each of them a
    worker's call [CopyTo] from [srcBucket] to [destBucket], under the
    same key, has returned nil. *)
Theorem CopyWithPrefix_nil_all_copied (schedule : list Action) (s : System) :
  run c_partSize srcBucket destBucket (initial pages) schedule = Some s ->
  caller s = CallerReturned None ->
  concat pages = map Some (enqueued s)
  /\ doneKeys (received s) ≡ₚ enqueued s
  /\ Forall (fun key =>
               CopyToEnded c_partSize srcBucket destBucket schedule key None)
       (enqueued s).
Proof.
  intros Hrun Hc.
  pose proof (run_invariant c_partSize srcBucket destBucket pages schedule
                _ _ (initial_invariant pages) Hrun) as Hinv.
  pose proof (run_provenance schedule [] _ _ initial_provenance Hrun)
    as [Hkeys Hdone _ _].
  pose proof (returned_listed _ s None Hinv Hc) as Hlisted.
  destruct Hinv as
    [_ _ _ _ _ _ Hcount Hcheck _ Hcaller].
  unfold CallerInvariant in Hcaller. rewrite Hc in Hcaller.
  destruct Hcaller as (_ & _ & _ & Heq).
  assert (Hperm : doneKeys (received s) ≡ₚ enqueued s).
  { apply submseteq_length_Permutation.
    - etrans; [|exact Hkeys]. solve_submseteq.
    - pose proof (doneKeys_length (received s)). lia. }
  split; [symmetry; exact Hlisted|]. split; [exact Hperm|].
  rewrite <- Hperm. rewrite Forall_app in Hdone. apply Hdone.
Qed.

(** X11.  When [CopyWithPrefix] has returned an error, that error is
    the result of a worker's call [CopyTo] from [srcBucket] to
    [destBucket] for one of the keys of the listing. *)
Theorem CopyWithPrefix_error_origin (schedule : list Action) (s : System)
    (err : error) :
  run c_partSize srcBucket destBucket (initial pages) schedule = Some s ->
  caller s = CallerReturned (Some err) ->
  exists key,
    In (Some key) (concat pages)
    /\ CopyToEnded c_partSize srcBucket destBucket schedule key (Some err).
Proof.
  intros Hrun Hc.
  pose proof (run_invariant c_partSize srcBucket destBucket pages schedule
                _ _ (initial_invariant pages) Hrun) as Hinv.
  pose proof (run_provenance schedule [] _ _ initial_provenance Hrun)
    as [_ _ Hstatus _].
  pose proof (returned_listed _ s (Some err) Hinv Hc) as Hlisted.
  pose proof (inv_caller _ _ Hinv) as Hcaller.
  unfold CallerInvariant in Hcaller. rewrite Hc in Hcaller.
  destruct Hcaller as (_ & keys & Hrcv).
  rewrite Hrcv, statusErrors_app, statusErrors_dones in Hstatus.
  change (statusErrors [SigStatus err]) with [err] in Hstatus.
  cbn [app] in Hstatus. rewrite Forall_app, Forall_singleton in Hstatus.
  destruct Hstatus as [_ (key & Hin & Hres)].
  exists key. split; [|exact Hres].
  rewrite <- Hlisted. apply in_map, Hin.
Qed.

(** ** CopyWithPrefix: no deadlock, no endless run *)

Lemma idle_or_all_hold (ws : list Worker) :
  (exists i, ws !! i = Some WReceive)
  \/ total holdsKey ws = Z.of_nat (length ws).
Proof.
  induction ws as [|w ws [[i Hi] | IH]]; [right; reflexivity | |].
  - left. exists (S i). exact Hi.
  - destruct w; try (right; cbn [total length holdsKey]; lia).
    left. exists 0%nat. reflexivity.
Qed.

Lemma active_worker (ws : list Worker) :
  total hasReturned ws < total holdsKey ws ->
  exists i w, ws !! i = Some w /\ holdsKey w = 1 /\ hasReturned w = 0.
Proof.
  induction ws as [|w ws IH]; cbn [total]; [lia|]. intros H.
  destruct (Z.eq_dec (hasReturned w) 0) as [Hr | Hr].
  - destruct (Z.eq_dec (holdsKey w) 1) as [Hh | Hh].
    + exists 0%nat, w. auto.
    + destruct IH as (i & w' & Hi & Hw); [destruct w; cbn in *; lia|].
      exists (S i), w'. auto.
  - destruct IH as (i & w' & Hi & Hw); [destruct w; cbn in *; lia|].
    exists (S i), w'. auto.
Qed.

(** X12.  For a listing of 1 to 20050 keys ([cap(jobs) + WORKER_COUNT]),
    [CopyWithPrefix] cannot get stuck: in every state it can reach in
    which no goroutine can move, the call has returned or the process
    has panicked. *)
Theorem CopyWithPrefix_no_deadlock (s : System) :
  1 <= Z.of_nat (length (concat pages)) <= jobsCapacity + WORKER_COUNT ->
  Reachable c_partSize srcBucket destBucket pages s ->
  Deadlocked c_partSize srcBucket destBucket s ->
  crashed s = true \/ exists r, caller s = CallerReturned r.
Proof.
  intros Hsize Hreach Hdead. apply reachable_invariant in Hreach as Hinv.
  destruct (crashed s) eqn:Hcr; [left; reflexivity | right].
  assert (Hstep : forall a,
             match a with
             | ActList => stepList s
             | ActSelectDone => stepSelectDone s
             | ActSelectStatus => stepSelectStatus s
             | ActReceive w => stepReceive w s
             | ActCopyTo w service =>
                 stepCopyTo c_partSize srcBucket destBucket w service s
             | ActSend w => stepSend w s
             end = None).
  { intros a. specialize (Hdead a). unfold step in Hdead.
    rewrite Hcr in Hdead. exact Hdead. }
  destruct Hinv as
    [Hws Hjobs Hdone Hstatus Hkeys Herrors Hcount Hcheck Hbound Hcaller].
  pose proof (total_holdsKey_bounds (workers s)) as Hload.
  pose proof (doneCount_nonneg (received s)) as Hd.
  unfold CallerInvariant in Hcaller.
  unfold jobsCapacity, WORKER_COUNT in *.
  destruct (caller s) as [rest| |r] eqn:Hc; [| |eauto]; exfalso.
  - pose proof (Hstep ActList) as Hlist. unfold stepList in Hlist.
    rewrite Hc in Hlist.
    destruct rest as [|[|[k|] page] rest]; try discriminate.
    destruct (Z.ltb_spec (Z.of_nat (length (jobs s))) jobsCapacity)
      as [|Hfull]; [discriminate|]. unfold jobsCapacity in Hfull.
    destruct Hcaller as (Hlisted & Hrcv & _).
    apply (f_equal (@length _)) in Hlisted.
    rewrite length_app, length_map in Hlisted. cbn [concat] in Hlisted.
    cbn [app length] in Hlisted. rewrite Hrcv in Hkeys.
    cbn [doneCount] in Hkeys.
    destruct (idle_or_all_hold (workers s)) as [[i Hi] | Hall].
    + pose proof (Hstep (ActReceive i)) as Hrecv. unfold stepReceive in Hrecv.
      rewrite Hi in Hrecv.
      destruct (jobs s); [cbn [length] in *; lia | discriminate].
    + rewrite Hws in Hall. lia.
  - destruct Hcaller as (Hlisted & (keys & Hrcv) & Hchk).
    pose proof (Hstep ActSelectDone) as Hsd. unfold stepSelectDone in Hsd.
    rewrite Hc in Hsd.
    destruct (done s) as [|key rest] eqn:Hdn; [|discriminate].
    pose proof (Hstep ActSelectStatus) as Hss. unfold stepSelectStatus in Hss.
    rewrite Hc in Hss.
    destruct (statusChan s) as [|err rest] eqn:Hst; [|discriminate].
    cbn [length] in *.
    assert (Hnone : statusCount (received s) = 0).
    { rewrite Hrcv. apply statusCount_dones. }
    destruct (Z_lt_le_dec (total hasReturned (workers s))
                (total holdsKey (workers s))) as [Hact | Hidle].
    + destruct (active_worker _ Hact) as (i & w & Hi & Hh & Hr).
      destruct w as [|key|err|key|]; try discriminate.
      * pose proof (Hstep (ActCopyTo i refusingService)) as Hcp.
        unfold stepCopyTo in Hcp. rewrite Hi in Hcp. cbn zeta in Hcp.
        pose proof (CopyTo_no_timeout
                      {| partSize := c_partSize; s3client := refusingService |}
                      {| bucket := srcBucket; key := key |}
                      {| bucket := destBucket; key := key |} []) as Hno.
        destruct (fst (CopyTo _ _ _ _)) as [[e|]|p|]; congruence.
      * pose proof (Hstep (ActSend i)) as Hsend. unfold stepSend in Hsend.
        rewrite Hi, Hst in Hsend. discriminate.
      * pose proof (Hstep (ActSend i)) as Hsend. unfold stepSend in Hsend.
        rewrite Hi, Hdn in Hsend. discriminate.
    + assert (Hzero : total holdsKey (workers s) = 0) by lia.
      apply total_holdsKey_zero in Hzero.
      destruct (workers s) as [|w ws] eqn:Hw; [discriminate Hws|].
      apply Forall_cons in Hzero as [-> _].
      pose proof (Hstep (ActReceive 0)) as Hrecv. unfold stepReceive in Hrecv.
      rewrite Hw in Hrecv. cbn in Hrecv.
      destruct (jobs s); [|discriminate]. cbn [length] in *.
      apply (f_equal (@length _)) in Hlisted.
      rewrite length_map in Hlisted. cbn [total holdsKey] in *. lia.
Qed.

Lemma returned_idle_deadlocked (s : System) (r : option error) :
  caller s = CallerReturned r ->
  Forall (fun w => w = WReceive) (workers s) ->
  jobs s = [] ->
  Deadlocked c_partSize srcBucket destBucket s.
Proof.
  intros Hc Hidle Hjobs a. unfold step. destruct (crashed s); [reflexivity|].
  destruct a.
  - unfold stepList. rewrite Hc. reflexivity.
  - unfold stepSelectDone. rewrite Hc. reflexivity.
  - unfold stepSelectStatus. rewrite Hc. reflexivity.
  - unfold stepReceive. rewrite Hjobs.
    destruct (_ !! w) as [[]|]; reflexivity.
  - unfold stepCopyTo. destruct (_ !! w) as [x|] eqn:Hw; [|reflexivity].
    rewrite (Forall_lookup_1 _ _ _ _ Hidle Hw). reflexivity.
  - unfold stepSend. destruct (_ !! w) as [x|] eqn:Hw; [|reflexivity].
    rewrite (Forall_lookup_1 _ _ _ _ Hidle Hw). reflexivity.
Qed.

Lemma total_workerSteps_lookup (ws : list Worker) :
  forall (i : nat) (w : Worker),
    ws !! i = Some w ->
    0 <= total workerSteps ws - workerSteps w.
Proof.
  induction ws as [|x ws IH]; intros [|i] w H; try discriminate;
    cbn [total].
  - injection H as ->.
    assert (0 <= total workerSteps ws); [|lia].
    clear. induction ws as [|y ws IH]; cbn [total]; [lia|].
    destruct y; cbn [workerSteps]; lia.
  - specialize (IH i w H). destruct x; cbn [workerSteps]; lia.
Qed.

Lemma total_workerSteps_nonneg (ws : list Worker) :
  0 <= total workerSteps ws.
Proof.
  induction ws as [|y ws IH]; cbn [total]; [lia|].
  destruct y; cbn [workerSteps]; lia.
Qed.

Lemma stepsLeft_nonneg (s : System) : 0 <= stepsLeft s.
Proof.
  unfold stepsLeft. destruct (crashed s); [lia|].
  pose proof (total_workerSteps_nonneg (workers s)).
  destruct (caller s); cbn [callerSteps]; lia.
Qed.

(** Every step uses up one of the steps left. *)
Lemma step_stepsLeft (s s' : System) (a : Action) :
  step c_partSize srcBucket destBucket s a = Some s' ->
  stepsLeft s' + 1 <= stepsLeft s.
Proof.
  intros H. unfold step in H. destruct (crashed s) eqn:Hcr; [discriminate|].
  pose proof (total_workerSteps_nonneg (workers s)) as Hws.
  unfold stepsLeft at 2. rewrite Hcr.
  destruct a.
  - unfold stepList in H.
    destruct (caller s) as [[|[|[k|] page] rest]| |] eqn:Hc; try discriminate.
    + injection H as <-. unfold stepsLeft. system_fields. rewrite Hcr.
      cbn [callerSteps concat length]. lia.
    + injection H as <-. unfold stepsLeft. system_fields. rewrite Hcr.
      cbn [callerSteps concat length app]. lia.
    + destruct (_ <? _); [|discriminate]. injection H as <-.
      unfold stepsLeft. system_fields. rewrite Hcr.
      cbn [callerSteps concat length app]. rewrite !length_app.
      cbn [length]. lia.
    + injection H as <-. unfold stepsLeft. system_fields.
      cbn [callerSteps concat length app]. lia.
  - unfold stepSelectDone in H.
    destruct (caller s) eqn:Hc; try discriminate.
    destruct (done s) as [|key rest]; [discriminate|]. cbn zeta in H.
    destruct (_ >=? _); injection H as <-; unfold stepsLeft; system_fields;
      rewrite Hcr, ?Hc; cbn [callerSteps length]; lia.
  - unfold stepSelectStatus in H.
    destruct (caller s) eqn:Hc; try discriminate.
    destruct (statusChan s) as [|err rest]; [discriminate|].
    injection H as <-. unfold stepsLeft. system_fields.
    rewrite Hcr. cbn [callerSteps length]. lia.
  - unfold stepReceive in H.
    destruct (workers s !! w) as [[]|] eqn:Hw; try discriminate.
    destruct (jobs s) as [|key rest]; [discriminate|].
    injection H as <-. unfold stepsLeft. system_fields.
    rewrite Hcr, (total_insert _ _ _ _ _ Hw).
    cbn [workerSteps length]. lia.
  - unfold stepCopyTo in H.
    destruct (workers s !! w) as [[|key| | |]|] eqn:Hw; try discriminate.
    cbn zeta in H.
    pose proof (total_workerSteps_lookup _ _ _ Hw) as Hmine.
    cbn [workerSteps] in Hmine.
    destruct (fst (CopyTo _ _ _ _)) as [[err|]|p|]; try discriminate;
      injection H as <-; unfold stepsLeft; system_fields;
      rewrite ?Hcr, ?(total_insert _ _ _ _ _ Hw); cbn [workerSteps];
      destruct (caller s); cbn [callerSteps]; lia.
  - unfold stepSend in H.
    destruct (workers s !! w) as [[|key|err|key|]|] eqn:Hw; try discriminate;
      (destruct (_ <? _); [|discriminate]); injection H as <-;
      unfold stepsLeft; system_fields;
      rewrite Hcr, (total_insert _ _ _ _ _ Hw), length_app;
      cbn [workerSteps length]; lia.
Qed.

Lemma run_stepsLeft (schedule : list Action) :
  forall s s',
    run c_partSize srcBucket destBucket s schedule = Some s' ->
    Z.of_nat (length schedule) + stepsLeft s' <= stepsLeft s.
Proof.
  induction schedule as [|a schedule IH]; intros s s' H; cbn [run] in H.
  - injection H as <-. cbn [length]. lia.
  - destruct (step _ _ _ s a) as [s1|] eqn:Hstep; [|discriminate].
    apply IH in H. apply step_stepsLeft in Hstep. cbn [length]. lia.
Qed.

(** X13.  Every run of [CopyWithPrefix] is finite: whatever the
    scheduler and the service do, the caller and the workers together
    take at most five steps for every key of the listing (the send on
    [jobs], the receive, the end of [CopyTo], the send of the result and
    its receipt by the [select]), one for the end of every page, and one
    to reach the [select]. *)
Theorem CopyWithPrefix_run_length (schedule : list Action) (s : System) :
  run c_partSize srcBucket destBucket (initial pages) schedule = Some s ->
  Z.of_nat (length schedule)
  <= 5 * Z.of_nat (length (concat pages)) + Z.of_nat (length pages) + 1.
Proof.
  intros H. apply run_stepsLeft in H.
  pose proof (stepsLeft_nonneg s) as Hs.
  unfold stepsLeft at 2 in H. unfold initial in H. system_fields.
  rewrite total_replicate in H. cbn [callerSteps workerSteps length] in H.
  lia.
Qed.

(** ** CopyWithPrefix: why the process can panic *)

Lemma run_app (l1 l2 : list Action) :
  forall s,
    run c_partSize srcBucket destBucket s (l1 ++ l2)
    = match run c_partSize srcBucket destBucket s l1 with
      | Some s1 => run c_partSize srcBucket destBucket s1 l2
      | None => None
      end.
Proof.
  induction l1 as [|a l1 IH]; intros s; [reflexivity|].
  cbn [app run]. destruct (step _ _ _ s a); [apply IH | reflexivity].
Qed.

(** The two steps that end in a panic. *)
Lemma step_crash (s s' : System) (a : Action) :
  step c_partSize srcBucket destBucket s a = Some s' ->
  crashed s' = true ->
  (exists page rest, a = ActList /\ caller s = Listing ((None :: page) :: rest))
  \/ exists w service key p,
       a = ActCopyTo w service
       /\ workers s !! w = Some (WCopyTo key)
       /\ fst (CopyTo {| partSize := c_partSize; s3client := service |}
                 {| bucket := srcBucket; key := key |}
                 {| bucket := destBucket; key := key |} []) = Panic p.
Proof.
  intros H Hcr. unfold step in H.
  destruct (crashed s) eqn:Hs; [discriminate|]. destruct a.
  - unfold stepList in H.
    destruct (caller s) as [[|[|[k|] page] rest]| |] eqn:Hc; try discriminate.
    + injection H as <-. system_fields. congruence.
    + injection H as <-. system_fields. congruence.
    + destruct (_ <? _); [|discriminate]. injection H as <-.
      system_fields. congruence.
    + left. eauto.
  - unfold stepSelectDone in H. destruct (caller s); try discriminate.
    destruct (done s); [discriminate|]. cbn zeta in H.
    destruct (_ >=? _); injection H as <-; system_fields; congruence.
  - unfold stepSelectStatus in H. destruct (caller s); try discriminate.
    destruct (statusChan s); [discriminate|].
    injection H as <-. system_fields. congruence.
  - unfold stepReceive in H.
    destruct (workers s !! w) as [[]|]; try discriminate.
    destruct (jobs s); [discriminate|].
    injection H as <-. system_fields. congruence.
  - unfold stepCopyTo in H.
    destruct (workers s !! w) as [[|key| | |]|] eqn:Hw; try discriminate.
    cbn zeta in H.
    destruct (fst (CopyTo _ _ _ _)) as [[err|]|p|] eqn:Hres; try discriminate;
      injection H as <-; system_fields; try congruence.
    right. exists w, service, key, p. auto.
  - unfold stepSend in H.
    destruct (workers s !! w) as [[]|]; try discriminate;
      (destruct (_ <? _); [|discriminate]); injection H as <-;
      system_fields; congruence.
Qed.

(** X19.  The process running [CopyWithPrefix] panics for two reasons
    only: the listing holds a nil key pointer, or a worker's call of
    [CopyTo] for a key of the listing has panicked. *)
Theorem CopyWithPrefix_panic_cause (schedule : list Action) (s : System) :
  run c_partSize srcBucket destBucket (initial pages) schedule = Some s ->
  crashed s = true ->
  In None (concat pages)
  \/ exists w service key p,
       In (ActCopyTo w service) schedule
       /\ In (Some key) (concat pages)
       /\ fst (CopyTo {| partSize := c_partSize; s3client := service |}
                 {| bucket := srcBucket; key := key |}
                 {| bucket := destBucket; key := key |} []) = Panic p.
Proof.
  intros Hrun Hcr.
  destruct schedule as [|a schedule _] using rev_ind.
  { injection Hrun as <-. discriminate Hcr. }
  rewrite run_app in Hrun.
  destruct (run _ _ _ (initial pages) schedule) as [s1|] eqn:Hpre;
    [|discriminate].
  cbn [run] in Hrun.
  destruct (step _ _ _ s1 a) as [s2|] eqn:Hstep; [|discriminate].
  injection Hrun as ->.
  pose proof (run_invariant c_partSize srcBucket destBucket pages schedule
                _ _ (initial_invariant pages) Hpre) as Hinv.
  pose proof (run_provenance schedule [] _ _ initial_provenance Hpre)
    as [Hkeys _ _ _].
  pose proof (inv_caller _ _ Hinv) as Hcaller.
  unfold CallerInvariant in Hcaller.
  destruct (step_crash _ _ _ Hstep Hcr)
    as [(page & rest & -> & Hc) | (w & service & key & p & -> & Hw & Hres)].
  - left. rewrite Hc in Hcaller. destruct Hcaller as (<- & _).
    apply in_or_app. right. left. reflexivity.
  - right. exists w, service, key, p.
    split; [apply in_or_app; right; left; reflexivity|].
    split; [|exact Hres].
    assert (Hin : In key (enqueued s1)).
    { apply list_elem_of_In. refine (elem_of_submseteq _ _ _ _ Hkeys).
      apply list_elem_of_In, in_or_app. right. apply in_or_app. left.
      apply (heldBy_lookup (workers s1) w (WCopyTo key)); [assumption|].
      left. reflexivity. }
    apply (in_map Some) in Hin.
    destruct (caller s1) as [rest| |[err|]].
    + destruct Hcaller as (<- & _). apply in_or_app. left. exact Hin.
    + destruct Hcaller as (<- & _). exact Hin.
    + destruct Hcaller as (<- & _). exact Hin.
    + destruct Hcaller as (<- & _). exact Hin.
Qed.
End CopyWithPrefixFurther.

Lemma CopyWithPrefix_returns_only_if_witness :
  let service := exampleService MiB (quoted "abc123") 0 in
  let pages := [[Some "a.ts"]] in
  let s := afterSchedule pages (exampleSchedule service ++ [ActSelectDone]) in
  1 <= Z.of_nat (length (concat pages))
       <= jobsCapacity + doneCapacity + WORKER_COUNT
  /\ concat pages = map Some (enqueued s).
Proof.
  intros service pages s.
  apply (CopyWithPrefix_returns_only_if (FIVE_MB * 2) "from" "to" pages s None).
  - exists (exampleSchedule service ++ [ActSelectDone]).
    vm_compute. reflexivity.
  - vm_compute. reflexivity.
Defined.

Lemma CopyWithPrefix_nil_all_copied_witness :
  let service := exampleService MiB (quoted "abc123") 0 in
  let pages := [[Some "a.ts"]] in
  let schedule := exampleSchedule service ++ [ActSelectDone] in
  let s := afterSchedule pages schedule in
  concat pages = map Some (enqueued s)
  /\ doneKeys (received s) ≡ₚ enqueued s
  /\ Forall (fun key => CopyToEnded (FIVE_MB * 2) "from" "to" schedule key None)
       (enqueued s).
Proof.
  intros service pages schedule s.
  apply (CopyWithPrefix_nil_all_copied (FIVE_MB * 2) "from" "to" pages
           schedule s).
  - vm_compute. reflexivity.
  - vm_compute. reflexivity.
Defined.

Lemma CopyWithPrefix_error_origin_witness :
  let pages := [[Some "a.ts"]] in
  let schedule := exampleSchedule refusingService ++ [ActSelectStatus] in
  exists key,
    In (Some key) (concat pages)
    /\ CopyToEnded (FIVE_MB * 2) "from" "to" schedule key (Some "E").
Proof.
  intros pages schedule.
  apply (CopyWithPrefix_error_origin (FIVE_MB * 2) "from" "to" pages
           schedule (afterSchedule pages schedule) "E").
  - vm_compute. reflexivity.
  - vm_compute. reflexivity.
Defined.

Lemma CopyWithPrefix_no_deadlock_witness :
  let service := exampleService MiB (quoted "abc123") 0 in
  let pages := [[Some "a.ts"]] in
  let s := afterSchedule pages (exampleSchedule service ++ [ActSelectDone]) in
  crashed s = true \/ exists r, caller s = CallerReturned r.
Proof.
  intros service pages s.
  apply (CopyWithPrefix_no_deadlock (FIVE_MB * 2) "from" "to" pages s).
  - vm_compute. split; discriminate.
  - exists (exampleSchedule service ++ [ActSelectDone]).
    vm_compute. reflexivity.
  - apply (returned_idle_deadlocked (FIVE_MB * 2) "from" "to" s None).
    + vm_compute. reflexivity.
    + vm_compute. repeat constructor.
    + vm_compute. reflexivity.
Defined.

Lemma CopyWithPrefix_run_length_witness :
  let service := exampleService MiB (quoted "abc123") 0 in
  let pages := [[Some "a.ts"]] in
  let schedule := exampleSchedule service ++ [ActSelectDone] in
  Z.of_nat (length schedule)
  <= 5 * Z.of_nat (length (concat pages)) + Z.of_nat (length pages) + 1.
Proof.
  intros service pages schedule.
  apply (CopyWithPrefix_run_length (FIVE_MB * 2) "from" "to" pages schedule
           (afterSchedule pages schedule)).
  vm_compute. reflexivity.
Defined.

Lemma CopyWithPrefix_panic_cause_witness :
  let pages := [[Some "a.ts"]] in
  let schedule :=
    [ActList; ActList; ActList; ActReceive 0; ActCopyTo 0 sizelessService] in
  In None (concat pages)
  \/ exists w service key p,
       In (ActCopyTo w service) schedule
       /\ In (Some key) (concat pages)
       /\ fst (CopyTo {| partSize := FIVE_MB * 2; s3client := service |}
                 {| bucket := "from"; key := key |}
                 {| bucket := "to"; key := key |} []) = Panic p.
Proof.
  intros pages schedule.
  apply (CopyWithPrefix_panic_cause (FIVE_MB * 2) "from" "to" pages schedule
           (afterSchedule pages schedule)).
  - vm_compute. reflexivity.
  - vm_compute. reflexivity.
Defined.
